(** * xmlschema: global declaration maps and decoded data elements

  A shallow embedding of [xmlschema/dataobjects.py] and
  [xmlschema/namespaces.py], with the properties of the design
  specification stated over it.

  Python objects are modelled by records and inductive types, dictionaries
  by stdpp's [gmap], generators by the list of the items they yield, and
  raised exceptions by explicit outcome types that keep the state reached
  when the exception left the function. *)

From stdpp Require Import gmap strings list fin_maps.

#[local] Set Warnings "-register-all".

Local Open Scope string_scope.
Local Open Scope nat_scope.
Local Open Scope list_scope.

(** ** Decoded data elements ([dataobjects.py]) *)

Module DataObjects.

(** The schema components a data element is bound to are external; only
    the [type] attribute of the bound element is read here. *)
Record XsdType := { xsd_type_id : nat }.
Record XsdElement := { xe_name : string; type : option XsdType }.

(** Decoded values: [True] and [False] are rendered specially by [text]. *)
Inductive PyValue :=
| VBool (b : bool)
| VStr (s : string).

Inductive DataElement :=
  mkDataElement {
      tag : string;
      value : option PyValue;
      attrib : list (string * PyValue);
      nsmap : list (string * string);
      xsd_element : option XsdElement;
      _xsd_type : option XsdType;
      _children : list DataElement
    }.

(** [DataElement.text] *)
Definition text (self : DataElement) : option string :=
  match value self with
  | None => None
  | Some (VBool true) => Some "true"
  | Some (VBool false) => Some "false"
  | Some (VStr s) => Some s
  end.

(** [DataElement.xsd_type] (the property getter) *)
Definition xsd_type (self : DataElement) : option XsdType :=
  match _xsd_type self with
  | Some t => Some t
  | None =>
      match xsd_element self with
      | Some xe => type xe
      | None => None
      end
  end.

(** [DataElement.xsd_type] (the property setter) *)
Definition set_xsd_type (v : option XsdType) (self : DataElement) : DataElement :=
  {| tag := tag self; value := value self; attrib := attrib self;
     nsmap := nsmap self; xsd_element := xsd_element self;
     _xsd_type := v; _children := _children self |}.

(** [DataElement.iter]: the generator is modelled by the list it yields.
    An absent argument is [None]. *)
Fixpoint iter (tag0 : option string) (self : DataElement) : list DataElement :=
  let tag1 := match tag0 with None => "*" | Some t => t end in
  match self with
  | mkDataElement stag _ _ _ _ _ children =>
      (if decide (tag1 = "*" ∨ tag1 = stag) then [self] else [])
        ++ flat_map (iter (Some tag1)) children
  end.

(** Depth-first order, the element first and then its descendants. *)
Fixpoint preorder (self : DataElement) : list DataElement :=
  match self with
  | mkDataElement _ _ _ _ _ _ children => self :: flat_map preorder children
  end.

(** The tag filter of [iter]: an absent tag and ['*'] select everything,
    any other string selects the elements carrying exactly that tag. *)
Definition selects (tag0 : option string) (e : DataElement) : bool :=
  match tag0 with
  | None => true
  | Some t => bool_decide (t = "*") || bool_decide (t = tag e)
  end.

Definition leaf (t : string) : DataElement :=
  mkDataElement t None [] [] None None [].

(** *** The sequence of children *)

(** The exception the list of children raises on an index out of range. *)
Inductive SeqError :=
| IndexError.

(** [DataElement.__init__]: an absent or empty [attrib] or [nsmap] leaves
    the new element's own empty dictionary. *)
Definition __init__ (tag0 : string) (value0 : option PyValue)
    (attrib0 : option (list (string * PyValue)))
    (nsmap0 : option (list (string * string)))
    (xsd_element0 : option XsdElement) (xsd_type0 : option XsdType)
  : DataElement :=
  mkDataElement tag0 value0 (default [] attrib0) (default [] nsmap0)
    xsd_element0 xsd_type0 [].

Definition set_children (ch : list DataElement) (self : DataElement)
  : DataElement :=
  {| tag := tag self; value := value self; attrib := attrib self;
     nsmap := nsmap self; xsd_element := xsd_element self;
     _xsd_type := _xsd_type self; _children := ch |}.

(** The position the integer index [i] denotes in a Python list of length
    [n]: a negative index counts from the end, and an index outside
    [-n .. n-1] is an [IndexError]. *)
Definition list_index (n : nat) (i : Z) : SeqError + nat :=
  if decide (0 ≤ i < Z.of_nat n)%Z then inr (Z.to_nat i)
  else if decide (- Z.of_nat n ≤ i < 0)%Z then inr (Z.to_nat (Z.of_nat n + i))
  else inl IndexError.

(** The position [list.insert(i, x)] inserts at: the index is counted
    from the end when negative and then clipped to [0 .. n]. *)
Definition insert_position (n : nat) (i : Z) : nat :=
  let i1 := if decide (i < 0)%Z then (i + Z.of_nat n)%Z else i in
  let i2 := if decide (i1 < 0)%Z then 0%Z else i1 in
  Z.to_nat (if decide (Z.of_nat n < i2)%Z then Z.of_nat n else i2).

(** [DataElement.__len__] *)
Definition __len__ (self : DataElement) : nat := length (_children self).

(** [DataElement.__iter__] *)
Definition __iter__ (self : DataElement) : list DataElement := _children self.

(** [DataElement.__getitem__], for an integer index. *)
Definition __getitem__ (i : Z) (self : DataElement) : SeqError + DataElement :=
  match list_index (length (_children self)) i with
  | inl e => inl e
  | inr k =>
      match _children self !! k with
      | Some child => inr child
      | None => inl IndexError
      end
  end.

(** [DataElement.__setitem__], for an integer index: the element as the
    assignment leaves it. *)
Definition __setitem__ (i : Z) (child : DataElement) (self : DataElement)
  : SeqError + DataElement :=
  match list_index (length (_children self)) i with
  | inl e => inl e
  | inr k => inr (set_children (<[k := child]> (_children self)) self)
  end.

(** [DataElement.__delitem__], for an integer index. *)
Definition __delitem__ (i : Z) (self : DataElement) : SeqError + DataElement :=
  match list_index (length (_children self)) i with
  | inl e => inl e
  | inr k => inr (set_children (delete k (_children self)) self)
  end.

(** [DataElement.insert] *)
Definition insert (i : Z) (child : DataElement) (self : DataElement)
  : DataElement :=
  let k := insert_position (length (_children self)) i in
  set_children (take k (_children self) ++ child :: drop k (_children self)) self.

End DataObjects.

(** ** Global declaration maps ([namespaces.py]) *)

Module Namespaces.

(** *** Data model *)

(** A parsed XML element, as the document library exposes it. *)
Inductive Element :=
  mkElement {
      tag : string;
      attrib : list (string * string);
      children : list Element
    }.

(** A schema document. Schemas are shared objects compared by identity:
    [sid] stands for the identity, and the only attribute that is ever
    mutated, [built], is kept in the store (see [XsdGlobals]). *)
Record Schema :=
  mkSchema {
      sid : nat;
      root : Element;
      target_namespace : string;
      uri : option string
    }.

(** A built component, an instance of (a subclass of) [XsdBase]. The
    builder reads [elem] and [schema]; [name] is read when the base
    elements are collected; [ident] tells instances apart. *)
Record XsdBase :=
  mkXsdBase {
      name : string;
      elem : option Element;
      schema : option Schema;
      ident : nat
    }.

(** What a list stored in a component map holds, and what a map holds
    directly: a built instance, a raw [(elem, schema)] tuple, or a value of
    some other type. *)
Inductive item :=
| Inst (x : XsdBase)
| Decl (e : Element) (s : Schema)
| Other (junk : nat).

(** A component map entry: a single item or a list (chain) of items. *)
Inductive entry :=
| Single (i : item)
| Chain (l : list item).

(** The exceptions the module raises or handles. [PyError] stands for the
    interpreter's own exceptions ([KeyError], [AttributeError], ...), which
    no handler of the module catches. *)
Inductive Exn :=
| XMLSchemaTypeError (msg : string)
| XMLSchemaLookupError (msg : string)
| XMLSchemaParseError (msg : string) (at_elem : option Element)
| PyError (kind : string).

Inductive result (A : Type) :=
| Return (a : A)
| Raise (e : Exn).
Arguments Return {A} a.
Arguments Raise {A} e.

(** A local variable of a Python function: unbound until first assigned. *)
Inductive pyvar (A : Type) :=
| Unbound
| Bound (a : A).
Arguments Unbound {A}.
Arguments Bound {A} a.

(** The external collaborators of the module: the document query facility,
    the helpers of [qnames] and [utils], the tag constants, the iteration
    order of a Python [set] (some order, each member once), and the
    [iter_elements] method of a built model group. *)
Class Externals :=
  {
    iterfind : Element → string → list (string * string) → list Element;
    get_qname : string → string → string;
    get_xsd_attribute : Element → string → result string;
    get_namespace : string → string;
    local_name : string → string;
    set_iter : gset string → list string;
    set_iter_perm : ∀ X, set_iter X ≡ₚ elements X;
    iter_elements : XsdBase → list XsdBase;
    XSD_REDEFINE_TAG : string;
    XSD_SIMPLE_TYPE_TAG : string;
    XSD_COMPLEX_TYPE_TAG : string;
    XSD_ATTRIBUTE_TAG : string;
    XSD_ATTRIBUTE_GROUP_TAG : string;
    XSD_ELEMENT_TAG : string;
    XSD_GROUP_TAG : string
  }.

(** A factory is external code. It is run on the declaration element, its
    schema, the previous instance when there is one, and the forwarded
    options (of which only [parse_local_groups] varies); it may read the
    map under construction and may read and change the rest of the world
    [W]; it returns a qualified name and an instance, or raises. *)
Definition Factory (W : Type) : Type :=
  W → gmap string entry → Element → Schema → option XsdBase → bool →
  W * result (string * XsdBase).

Record Kwargs (W : Type) :=
  {
    factories : string → option (Factory W);
    parse_local_groups : bool
  }.
Arguments factories {W} _ _.
Arguments parse_local_groups {W} _.

(** One factory invocation, as recorded in the call log. *)
Record fcall :=
  {
    fc_key : string;
    fc_elem : Element;
    fc_schema : Schema;
    fc_prev : option XsdBase;
    fc_result : result (string * XsdBase)
  }.

(** *** Tag scanner *)

Section Scanner.
Context `{Externals}.

(** [create_iterfind_by_tag(tag)]: the generator function it returns,
    modelled by the list of yielded items. [elements] is one document
    ([inl]) or a list of documents ([inr]). *)
Definition create_iterfind_by_tag (tag0 : string)
    (elements : Element + list Element)
    (path : option string) (namespaces : option (list (string * string)))
  : list Element :=
  let path_or_tag :=
    match path with
    | Some p => if decide (p = "") then tag0 else p
    | None => tag0
    end in
  let namespaces_or_empty := default [] namespaces in
  match elements with
  | inr docs =>
      flat_map (λ _elem,
          flat_map (λ el, if decide (tag el = tag0) then [_elem] else [])
            (iterfind _elem path_or_tag namespaces_or_empty))
        docs
  | inl doc =>
      flat_map (λ el, if decide (tag el = tag0) then [el] else [])
        (iterfind doc path_or_tag namespaces_or_empty)
  end.

Definition iterfind_xsd_redefine (e : Element) : list Element :=
  create_iterfind_by_tag XSD_REDEFINE_TAG (inl e) None None.

End Scanner.

(** *** Declaration loader *)

(** Loops that an exception can leave early: the state reached and the
    exception raised, if any. *)
Definition Cmd (S : Type) : Type := S → S * option Exn.

Fixpoint for_each {A S : Type} (body : A → Cmd S) (l : list A) : Cmd S :=
  λ st,
    match l with
    | [] => (st, None)
    | x :: l' =>
        match body x st with
        | (st', None) => for_each body l' st'
        | raised => raised
        end
    end.

(** [xsd_globals[qname].append(obj)] with its two fallbacks (lines 79-84
    and 89-94): a missing key ([KeyError]) stores the object itself, a
    stored value without [append] ([AttributeError]: a tuple, or an
    instance, which is taken to have no such method) is replaced by a
    two-item list. *)
Definition add_declaration (qname : string) (obj : item)
    (xsd_globals : gmap string entry) : gmap string entry :=
  match xsd_globals !! qname with
  | Some (Chain l) => <[qname := Chain (l ++ [obj])]> xsd_globals
  | None => <[qname := Single obj]> xsd_globals
  | Some (Single i) => <[qname := Chain [i; obj]]> xsd_globals
  end.

(** The state of the first loop of [load_xsd_globals]: the map and the
    list [redefinitions]. *)
Record lstate :=
  {
    l_globals : gmap string entry;
    redefinitions : list (string * (Element * Schema))
  }.

Section Loader.
Context `{Externals}.
(** The tag of the component kind, fixed by [create_load_function]:
    [filter_function] is [create_iterfind_by_tag tag0]. *)
Variable tag0 : string.
(** The [built] flag of the schemas, read from the store. *)
Variable built : Schema → bool.

Definition filter_function (e : Element) : list Element :=
  create_iterfind_by_tag tag0 (inl e) None None.

(** The body of the loop over the children of a redefine block (lines
    74-75); [get_xsd_attribute] may raise. *)

Definition stage_redefinition (sc : Schema) (child : Element) : Cmd lstate :=
  λ st,
    match get_xsd_attribute child "name" with
    | Raise e => (st, Some e)
    | Return n =>
        let qname := get_qname (target_namespace sc) n in
        ({| l_globals := l_globals st;
            redefinitions := redefinitions st ++ [(qname, (child, sc))] |},
         None)
    end.

(** The body of the loop over the declarations of the schema root (lines
    78-84). *)
Definition load_declaration (sc : Schema) (el : Element) : Cmd lstate :=
  λ st,
    match get_xsd_attribute el "name" with
    | Raise e => (st, Some e)
    | Return n =>
        let qname := get_qname (target_namespace sc) n in
        ({| l_globals := add_declaration qname (Decl el sc) (l_globals st);
            redefinitions := redefinitions st |},
         None)
    end.

(** The body of [for schema in schemas] (lines 68-84). *)
Definition scan_schema (sc : Schema) : Cmd lstate :=
  λ st,
    if built sc then (st, None)
    else
      match for_each (λ el, for_each (stage_redefinition sc) (filter_function el))
              (iterfind_xsd_redefine (root sc)) st with
      | (st', None) => for_each (load_declaration sc) (filter_function (root sc)) st'
      | raised => raised
      end.

(** The body of [for qname, obj in redefinitions] (lines 87-94). *)
Definition apply_redefinition (r : string * (Element * Schema))
  : Cmd (gmap string entry) :=
  λ xsd_globals,
    let '(qname, (el, sc)) := r in
    match xsd_globals !! qname with
    | None => (xsd_globals, Some (XMLSchemaParseError "not a redefinition!" (Some el)))
    | Some _ => (add_declaration qname (Decl el sc) xsd_globals, None)
    end.

(** [load_xsd_globals(xsd_globals, schemas)]: the map as the call leaves
    it, and the exception raised, if any. *)
Definition load_xsd_globals (xsd_globals : gmap string entry)
    (schemas : list Schema) : gmap string entry * option Exn :=
  match for_each scan_schema schemas
          {| l_globals := xsd_globals; redefinitions := [] |} with
  | (st, None) => for_each apply_redefinition (redefinitions st) (l_globals st)
  | (st, Some e) => (l_globals st, Some e)
  end.

End Loader.

(** *** Declaration builder *)

(** The state [build_xsd_map] runs on: the map it mutates, the world its
    factory sees, the log of factory invocations, and the local variables
    of the function: [global_names], [errors_counter], the lists [missing]
    and [errors] of the current pass, [elem] and [res_qname] (which survive
    from one iteration to the next), and the keys the [for] loop of the
    current pass has not reached yet. *)
Record bstate (W : Type) :=
  mkBstate {
      xsd_globals : gmap string entry;
      world : W;
      calls : list fcall;
      global_names : list string;
      errors_counter : nat;
      missing : list string;
      errors : list Exn;
      l_elem : pyvar (option Element);
      l_res_qname : pyvar string;
      pending : list string
    }.
Arguments mkBstate {W}.
Arguments xsd_globals {W}.
Arguments world {W}.
Arguments calls {W}.
Arguments global_names {W}.
Arguments errors_counter {W}.
Arguments missing {W}.
Arguments errors {W}.
Arguments l_elem {W}.
Arguments l_res_qname {W}.
Arguments pending {W}.

(** How one iteration, one pass, or the whole call ends: normally, by the
    no-progress [raise] of the exception handler, or by any other
    exception leaving the function. *)
Inductive outcome (W : Type) :=
| Done (st : bstate W)
| Exhausted (e : Exn) (st : bstate W)
| Failed (e : Exn) (st : bstate W).
Arguments Done {W}.
Arguments Exhausted {W}.
Arguments Failed {W}.

(** How the [try] body of one iteration ends. *)
Inductive flow (W : Type) :=
| FContinue (st : bstate W)
| FElse (xsd_instance : option XsdBase) (st : bstate W)
| FExcept (err : Exn) (st : bstate W).
Arguments FContinue {W}.
Arguments FElse {W}.
Arguments FExcept {W}.

(** The exceptions the handler of [build_xsd_map] catches. *)
Definition is_deferral (err : Exn) : bool :=
  match err with
  | XMLSchemaTypeError _ | XMLSchemaLookupError _ => true
  | _ => false
  end.

Definition is_lookup (err : Exn) : bool :=
  match err with
  | XMLSchemaLookupError _ => true
  | _ => false
  end.

Definition str (err : Exn) : string :=
  match err with
  | XMLSchemaTypeError m | XMLSchemaLookupError m | XMLSchemaParseError m _ => m
  | PyError k => k
  end.

(** What the map stores for [xsd_instance]. *)
Definition stored (xsd_instance : option XsdBase) : entry :=
  match xsd_instance with
  | Some x => Single (Inst x)
  | None => Single (Other 0)
  end.

Section Builder.
Context {W : Type}.
(** [tag], [kwargs] and the factory key fixed by
    [create_builder_function]; the [built] flag of the schemas. *)
Variable factory_key : string.
Variable tag0 : string.
Variable kwargs : Kwargs W.
Variable built : Schema → bool.

Definition set_elem (v : option Element) (st : bstate W) : bstate W :=
  mkBstate (xsd_globals st) (world st) (calls st) (global_names st)
    (errors_counter st) (missing st) (errors st)
    (Bound v) (l_res_qname st) (pending st).

Definition set_res_qname (v : string) (st : bstate W) : bstate W :=
  mkBstate (xsd_globals st) (world st) (calls st) (global_names st)
    (errors_counter st) (missing st) (errors st)
    (l_elem st) (Bound v) (pending st).

Definition set_globals (g : gmap string entry) (st : bstate W) : bstate W :=
  mkBstate g (world st) (calls st) (global_names st)
    (errors_counter st) (missing st) (errors st)
    (l_elem st) (l_res_qname st) (pending st).

Definition set_pending (names : list string) (st : bstate W) : bstate W :=
  mkBstate (xsd_globals st) (world st) (calls st) (global_names st)
    (errors_counter st) (missing st) (errors st)
    (l_elem st) (l_res_qname st) names.

Definition set_deferred (m : list string) (errs : list Exn) (st : bstate W)
  : bstate W :=
  mkBstate (xsd_globals st) (world st) (calls st) (global_names st)
    (errors_counter st) m errs
    (l_elem st) (l_res_qname st) (pending st).

(** [errors_counter = len(missing); global_names = missing] *)
Definition next_pass (st : bstate W) : bstate W :=
  mkBstate (xsd_globals st) (world st) (calls st) (missing st)
    (length (missing st)) (missing st) (errors st)
    (l_elem st) (l_res_qname st) (pending st).

(** [factory_function(elem, schema, previous, is_global=True, **kwargs)],
    with the invocation appended to the call log. A key absent from
    [kwargs] makes [factory_function] [None], and calling it a
    [TypeError]. *)
Definition call_factory (qname : string) (el : Element) (sc : Schema)
    (prev : option XsdBase) (st : bstate W)
  : bstate W * result (string * XsdBase) :=
  match factories kwargs factory_key with
  | None => (st, Raise (PyError "TypeError"))
  | Some factory_function =>
      let '(w, r) :=
        factory_function (world st) (xsd_globals st) el sc prev
          (parse_local_groups kwargs) in
      (mkBstate (xsd_globals st) w
         (calls st ++ [{| fc_key := qname; fc_elem := el; fc_schema := sc;
                          fc_prev := prev; fc_result := r |}])
         (global_names st) (errors_counter st)
         (missing st) (errors st) (l_elem st) (l_res_qname st) (pending st),
       r)
  end.

(** [obj[0] = xsd_instance] on the list stored under [qname]. *)
Definition set_head (qname : string) (x : XsdBase) (st : bstate W) : bstate W :=
  set_globals
    (alter (λ en, match en with
                  | Chain l => Chain (<[0 := Inst x]> l)
                  | Single i => Single i
                  end) qname (xsd_globals st))
    st.

(** The loop [for k in range(start, len(obj))] over the items still to
    visit. *)
Fixpoint chain_loop (qname : string) (rest : list item)
    (xsd_instance : option XsdBase) (st : bstate W) : flow W :=
  match rest with
  | [] => FElse xsd_instance st
  | Decl el sc :: rest' =>
      let st1 := set_elem (Some el) st in
      if decide (tag el ≠ tag0) then FElse xsd_instance st1
      else
        match call_factory qname el sc xsd_instance st1 with
        | (st2, Raise err) => FExcept err st2
        | (st2, Return (res_qname, x)) =>
            chain_loop qname rest' (Some x)
              (set_head qname x (set_res_qname res_qname st2))
        end
  | _ :: _ => FExcept (PyError "TypeError") st
  end.

(** The body of the [try] statement. *)
Definition try_body (qname : string) (obj : entry) (st : bstate W) : flow W :=
  match obj with
  | Single (Inst x) =>
      let st1 := set_elem (elem x) st in
      match elem x with
      | None => FContinue st1
      | Some el =>
          if decide (tag el ≠ tag0) then FContinue st1
          else
            match schema x with
            | None => FExcept (PyError "AttributeError") st1
            | Some sc =>
                if built sc then FContinue st1
                else
                  match call_factory qname el sc (Some x) st1 with
                  | (st2, Raise err) => FExcept err st2
                  | (st2, Return (res_qname, xi)) =>
                      FElse (Some xi) (set_res_qname res_qname st2)
                  end
            end
      end
  | Single (Decl el sc) =>
      let st1 := set_elem (Some el) st in
      if decide (tag el ≠ tag0) then FContinue st1
      else
        match call_factory qname el sc None st1 with
        | (st2, Raise err) => FExcept err st2
        | (st2, Return (res_qname, xi)) =>
            FElse (Some xi) (set_res_qname res_qname st2)
        end
  | Chain [] => FExcept (PyError "IndexError") st
  | Chain (Inst x :: rest) => chain_loop qname rest (Some x) st
  | Chain l => chain_loop qname l None st
  | Single (Other _) => FExcept (XMLSchemaTypeError "unexpected type") st
  end.

(** The [except (XMLSchemaTypeError, XMLSchemaLookupError)] clause; the
    logging call reads [elem.attrib]. *)
Definition except_clause (qname : string) (err : Exn) (st : bstate W)
  : outcome W :=
  match l_elem st with
  | Unbound => Failed (PyError "UnboundLocalError") st
  | Bound None => Failed (PyError "AttributeError") st
  | Bound (Some el) =>
      let missing1 := missing st ++ [qname] in
      let errors1 := if is_lookup err then errors st ++ [err] else errors st in
      let st1 := set_deferred missing1 errors1 st in
      if decide (length missing1 = errors_counter st) then
        Exhausted
          (match errors1 with
           | e0 :: _ => e0
           | [] => XMLSchemaParseError (str err) (Some el)
           end)
          st1
      else Done st1
  end.

(** The [else] clause of the [try] statement. *)
Definition else_clause (qname : string) (xsd_instance : option XsdBase)
    (st : bstate W) : outcome W :=
  match l_elem st with
  | Unbound => Failed (PyError "UnboundLocalError") st
  | Bound None => Failed (PyError "AttributeError") st
  | Bound (Some el) =>
      if decide (tag el ≠ tag0) then Done st
      else
        match l_res_qname st with
        | Unbound => Failed (PyError "UnboundLocalError") st
        | Bound res_qname =>
            if decide (res_qname ≠ qname) then
              Failed (XMLSchemaParseError "wrong result name" None) st
            else
              Done (set_globals (<[qname := stored xsd_instance]> (xsd_globals st)) st)
        end
  end.

(** One iteration of [for qname in global_names]. *)
Definition process_key (qname : string) (st : bstate W) : outcome W :=
  match xsd_globals st !! qname with
  | None => Failed (PyError "KeyError") st
  | Some obj =>
      match try_body qname obj st with
      | FContinue st1 => Done st1
      | FElse xsd_instance st1 => else_clause qname xsd_instance st1
      | FExcept err st1 =>
          if is_deferral err then except_clause qname err st1
          else Failed err st1
      end
  end.

(** One pass: the [for] loop, over the keys not visited yet. *)
Fixpoint pass_loop (names : list string) (st : bstate W) : outcome W :=
  match names with
  | [] => Done (set_pending [] st)
  | qname :: rest =>
      match process_key qname (set_pending rest st) with
      | Done st1 => pass_loop rest st1
      | raised => raised
      end
  end.

(** The [while True] loop; [None] when the fuel does not suffice. The
    counter [i] of the source is never read and is left out. *)
Fixpoint build_loop (fuel : nat) (st : bstate W) : option (outcome W) :=
  match fuel with
  | 0 => None
  | S fuel' =>
      match pass_loop (global_names st) (set_deferred [] [] st) with
      | Done st1 =>
          match missing st1 with
          | [] => Some (Done st1)
          | _ :: _ => build_loop fuel' (next_pass st1)
          end
      | raised => Some raised
      end
  end.

(** The state a call starts from: [global_names] is the set of the keys,
    in the order its iteration gives. *)
Definition enter (names : list string) (g : gmap string entry) (w : W)
    (log : list fcall) : bstate W :=
  mkBstate g w log names 0 [] [] Unbound Unbound [].

End Builder.

(** [build_xsd_map(xsd_globals, tag, **kwargs)] as returned by
    [create_builder_function(factory_key)]. *)
Definition build_xsd_map `{Externals} {W : Type} (factory_key : string)
    (built : Schema → bool) (fuel : nat)
    (g : gmap string entry) (tag0 : string) (kwargs : Kwargs W)
    (w : W) (log : list fcall) : option (outcome W) :=
  build_loop factory_key tag0 kwargs built fuel
    (enter (set_iter (dom g)) g w log).

(** *** Global registry ([XsdGlobals]) *)

(** The names [get_globals] accepts for [map_name]: the component maps of
    the registry. *)
Inductive MapName :=
| types_map
| attributes_map
| attribute_groups_map
| groups_map
| elements_map
| base_elements_map.

#[global] Instance MapName_eq_dec : EqDecision MapName.
Proof. solve_decision. Defined.

Definition MapName_code (m : MapName) : nat :=
  match m with
  | types_map => 0
  | attributes_map => 1
  | attribute_groups_map => 2
  | groups_map => 3
  | elements_map => 4
  | base_elements_map => 5
  end.

Definition MapName_of_code (n : nat) : MapName :=
  match n with
  | 0 => types_map
  | 1 => attributes_map
  | 2 => attribute_groups_map
  | 3 => groups_map
  | 4 => elements_map
  | _ => base_elements_map
  end.

#[global] Instance MapName_countable : Countable MapName.
Proof.
  apply (inj_countable' MapName_code MapName_of_code). by intros [].
Defined.

(** A namespace view: a dictionary object of its own ([view_id] stands for
    its identity) holding the selected items. *)
Record View :=
  {
    view_id : nat;
    view_items : gmap string entry
  }.

Record Validator (W : Type) :=
  {
    BUILTIN_TYPES : gmap string XsdBase;
    OPTIONS : string → option (Factory W)
  }.
Arguments BUILTIN_TYPES {W}.
Arguments OPTIONS {W}.

(** The registry object, together with the part of the store its methods
    reach: the [built] flags of the schema objects, the world the
    factories act on, the log of factory invocations, and the identity of
    the next view to be created. [namespaces] keeps insertion order. *)
Record XsdGlobals (W : Type) :=
  mkXsdGlobals {
      validator : Validator W;
      namespaces : list (string * list Schema);
      resources : gmap string Schema;
      types : gmap string entry;
      attributes : gmap string entry;
      attribute_groups : gmap string entry;
      groups : gmap string entry;
      elements : gmap string entry;
      base_elements : gmap string entry;
      _view_cache : gmap (MapName * string * bool) View;
      built_schemas : gset nat;
      outer_world : W;
      factory_log : list fcall;
      next_view_id : nat
    }.
Arguments mkXsdGlobals {W}.
Arguments validator {W}.
Arguments namespaces {W}.
Arguments resources {W}.
Arguments types {W}.
Arguments attributes {W}.
Arguments attribute_groups {W}.
Arguments groups {W}.
Arguments elements {W}.
Arguments base_elements {W}.
Arguments _view_cache {W}.
Arguments built_schemas {W}.
Arguments outer_world {W}.
Arguments factory_log {W}.
Arguments next_view_id {W}.

Section Registry.
Context `{Externals} {W : Type}.

(** [XsdGlobals.__init__] *)
Definition init (v : Validator W) (flags : gset nat) (w : W) : XsdGlobals W :=
  mkXsdGlobals v [] ∅ (Single ∘ Inst <$> BUILTIN_TYPES v) ∅ ∅ ∅ ∅ ∅ ∅
    flags w [] 0.

(** [getattr(self, map_name)] *)
Definition get_map (m : MapName) (self : XsdGlobals W) : gmap string entry :=
  match m with
  | types_map => types self
  | attributes_map => attributes self
  | attribute_groups_map => attribute_groups self
  | groups_map => groups self
  | elements_map => elements self
  | base_elements_map => base_elements self
  end.

Definition set_map (m : MapName) (g : gmap string entry) (self : XsdGlobals W)
  : XsdGlobals W :=
  mkXsdGlobals (validator self) (namespaces self) (resources self)
    (if decide (m = types_map) then g else types self)
    (if decide (m = attributes_map) then g else attributes self)
    (if decide (m = attribute_groups_map) then g else attribute_groups self)
    (if decide (m = groups_map) then g else groups self)
    (if decide (m = elements_map) then g else elements self)
    (if decide (m = base_elements_map) then g else base_elements self)
    (_view_cache self) (built_schemas self) (outer_world self)
    (factory_log self) (next_view_id self).

Definition is_built (self : XsdGlobals W) (sc : Schema) : bool :=
  bool_decide (sid sc ∈ built_schemas self).

(** [XsdGlobals.iter_schemas] *)
Definition iter_schemas (self : XsdGlobals W) : list Schema :=
  flat_map snd (namespaces self).

Definition set_indices (ns : list (string * list Schema))
    (res : gmap string Schema) (self : XsdGlobals W) : XsdGlobals W :=
  mkXsdGlobals (validator self) ns res (types self) (attributes self)
    (attribute_groups self) (groups self) (elements self)
    (base_elements self) (_view_cache self) (built_schemas self)
    (outer_world self) (factory_log self) (next_view_id self).

(** [ns_schemas.append(schema)] on the list stored under a namespace. *)
Fixpoint append_schema (ns : string) (sc : Schema)
    (l : list (string * list Schema)) : list (string * list Schema) :=
  match l with
  | [] => []
  | (k, scs) :: l' =>
      if decide (k = ns) then (k, scs ++ [sc]) :: l'
      else (k, scs) :: append_schema ns sc l'
  end.

Definition lookup_namespace (ns : string) (l : list (string * list Schema))
  : option (list Schema) :=
  snd <$> find (λ kv, bool_decide (kv.1 = ns)) l.

(** [XsdGlobals.register] *)
Definition register (sc : Schema) (self : XsdGlobals W) : XsdGlobals W :=
  let by_uri :=
    match uri sc with
    | Some u =>
        if decide (u = "") then Some (resources self)
        else
          match resources self !! u with
          | None => Some (<[u := sc]> (resources self))
          | Some other =>
              if decide (sid other ≠ sid sc) then None
              else Some (resources self)
          end
    | None => Some (resources self)
    end in
  match by_uri with
  | None => self
  | Some res =>
      match lookup_namespace (target_namespace sc) (namespaces self) with
      | None =>
          set_indices (namespaces self ++ [(target_namespace sc, [sc])]) res self
      | Some ns_schemas =>
          if bool_decide (Exists (λ o, sid o = sid sc) ns_schemas) then
            set_indices (namespaces self) res self
          else if bool_decide (Exists (λ o, uri sc = uri o) ns_schemas) then
            set_indices (namespaces self) res self
          else
            set_indices
              (append_schema (target_namespace sc) sc (namespaces self)) res self
      end
  end.

(** The dictionary comprehension of [get_globals] with local names as
    keys: later items replace earlier ones under the same key. *)
Definition local_view (namespace : string) (g : gmap string entry)
  : gmap string entry :=
  foldl (λ acc kv, if decide (namespace = get_namespace kv.1)
                   then <[local_name kv.1 := kv.2]> acc else acc)
    ∅ (map_to_list g).

(** [XsdGlobals.get_globals]: the view returned and the registry as the
    call leaves it. *)
Definition get_globals (map_name : MapName) (namespace : string)
    (fqn_keys : bool) (self : XsdGlobals W) : View * XsdGlobals W :=
  match _view_cache self !! (map_name, namespace, fqn_keys) with
  | Some view => (view, self)
  | None =>
      let items :=
        if fqn_keys then
          filter (λ kv, namespace = get_namespace kv.1) (get_map map_name self)
        else local_view namespace (get_map map_name self) in
      let view := {| view_id := next_view_id self; view_items := items |} in
      (view,
       mkXsdGlobals (validator self) (namespaces self) (resources self)
         (types self) (attributes self) (attribute_groups self) (groups self)
         (elements self) (base_elements self)
         (<[(map_name, namespace, fqn_keys) := view]> (_view_cache self))
         (built_schemas self) (outer_world self) (factory_log self)
         (S (next_view_id self)))
  end.

(** [XsdGlobals.clear] *)
Definition clear (remove_schemas : bool) (self : XsdGlobals W) : XsdGlobals W :=
  mkXsdGlobals (validator self)
    (if remove_schemas then [] else namespaces self)
    (if remove_schemas then ∅ else resources self)
    (Single ∘ Inst <$> BUILTIN_TYPES (validator self)) ∅ ∅ ∅ ∅ ∅ ∅
    (built_schemas self ∖ list_to_set (sid <$> iter_schemas self))
    (outer_world self) (factory_log self) (next_view_id self).

(** [XsdGlobals.copy]: a new registry for the same validator, its indices
    and maps updated with those of [self], its view cache empty. The
    lists of schemas it holds are the lists of [self] themselves (see
    [register_shared]); so are the schemas, whose [built] flags stay in
    the one store. *)
Definition copy (self : XsdGlobals W) : XsdGlobals W :=
  mkXsdGlobals (validator self) (namespaces self) (resources self)
    (types self ∪ (Single ∘ Inst <$> BUILTIN_TYPES (validator self)))
    (attributes self) (attribute_groups self) (groups self) (elements self)
    (base_elements self) ∅
    (built_schemas self) (outer_world self) (factory_log self)
    (next_view_id self).

(** A step of [build]: [None] when the fuel of a builder loop does not
    suffice, otherwise the registry reached and the exception raised, if
    any. *)
Definition Op : Type := XsdGlobals W → option (XsdGlobals W * option Exn).

Definition and_then (a b : Op) : Op :=
  λ self,
    match a self with
    | Some (self', None) => b self'
    | stopped => stopped
    end.

Definition load_step (tag0 : string) (m : MapName) : Op :=
  λ self,
    let '(g, raised) :=
      load_xsd_globals tag0 (is_built self) (get_map m self) (iter_schemas self) in
    Some (set_map m g self, raised).

Definition commit (m : MapName) (st : bstate W) (self : XsdGlobals W)
  : XsdGlobals W :=
  let self' := set_map m (xsd_globals st) self in
  mkXsdGlobals (validator self') (namespaces self') (resources self')
    (types self') (attributes self') (attribute_groups self') (groups self')
    (elements self') (base_elements self') (_view_cache self')
    (built_schemas self') (world st) (calls st) (next_view_id self').

Definition build_step (fuel : nat) (factory_key : string) (tag0 : string)
    (m : MapName) (local_groups : bool) : Op :=
  λ self,
    match build_xsd_map factory_key (is_built self) fuel (get_map m self) tag0
            {| factories := OPTIONS (validator self);
               parse_local_groups := local_groups |}
            (outer_world self) (factory_log self) with
    | None => None
    | Some (Done st) => Some (commit m st self, None)
    | Some (Exhausted e st) | Some (Failed e st) => Some (commit m st self, Some e)
    end.

(** [self.base_elements.update({e.name: e for e in group.iter_elements()})]
    for one value of [self.groups]; a value that is not an instance has no
    [iter_elements]. *)
Definition add_group_elements (group : entry) : Cmd (gmap string entry) :=
  λ base,
    match group with
    | Single (Inst x) =>
        (foldl (λ acc e, <[name e := Single (Inst e)]> acc) ∅ (iter_elements x)
           ∪ base, None)
    | _ => (base, Some (PyError "AttributeError"))
    end.

Definition update_base_elements : Op :=
  λ self,
    let '(base, raised) :=
      for_each add_group_elements (snd <$> map_to_list (groups self))
        (elements self ∪ base_elements self) in
    Some (set_map base_elements_map base self, raised).

Definition mark_built : Op :=
  λ self,
    Some (mkXsdGlobals (validator self) (namespaces self) (resources self)
            (types self) (attributes self) (attribute_groups self)
            (groups self) (elements self) (base_elements self)
            (_view_cache self)
            (built_schemas self ∪ list_to_set (sid <$> iter_schemas self))
            (outer_world self) (factory_log self) (next_view_id self),
          None).

Definition build_steps (fuel : nat) : list Op :=
  [ load_step XSD_SIMPLE_TYPE_TAG types_map;
    build_step fuel "simple_type_factory" XSD_SIMPLE_TYPE_TAG types_map false;
    load_step XSD_ATTRIBUTE_TAG attributes_map;
    build_step fuel "attribute_factory" XSD_ATTRIBUTE_TAG attributes_map false;
    load_step XSD_ATTRIBUTE_GROUP_TAG attribute_groups_map;
    build_step fuel "attribute_group_factory" XSD_ATTRIBUTE_GROUP_TAG
      attribute_groups_map false;
    load_step XSD_COMPLEX_TYPE_TAG types_map;
    build_step fuel "complex_type_factory" XSD_COMPLEX_TYPE_TAG types_map false;
    load_step XSD_ELEMENT_TAG elements_map;
    build_step fuel "element_factory" XSD_ELEMENT_TAG elements_map false;
    load_step XSD_GROUP_TAG groups_map;
    build_step fuel "group_factory" XSD_GROUP_TAG groups_map false;
    build_step fuel "group_factory" XSD_GROUP_TAG groups_map true;
    build_step fuel "complex_type_factory" XSD_COMPLEX_TYPE_TAG types_map true;
    build_step fuel "element_factory" XSD_ELEMENT_TAG elements_map true;
    update_base_elements;
    mark_built ].

(** [XsdGlobals.build] *)
Definition build (fuel : nat) : Op :=
  foldr and_then (λ self, Some (self, None)) (build_steps fuel).

End Registry.

(** *** Schema lists shared between registries *)

(** The values of [namespaces] are list objects, and [copy] gives the new
    registry the lists of the original. The store keeps the content of
    every such list under its address; an index is the pair of
    dictionaries [namespaces] and [resources] of one registry, the first
    of them holding addresses. *)
Abbreviation ListStore := (list (list Schema)).

Record Index :=
  mkIndex {
      ix_namespaces : list (string * nat);
      ix_resources : gmap string Schema
    }.

(** The [namespaces] dictionary with every list read from the store. *)
Definition read_lists (h : ListStore) (ns : list (string * nat))
  : list (string * list Schema) :=
  (λ kv, (kv.1, default [] (h !! kv.2))) <$> ns.

Definition lookup_address (ns : string) (l : list (string * nat)) : option nat :=
  snd <$> find (λ kv, bool_decide (kv.1 = ns)) l.

(** [XsdGlobals.register] on the store: [ns_schemas.append(schema)]
    changes the list object, [self.namespaces[...] = [schema]] stores a
    new one. *)
Definition register_shared (sc : Schema) (h : ListStore) (ix : Index)
  : ListStore * Index :=
  let by_uri :=
    match uri sc with
    | Some u =>
        if decide (u = "") then Some (ix_resources ix)
        else
          match ix_resources ix !! u with
          | None => Some (<[u := sc]> (ix_resources ix))
          | Some other =>
              if decide (sid other ≠ sid sc) then None
              else Some (ix_resources ix)
          end
    | None => Some (ix_resources ix)
    end in
  match by_uri with
  | None => (h, ix)
  | Some res =>
      match lookup_address (target_namespace sc) (ix_namespaces ix) with
      | None =>
          (h ++ [[sc]],
           mkIndex (ix_namespaces ix ++ [(target_namespace sc, length h)]) res)
      | Some a =>
          let ns_schemas := default [] (h !! a) in
          if bool_decide (Exists (λ o, sid o = sid sc) ns_schemas) then
            (h, mkIndex (ix_namespaces ix) res)
          else if bool_decide (Exists (λ o, uri sc = uri o) ns_schemas) then
            (h, mkIndex (ix_namespaces ix) res)
          else
            (<[a := ns_schemas ++ [sc]]> h, mkIndex (ix_namespaces ix) res)
      end
  end.

(** The indices [copy] gives the new registry: [update] stores the values
    of the old dictionaries in the new ones, the addresses of the lists
    for [namespaces]. *)
Definition copy_index (ix : Index) : Index :=
  mkIndex (ix_namespaces ix) (ix_resources ix).

End Namespaces.

(** ** A concrete environment for the examples *)

Module Sample.
Import Namespaces.

(** The part of a qualified name ["{namespace}local"] between the braces,
    and the part after them. *)
Fixpoint until_brace (s : string) : string :=
  match s with
  | EmptyString => EmptyString
  | String c s' => if Ascii.eqb c (Ascii.ascii_of_nat 125) then EmptyString else String c (until_brace s')
  end.

Fixpoint after_brace (s : string) : string :=
  match s with
  | EmptyString => EmptyString
  | String c s' => if Ascii.eqb c (Ascii.ascii_of_nat 125) then s' else after_brace s'
  end.

Definition braced (s : string) : bool :=
  match s with
  | String c _ => Ascii.eqb c (Ascii.ascii_of_nat 123)
  | EmptyString => false
  end.

(** A minimal instance of the external collaborators: a bare tag path
    selects the direct children carrying that tag, qualified names are
    written ["{namespace}local"], and the [name] attribute is required. *)
Definition externals : Externals :=
  {|
    iterfind := λ e path _, filter (λ c, tag c = path) (children e);
    get_qname := λ ns n, if decide (ns = "") then n else "{" +:+ ns +:+ "}" +:+ n;
    get_xsd_attribute := λ e k,
      match find (λ kv, bool_decide (kv.1 = k)) (attrib e) with
      | Some kv => Return kv.2
      | None => Raise (XMLSchemaParseError "attribute expected" (Some e))
      end;
    get_namespace := λ q,
      if braced q then until_brace (String.substring 1 (String.length q) q) else "";
    local_name := λ q, if braced q then after_brace q else q;
    set_iter := base.elements;
    set_iter_perm := λ X, Permutation_refl (base.elements X);
    iter_elements := λ _, [];
    XSD_REDEFINE_TAG := "{http://www.w3.org/2001/XMLSchema}redefine";
    XSD_SIMPLE_TYPE_TAG := "{http://www.w3.org/2001/XMLSchema}simpleType";
    XSD_COMPLEX_TYPE_TAG := "{http://www.w3.org/2001/XMLSchema}complexType";
    XSD_ATTRIBUTE_TAG := "{http://www.w3.org/2001/XMLSchema}attribute";
    XSD_ATTRIBUTE_GROUP_TAG := "{http://www.w3.org/2001/XMLSchema}attributeGroup";
    XSD_ELEMENT_TAG := "{http://www.w3.org/2001/XMLSchema}element";
    XSD_GROUP_TAG := "{http://www.w3.org/2001/XMLSchema}group"
  |}.

(** A declaration element [<tag name="n"/>]. *)
Definition decl (t n : string) : Element := mkElement t [("name", n)] [].

(** A schema document with the given top-level children. *)
Definition schema_doc (i : nat) (ns : string) (cs : list Element) : Schema :=
  mkSchema i (mkElement "{http://www.w3.org/2001/XMLSchema}schema" [] cs) ns None.

(** A built component for the declaration [el] of schema [sc]. *)
Definition instance_of (q : string) (el : Element) (sc : Schema) (n : nat) : XsdBase :=
  mkXsdBase q (Some el) (Some sc) n.

Definition is_resolved (o : option entry) : bool :=
  match o with
  | Some (Single (Inst _)) => true
  | _ => false
  end.

Definition name_of (el : Element) : string :=
  match get_xsd_attribute (Externals := externals) el "name" with
  | Return n => n
  | Raise _ => ""
  end.

(** A factory for declarations that refer to other components of the
    same map: [refs n] lists the names the declaration named [n] refers
    to. It signals "not yet resolvable" until all of them are built. The
    world counts the instances created so far. *)
Definition ref_factory (refs : string → list string) : Factory nat :=
  λ w g el sc prev _,
    let q := get_qname (Externals := externals) (target_namespace sc) (name_of el) in
    if forallb (λ r, is_resolved (g !! r)) (refs (name_of el)) then
      (S w, Return (q, instance_of q el sc w))
    else (w, Raise (XMLSchemaTypeError "not yet resolvable")).

Definition kwargs_with (f : Factory nat) : Kwargs nat :=
  {| factories := λ _, Some f; parse_local_groups := false |}.

Definition attribute_group_tag : string :=
  "{http://www.w3.org/2001/XMLSchema}attributeGroup".

(** Two attribute groups of one schema, [A] and [B]. *)
Definition group_a : Element := decl attribute_group_tag "A".
Definition group_b : Element := decl attribute_group_tag "B".
Definition two_groups : Schema := schema_doc 0 "" [group_a; group_b].
Definition two_groups_map : gmap string entry :=
  <["A" := Single (Decl group_a two_groups)]>
    (<["B" := Single (Decl group_b two_groups)]> ∅).

(** [A] refers to [B] and [B] to [A]. *)
Definition mutual_refs (n : string) : list string :=
  if decide (n = "A") then ["B"] else if decide (n = "B") then ["A"] else [].

(** [A] refers to [B], which refers to nothing. *)
Definition forward_refs (n : string) : list string :=
  if decide (n = "A") then ["B"] else [].

(** A schema declaring the attribute group [A], and a schema redefining
    it. *)
Definition original_a : Schema := schema_doc 1 "" [group_a].
Definition redefined_a : Element := decl attribute_group_tag "A".
Definition redefining_a : Schema :=
  schema_doc 2 ""
    [mkElement "{http://www.w3.org/2001/XMLSchema}redefine" [] [redefined_a]].

(** A schema redefining the attribute group [B]. *)
Definition redefined_b : Element := decl attribute_group_tag "B".
Definition redefining_b : Schema :=
  schema_doc 7 ""
    [mkElement "{http://www.w3.org/2001/XMLSchema}redefine" [] [redefined_b]].

(** [B] refers to [A], which refers to nothing. *)
Definition backward_refs (n : string) : list string :=
  if decide (n = "B") then ["A"] else [].
(** A validator whose factories all succeed at once, with one built-in
    type. *)
Definition builtin_string : XsdBase :=
  mkXsdBase "{http://www.w3.org/2001/XMLSchema}string" None None 100.

Definition validator : Validator nat :=
  {| BUILTIN_TYPES := {["{http://www.w3.org/2001/XMLSchema}string" := builtin_string]};
     OPTIONS := λ _, Some (ref_factory (λ _, [])) |}.

(** A schema with a simple type [T] and an element [E], and a schema that
    redefines [T]. *)
Definition simple_t : Element :=
  decl "{http://www.w3.org/2001/XMLSchema}simpleType" "T".
Definition element_e : Element :=
  decl "{http://www.w3.org/2001/XMLSchema}element" "E".
Definition types_schema : Schema := schema_doc 3 "" [simple_t; element_e].
Definition redefined_t : Element :=
  decl "{http://www.w3.org/2001/XMLSchema}simpleType" "T".
Definition redefining_t : Schema :=
  mkSchema 4
    (mkElement "{http://www.w3.org/2001/XMLSchema}schema" []
       [mkElement "{http://www.w3.org/2001/XMLSchema}redefine" [] [redefined_t]])
    "" (Some "redefine.xsd").

(** A complex-type factory that signals "not yet resolvable" on its
    first two calls and succeeds from then on (the world counts the calls
    and the instances), and a validator using it. *)
Definition late_factory : Factory nat :=
  λ w g el sc prev _,
    let q := get_qname (Externals := externals) (target_namespace sc) (name_of el) in
    if decide (w < 3) then (S w, Raise (XMLSchemaTypeError "not yet resolvable"))
    else (S w, Return (q, instance_of q el sc w)).

Definition late_validator : Validator nat :=
  {| BUILTIN_TYPES := ∅;
     OPTIONS := λ key, if decide (key = "complex_type_factory")
                       then Some late_factory
                       else Some (ref_factory (λ _, [])) |}.

(** Two schemas declaring the name [T], one as a simple type and one as a
    complex type. *)
Definition complex_t : Element :=
  decl "{http://www.w3.org/2001/XMLSchema}complexType" "T".
Definition simple_schema : Schema :=
  mkSchema 5 (mkElement "{http://www.w3.org/2001/XMLSchema}schema" [] [simple_t])
    "" (Some "simple.xsd").
Definition complex_schema : Schema :=
  mkSchema 6 (mkElement "{http://www.w3.org/2001/XMLSchema}schema" [] [complex_t])
    "" (Some "complex.xsd").

(** A factory scripted by the name of the declaration: it raises the
    exception [behave] gives for the name, if any, and otherwise answers
    under the name [rename] gives for the qualified name. *)
Definition scripted_factory (behave : string → option Exn)
    (rename : string → string) : Factory nat :=
  λ w g el sc prev _,
    match behave (name_of el) with
    | Some e => (w, Raise e)
    | None =>
        let q := rename (get_qname (Externals := externals)
                           (target_namespace sc) (name_of el)) in
        (S w, Return (q, instance_of q el sc w))
    end.

(** A data element with two children. *)
Definition two_children : DataObjects.DataElement :=
  DataObjects.mkDataElement "p" None [] [] None None
    [DataObjects.leaf "a"; DataObjects.leaf "b"].

End Sample.

(** ** The vocabulary of the properties *)

Section Vocabulary.
Import Namespaces.
Context `{Externals} {W : Type}.

(** *** Entries, chains and invocations *)

(** The items stored under a key, a missing key holding none. *)
Definition items_of (o : option entry) : list item :=
  match o with
  | None => []
  | Some (Single i) => [i]
  | Some (Chain l) => l
  end.

(** The raw declarations of a chain, as map items. *)
Definition as_items (links : list (Namespaces.Element * Namespaces.Schema))
  : list Namespaces.item :=
  (λ l, Namespaces.Decl l.1 l.2) <$> links.

(** The invocations a chain of [links] gives rise to when every call
    succeeds with the instances [xs]: one per link, in order, each given
    the instance returned by the call before it. *)
Fixpoint expected_calls (q : string) (prev : option Namespaces.XsdBase)
    (links : list (Namespaces.Element * Namespaces.Schema))
    (xs : list Namespaces.XsdBase) : list Namespaces.fcall :=
  match links, xs with
  | (el, sc) :: links', x :: xs' =>
      {| Namespaces.fc_key := q; Namespaces.fc_elem := el;
         Namespaces.fc_schema := sc; Namespaces.fc_prev := prev;
         Namespaces.fc_result := Namespaces.Return (q, x) |}
        :: expected_calls q (Some x) links' xs'
  | _, _ => []
  end.

(** The invocation returned: the factory raised nothing. *)
Definition returned (c : fcall) : Prop :=
  match fc_result c with
  | Return _ => True
  | Raise _ => False
  end.

(** The invocations a chain of [links] gives rise to when every call
    returns, [rs] being the names and instances returned: one per link,
    in order, each given the instance returned by the call before it. *)
Fixpoint chain_calls (q : string) (prev : option XsdBase)
    (links : list (Element * Schema)) (rs : list (string * XsdBase))
  : list fcall :=
  match links, rs with
  | (el, sc) :: links', r :: rs' =>
      {| fc_key := q; fc_elem := el; fc_schema := sc; fc_prev := prev;
         fc_result := Return r |}
        :: chain_calls q (Some r.2) links' rs'
  | _, _ => []
  end.

(** The invocations logged for one key. *)
Definition calls_for (q : string) (log : list Namespaces.fcall)
  : list Namespaces.fcall :=
  filter (λ c, Namespaces.fc_key c = q) log.

(** The instance a chain ends with: the last one built, or else the one it
    started from. *)
Definition last_instance (xi : option XsdBase) (xs : list XsdBase)
  : option XsdBase :=
  match last xs with
  | Some x => Some x
  | None => xi
  end.

(** A map entry is resolved when it is a built instance. *)
Definition is_instance (en : Namespaces.entry) : Prop :=
  match en with
  | Namespaces.Single (Namespaces.Inst _) => True
  | _ => False
  end.

(** A map is resolved when all its entries are. *)
Definition resolved (g : gmap string Namespaces.entry) : Prop :=
  map_Forall (λ _ en, is_instance en) g.

(** What the loader of the kind tagged [T] leaves in a map that was
    resolved: instances, raw declarations tagged [T], and lists of at
    least two items whose first item is one of these and whose other items
    are raw declarations tagged [T]. *)
Definition link_ok (T : string) (i : Namespaces.item) : Prop :=
  match i with
  | Namespaces.Decl el _ => Namespaces.tag el = T
  | _ => False
  end.

Definition head_ok (T : string) (i : Namespaces.item) : Prop :=
  match i with
  | Namespaces.Inst _ => True
  | Namespaces.Decl el _ => Namespaces.tag el = T
  | Namespaces.Other _ => False
  end.

Definition ready (T : string) (en : Namespaces.entry) : Prop :=
  match en with
  | Namespaces.Single i => head_ok T i
  | Namespaces.Chain [] => False
  | Namespaces.Chain (h :: tl) => head_ok T h ∧ tl ≠ [] ∧ Forall (link_ok T) tl
  end.

Definition all_ready (T : string) (g : gmap string Namespaces.entry) : Prop :=
  map_Forall (λ _ en, ready T en) g.

(** The staged redefinitions of [q]. *)
Definition staged_for (q : string) (rs : list (string * (Element * Schema)))
  : list (Element * Schema) :=
  snd <$> filter (λ r, r.1 = q) rs.

(** *** What the scanner yields *)



(** The path the scanner queries: [path or tag]. *)
Definition query_path (tag0 : string) (path : option string) : string :=
  match path with
  | Some p => if decide (p = "") then tag0 else p
  | None => tag0
  end.

(** *** What the loader reads from the schemas *)

(** The declaration [el] of schema [sc] is named [q]. *)
Definition declares (q : string) (sc : Schema) (el : Element) : bool :=
  match get_xsd_attribute el "name" with
  | Return n => bool_decide (get_qname (target_namespace sc) n = q)
  | Raise _ => false
  end.

(** The top-level declarations named [q] of the schemas not built yet, in
    the order of the schemas and, within a schema, of the document. *)
Definition originals_for (tag0 : string) (built : Schema → bool) (q : string)
    (schemas : list Schema)
  : list (Element * Schema) :=
  flat_map (λ sc,
      if built sc then []
      else (λ el, (el, sc))
             <$> filter (λ el, declares q sc el = true)
                   (filter_function tag0 (root sc)))
    schemas.

(** The declarations named [q] inside the redefine blocks of the schemas
    not built yet, in the same order. *)
Definition redefinitions_for (tag0 : string) (built : Schema → bool)
    (q : string) (schemas : list Schema)
  : list (Element * Schema) :=
  flat_map (λ sc,
      if built sc then []
      else (λ el, (el, sc))
             <$> filter (λ el, declares q sc el = true)
                   (flat_map (filter_function tag0)
                      (iterfind_xsd_redefine (root sc))))
    schemas.

(** The loader state while the schemas are scanned. *)
Definition scan_ready (tag0 : string) (st : lstate) : Prop :=
  all_ready tag0 (l_globals st)
  ∧ Forall (λ r, tag r.2.1 = tag0) (redefinitions st).

(** *** States and outcomes of the builder, states of the registry *)

(** The state an outcome carries. *)
Definition final_state (o : outcome W) : bstate W :=
  match o with
  | Done st | Exhausted _ st | Failed _ st => st
  end.

(** The state the end of a [try] body carries. *)
Definition flow_state (fl : flow W) : bstate W :=
  match fl with
  | FContinue st | FElse _ st | FExcept _ st => st
  end.

(** The variables of the pass that one iteration's [try] body leaves
    alone. *)
Definition same_pass (st st' : bstate W) : Prop :=
  global_names st' = global_names st
  ∧ errors_counter st' = errors_counter st
  ∧ missing st' = missing st
  ∧ errors st' = errors st
  ∧ pending st' = pending st.

(** How an error raised by the no-progress check is chosen: the first
    undefined-reference failure recorded in the pass, or else a parse
    error on the element examined last. *)
Definition exhaustion_error (e : Exn) (st : bstate W) : Prop :=
  (∃ rest, errors st = e :: rest)
  ∨ (errors st = [] ∧ ∃ msg el, l_elem st = Bound (Some el)
                                 ∧ e = XMLSchemaParseError msg (Some el)).

(** What one iteration does to the variables of the pass. *)
Definition key_effect (q : string) (st : bstate W) (o : outcome W) : Prop :=
  let st' := final_state o in
  global_names st' = global_names st
  ∧ errors_counter st' = errors_counter st
  ∧ pending st' = pending st
  ∧ match o with
    | Done _ =>
        (missing st' = missing st ∧ errors st' = errors st)
        ∨ (missing st' = missing st ++ [q]
           ∧ length (missing st') ≠ errors_counter st
           ∧ ∃ errs, errors st' = errors st ++ errs ∧ Forall (λ e, is_lookup e = true) errs)
    | Exhausted e _ =>
        missing st' = missing st ++ [q]
        ∧ length (missing st') = errors_counter st
        ∧ (∃ errs, errors st' = errors st ++ errs ∧ Forall (λ e, is_lookup e = true) errs)
        ∧ exhaustion_error e st'
    | Failed _ _ => True
    end.

(** What one pass does to the variables of the function. A pass that ends
    normally has deferred a subsequence of its keys; a pass stopped by the
    no-progress check has deferred the key [q] it was processing, after a
    subsequence of the keys before [q]. *)
Definition pass_effect (names : list string) (st : bstate W) (o : outcome W)
  : Prop :=
  let st' := final_state o in
  global_names st' = global_names st
  ∧ errors_counter st' = errors_counter st
  ∧ match o with
    | Done _ =>
        pending st' = []
        ∧ ∃ d errs, missing st' = missing st ++ d
            ∧ d `sublist_of` names
            ∧ (d = [] ∨ length (missing st') ≠ errors_counter st)
            ∧ errors st' = errors st ++ errs
            ∧ Forall (λ e, is_lookup e = true) errs
    | Exhausted e _ =>
        ∃ pre q d errs, names = pre ++ q :: pending st'
            ∧ missing st' = missing st ++ d ++ [q]
            ∧ d `sublist_of` pre
            ∧ length (missing st') = errors_counter st
            ∧ errors st' = errors st ++ errs
            ∧ Forall (λ e, is_lookup e = true) errs
            ∧ exhaustion_error e st'
    | Failed _ _ => True
    end.

(** The loop variables at the start of a pass: the first pass runs with
    [errors_counter = 0], every later pass with [errors_counter] the
    number of its keys. *)
Definition pass_start (st : bstate W) : Prop :=
  errors_counter st = 0 ∨ errors_counter st = length (global_names st).

(** What the loop guarantees about the way a call ends. *)
Definition loop_exit (o : outcome W) : Prop :=
  match o with
  | Done st => missing st = [] ∧ pending st = []
  | Exhausted e st =>
      pending st = []
      ∧ missing st = global_names st
      ∧ missing st ≠ []
      ∧ length (missing st) = errors_counter st
      ∧ Forall (λ e, is_lookup e = true) (errors st)
      ∧ exhaustion_error e st
  | Failed _ _ => True
  end.

(** Processing the key [q] leaves the other entries alone, keeps the keys
    of the map, and logs only invocations made for [q]. *)
Definition key_frame (q : string) (st st' : bstate W) : Prop :=
  (∀ q', q' ≠ q → xsd_globals st' !! q' = xsd_globals st !! q')
  ∧ (is_Some (xsd_globals st !! q) → dom (xsd_globals st') = dom (xsd_globals st))
  ∧ ∃ cs, calls st' = calls st ++ cs ∧ Forall (λ c, fc_key c = q) cs.

(** The entry of [q] and the invocations logged for [q] are the same in
    both states. *)
Definition untouched (q : string) (st st' : bstate W) : Prop :=
  xsd_globals st' !! q = xsd_globals st !! q
  ∧ calls_for q (calls st') = calls_for q (calls st).

(** The first pass of a call of [build_xsd_map]: the [for] loop over all
    the keys of the map, as the call enters it. *)
Definition first_pass (factory_key : string) (built : Schema → bool)
    (g : gmap string entry) (tag0 : string) (kwargs : Kwargs W)
    (w : W) (log : list fcall) : outcome W :=
  let names := set_iter (dom g) in
  pass_loop factory_key tag0 kwargs built names
    (set_deferred [] [] (enter names g w log)).

(** The invocations logged after those of [log]. *)
Definition calls_since (log : list fcall) (st : bstate W) : list fcall :=
  drop (length log) (calls st).

(** The factory [f] succeeds on every link, whatever the state, and names
    its result [q]. *)
Definition succeeds_on (kwargs : Kwargs W) (f : Factory W) (q : string)
    (links : list (Element * Schema)) : Prop :=
  ∀ el sc, (el, sc) ∈ links →
    ∀ w g prev, ∃ w' x,
      f w g el sc prev (parse_local_groups kwargs) = (w', Return (q, x)).

(** The key [q] is mapped to a built instance. *)
Definition instance_at (st : bstate W) (q : string) : Prop :=
  ∃ x, xsd_globals st !! q = Some (Single (Inst x)).

(** The local variables after at least one successful factory call on a
    declaration tagged [tag0]. *)
Definition just_built (tag0 : string) (xi : option XsdBase) (st : bstate W)
  : Prop :=
  is_Some xi ∧ ∃ el, l_elem st = Bound (Some el) ∧ tag el = tag0.

(** Every entry of the six component maps is a built instance. *)
Definition registry_resolved (self : XsdGlobals W) : Prop :=
  ∀ m, resolved (get_map m self).

(** Between the load and the build of the kind tagged [T] in the map [m]:
    the entries of [m] are ready, the other maps are resolved. *)
Definition registry_ready (T : string) (m : MapName) (self : XsdGlobals W)
  : Prop :=
  all_ready T (get_map m self) ∧ ∀ m', m' ≠ m → resolved (get_map m' self).

(** The registries reached by using a registry as documented: created,
    cleared (whatever happened before), or obtained from such a registry
    by registering a schema, reading a view, or an error-free build. *)
Inductive well_used : XsdGlobals W → Prop :=
| used_init v flags w : well_used (init v flags w)
| used_clear remove_schemas self : well_used (clear remove_schemas self)
| used_register sc self : well_used self → well_used (register sc self)
| used_get_globals m ns fqn self :
    well_used self → well_used (get_globals m ns fqn self).2
| used_build fuel self self' :
    well_used self → build fuel self = Some (self', None) → well_used self'.

(** The registries reached from a registry by calls of its methods other
    than [clear]: schemas are registered, views are read, whatever their
    arguments, and the registry is built, whether the build returns or
    raises. *)
Inductive without_clear (self : XsdGlobals W) : XsdGlobals W → Prop :=
| kept_same : without_clear self self
| kept_register sc later :
    without_clear self later → without_clear self (register sc later)
| kept_get_globals m ns fqn later :
    without_clear self later →
    without_clear self (get_globals m ns fqn later).2
| kept_build fuel later later' raised :
    without_clear self later → build fuel later = Some (later', raised) →
    without_clear self later'.

(** The identities of the cached views were all given out already. *)
Definition fresh_views (self : XsdGlobals W) : Prop :=
  map_Forall (λ _ v, view_id v < next_view_id self) (_view_cache self).

(** [view] holds the items of [g] whose key lies in [namespace], under
    their keys. *)
Definition qualified_items (namespace : string) (g view : gmap string entry)
  : Prop :=
  ∀ k en, view !! k = Some en ↔ g !! k = Some en ∧ namespace = get_namespace k.

(** [view] holds the items of [g] whose key lies in [namespace], under
    the local names of their keys: every item of the view is such an
    item, under the local name of its key; the local name of every such
    key is in the view; and it holds the item of that key when no other
    key of the namespace has the same local name. *)
Definition local_items (namespace : string) (g view : gmap string entry)
  : Prop :=
  (∀ n en, view !! n = Some en →
           ∃ k, g !! k = Some en ∧ namespace = get_namespace k
                ∧ local_name k = n)
  ∧ (∀ k en, g !! k = Some en → namespace = get_namespace k →
             is_Some (view !! local_name k)
             ∧ ((∀ k', is_Some (g !! k') → namespace = get_namespace k' →
                       local_name k' = local_name k → k' = k) →
                view !! local_name k = Some en)).

(** *** What the loader and the builder leave alone *)

(** The map [g'] holds what [g] holds and, after it, raw declarations
    tagged [tag0]. *)
Definition extends (tag0 : string) (g g' : gmap string entry) : Prop :=
  dom g ⊆ dom g'
  ∧ ∀ q, ∃ new, items_of (g' !! q) = items_of (g !! q) ++ new
                ∧ Forall (link_ok tag0) new.

(** The state of the scan holds an extension of [g], and the staged
    redefinitions are tagged [tag0]. *)
Definition scan_extends (tag0 : string) (g : gmap string entry) (st : lstate)
  : Prop :=
  extends tag0 g (l_globals st)
  ∧ Forall (λ r, tag r.2.1 = tag0) (redefinitions st).

(** An entry a pass for the tag [tag0] has nothing to do for: an instance
    without element, or of another tag, or of a built schema; a raw
    declaration of another tag; a list whose first raw declaration is of
    another tag. *)
Definition idle (tag0 : string) (built : Schema → bool) (en : entry) : Prop :=
  match en with
  | Single (Inst x) =>
      match elem x with
      | None => True
      | Some el => tag el ≠ tag0 ∨ ∃ sc, schema x = Some sc ∧ built sc = true
      end
  | Single (Decl el _) => tag el ≠ tag0
  | Chain (Inst _ :: Decl el _ :: _) => tag el ≠ tag0
  | Chain (Decl el _ :: _) => tag el ≠ tag0
  | _ => False
  end.

(** From [st] to [st'] the map has kept its keys, and the invocations
    logged were made on elements tagged [tag0], for keys of the map. *)
Definition invoked_on (tag0 : string) (st st' : bstate W) : Prop :=
  dom (xsd_globals st') = dom (xsd_globals st)
  ∧ ∃ cs, calls st' = calls st ++ cs
          ∧ Forall (λ c, tag (fc_elem c) = tag0
                         ∧ fc_key c ∈ dom (xsd_globals st)) cs.

(** The factory [f] answers every call on the declaration [(el, sc)]
    under a name other than [q]. *)
Definition misnames (kwargs : Kwargs W) (f : Factory W) (q : string)
    (el : Element) (sc : Schema) : Prop :=
  ∀ w g prev, ∃ w' q' x,
    f w g el sc prev (parse_local_groups kwargs) = (w', Return (q', x))
    ∧ q' ≠ q.

(** The factory [f] raises [err] on every call on the declaration
    [(el, sc)]. *)
Definition raises_on (kwargs : Kwargs W) (f : Factory W) (err : Exn)
    (el : Element) (sc : Schema) : Prop :=
  ∀ w g prev, ∃ w',
    f w g el sc prev (parse_local_groups kwargs) = (w', Raise err).

(** Whatever state the key [q] is processed in while it holds [en], the
    iteration makes no progress on it: the entry stays, and the key is
    deferred unless the iteration raises. *)
Definition stuck (factory_key tag0 : string) (kwargs : Kwargs W)
    (built : Schema → bool) (q : string) (en : entry) : Prop :=
  ∀ st : bstate W, xsd_globals st !! q = Some en →
    xsd_globals (final_state (process_key factory_key tag0 kwargs built q st)) !! q
    = Some en
    ∧ ∀ st', process_key factory_key tag0 kwargs built q st = Done st' →
             q ∈ missing st'.

(** *** The indices and the flags of the registry *)

(** How [register] keeps [namespaces]: every namespace once, with a list
    that is not empty and holds schemas of that namespace, no two of them
    with the same resource URI. *)
Definition indexed (ns : list (string * list Schema)) : Prop :=
  NoDup ns.*1
  ∧ Forall (λ kv, kv.2 ≠ []
                  ∧ Forall (λ sc, target_namespace sc = kv.1) kv.2
                  ∧ NoDup (uri <$> kv.2)) ns.

(** An entry no builder has anything to do for, whatever its tag: an
    instance without element or of a built schema. *)
Definition settled (built : Schema → bool) (en : entry) : bool :=
  match en with
  | Single (Inst x) =>
      match elem x, schema x with
      | None, _ => true
      | Some _, Some sc => built sc
      | Some _, None => false
      end
  | _ => false
  end.

(** The addresses an index holds are addresses of the store, each under
    one namespace only. *)
Definition addressed (h : ListStore) (ix : Index) : Prop :=
  NoDup (ix_namespaces ix).*2
  ∧ Forall (λ kv, kv.2 < length h) (ix_namespaces ix).

(** The indices of a registry, as [register] sees them. *)
Definition with_index (h : ListStore) (ix : Index) (self : XsdGlobals W)
  : XsdGlobals W :=
  set_indices (read_lists h (ix_namespaces ix)) (ix_resources ix) self.

(** What no step of [build] changes: the validator, the indices, the
    view cache and the identity of the next view. *)
Definition same_indices (self self' : XsdGlobals W) : Prop :=
  validator self' = validator self
  ∧ namespaces self' = namespaces self
  ∧ resources self' = resources self
  ∧ _view_cache self' = _view_cache self
  ∧ next_view_id self' = next_view_id self.

(** From [self] to [self'], of the six maps only those named by [P] may
    have changed. *)
Definition touches (P : MapName → Prop) (self self' : XsdGlobals W) : Prop :=
  same_indices self self'
  ∧ ∀ m, ¬ P m → get_map m self' = get_map m self.

(** The steps of [build] that load and build the global declarations,
    before the base elements are updated. *)
Definition global_steps (fuel : nat) : list (Op (W := W)) :=
  take 15 (build_steps fuel).

(** *** The builder with the no-progress check after the pass *)

(** The resolution loop as the design describes it: a pass only defers,
    and the no-progress check is made once the pass is over. It is
    compared with [build_loop] below. *)
Section AfterPass.
Variable factory_key : string.
Variable tag0 : string.
Variable kwargs : Kwargs W.
Variable built : Schema → bool.

(** The exception handler without its check: it defers the key, and
    records the failure if it is an undefined reference. *)
Definition defer (qname : string) (err : Exn) (st : bstate W) : outcome W :=
  match l_elem st with
  | Unbound => Failed (PyError "UnboundLocalError") st
  | Bound None => Failed (PyError "AttributeError") st
  | Bound (Some el) =>
      Done (set_deferred (missing st ++ [qname])
              (if is_lookup err then errors st ++ [err] else errors st) st)
  end.

(** One iteration, and the failure it deferred on, if any. *)
Definition process_key_deferring (qname : string) (st : bstate W)
  : outcome W * option Exn :=
  match xsd_globals st !! qname with
  | None => (Failed (PyError "KeyError") st, None)
  | Some obj =>
      match try_body factory_key tag0 kwargs built qname obj st with
      | FContinue st1 => (Done st1, None)
      | FElse xsd_instance st1 => (else_clause tag0 qname xsd_instance st1, None)
      | FExcept err st1 =>
          if is_deferral err then (defer qname err st1, Some err)
          else (Failed err st1, None)
      end
  end.

(** One pass, and the last failure it deferred on. *)
Fixpoint pass_loop_deferring (names : list string) (last : option Exn)
    (st : bstate W) : outcome W * option Exn :=
  match names with
  | [] => (Done (set_pending [] st), last)
  | qname :: rest =>
      match process_key_deferring qname (set_pending rest st) with
      | (Done st1, Some err) => pass_loop_deferring rest (Some err) st1
      | (Done st1, None) => pass_loop_deferring rest last st1
      | raised => raised
      end
  end.

(** The error of a pass without progress: the first undefined-reference
    failure recorded, or else a parse error carrying the message of the
    last failure and naming the element examined last. *)
Definition no_progress_error (last : option Exn) (st : bstate W) : Exn :=
  match errors st with
  | e0 :: _ => e0
  | [] =>
      match last, l_elem st with
      | Some err, Bound (Some el) => XMLSchemaParseError (str err) (Some el)
      | _, _ => PyError "UnboundLocalError"
      end
  end.

Fixpoint build_loop_after_pass (fuel : nat) (st : bstate W)
  : option (outcome W) :=
  match fuel with
  | 0 => None
  | S fuel' =>
      match pass_loop_deferring (global_names st) None (set_deferred [] [] st) with
      | (Done st1, last) =>
          match missing st1 with
          | [] => Some (Done st1)
          | _ :: _ =>
              if decide (length (missing st1) = errors_counter st1) then
                Some (Exhausted (no_progress_error last st1) st1)
              else build_loop_after_pass fuel' (next_pass st1)
          end
      | (raised, _) => Some raised
      end
  end.

End AfterPass.

(** [build_xsd_map] with the check made after the pass. *)
Definition build_xsd_map_after_pass (factory_key : string)
    (built : Schema → bool) (fuel : nat)
    (g : gmap string entry) (tag0 : string) (kwargs : Kwargs W)
    (w : W) (log : list fcall) : option (outcome W) :=
  build_loop_after_pass factory_key tag0 kwargs built fuel
    (enter (set_iter (dom g)) g w log).

End Vocabulary.

(** ** Properties of decoded data elements *)

Section DataElementFacts.
Import DataObjects.

(** Induction over a data element tree, with the hypothesis available for
    every child. *)
Lemma DataElement_tree_ind (P : DataElement → Prop) :
  (∀ t v a n xe xt ch, Forall P ch → P (mkDataElement t v a n xe xt ch)) →
  ∀ e, P e.
Proof.
  intros step. fix IH 1. intros [t v a n xe xt ch]. apply step.
  induction ch as [|c ch IHch]; constructor; [apply IH | exact IHch].
Qed.

Lemma flat_map_filter_ext {A B} (f g : A → list B) (l : list A) :
  Forall (λ x, f x = g x) l → flat_map f l = flat_map g l.
Proof. induction 1 as [|x l Hx _ IHl]; simpl; [done | by rewrite Hx, IHl]. Qed.

Lemma filter_flat_map {A B} (P : B → Prop) `{∀ x, Decision (P x)}
    (f : A → list B) (l : list A) :
  filter P (flat_map f l) = flat_map (λ x, filter P (f x)) l.
Proof. induction l as [|x l IHl]; simpl; [done | by rewrite filter_app, IHl]. Qed.

Lemma filter_all {A} (P : A → Prop) `{∀ x, Decision (P x)} (l : list A) :
  Forall P l → filter P l = l.
Proof.
  induction 1 as [|x l Hx _ IHl]; [done|].
  by rewrite filter_cons_True, IHl.
Qed.

Lemma iter_absent_is_wildcard e : iter None e = iter (Some "*") e.
Proof. by destruct e. Qed.

Lemma selects_spec t e : selects (Some t) e = true ↔ t = "*" ∨ t = tag e.
Proof. unfold selects. rewrite orb_true_iff, !bool_decide_eq_true. tauto. Qed.

Lemma iter_filter_preorder t e :
  iter (Some t) e = filter (λ d, selects (Some t) d = true) (preorder e).
Proof.
  induction e as [st v a n xe xt ch IH] using DataElement_tree_ind.
  cbn [iter preorder]. rewrite filter_cons, filter_flat_map.
  rewrite (flat_map_filter_ext _ _ _ IH).
  destruct (decide (t = "*" ∨ t = st)) as [Hd|Hd].
  - rewrite decide_True; [done|]. by apply selects_spec.
  - rewrite decide_False; [done|]. by rewrite selects_spec.
Qed.

(** C9 (as stated, refuted): the empty string is not a wildcard. On a
    single element tagged ["a"], [iter("")] yields nothing, although the
    depth-first traversal visits that element. *)
Lemma iter_empty_string_counterexample :
  iter (Some "") (leaf "a") = [] ∧ preorder (leaf "a") = [leaf "a"].
Proof. split; reflexivity. Qed.

(** C9 (amended): for every data element tree, [iter(tag)] yields, in
    depth-first order (the element itself, then its descendants, child by
    child), exactly the elements selected by the tag: an absent tag and the
    wildcard ['*'] select every element; any other string, the empty string
    included, selects only the elements whose tag equals it. *)
Theorem iter_depth_first_filtered (tag0 : option string) (e : DataElement) :
  iter tag0 e = filter (λ d, selects tag0 d = true) (preorder e)
  ∧ iter None e = preorder e
  ∧ iter (Some "*") e = preorder e
  ∧ iter (Some "") e = filter (λ d, tag d = "") (preorder e).
Proof.
  assert (Hall : iter (Some "*") e = preorder e).
  { rewrite iter_filter_preorder. apply filter_all, Forall_forall.
    intros d _. by apply selects_spec; left. }
  split_and!.
  - destruct tag0 as [t|]; [apply iter_filter_preorder|].
    rewrite iter_absent_is_wildcard, Hall. symmetry.
    by apply filter_all, Forall_forall.
  - by rewrite iter_absent_is_wildcard.
  - exact Hall.
  - rewrite iter_filter_preorder. apply list_filter_iff.
    intros d. rewrite selects_spec. split; [|by right].
    by intros [?|?].
Qed.

(** C10: the [xsd_type] property returns the explicit override when one is
    set, otherwise the type of the bound schema element when there is one,
    otherwise nothing; assigning [xsd_type] replaces the override and leaves
    the element binding and every other attribute as they were. *)
Theorem xsd_type_override_precedence (de : DataElement) :
  (∀ ty, _xsd_type de = Some ty → xsd_type de = Some ty)
  ∧ (∀ xe, _xsd_type de = None → xsd_element de = Some xe →
           xsd_type de = type xe)
  ∧ (_xsd_type de = None → xsd_element de = None → xsd_type de = None)
  ∧ (∀ v, _xsd_type (set_xsd_type v de) = v
          ∧ xsd_element (set_xsd_type v de) = xsd_element de
          ∧ tag (set_xsd_type v de) = tag de
          ∧ value (set_xsd_type v de) = value de
          ∧ attrib (set_xsd_type v de) = attrib de
          ∧ nsmap (set_xsd_type v de) = nsmap de
          ∧ _children (set_xsd_type v de) = _children de)
  ∧ (∀ ty, xsd_type (set_xsd_type (Some ty) de) = Some ty).
Proof.
  unfold xsd_type. split_and!.
  - by intros ty ->.
  - by intros xe -> ->.
  - by intros -> ->.
  - done.
  - done.
Qed.

(** An element bound to a schema element of type 1 and overridden with
    type 2 reports type 2. *)
Lemma xsd_type_override_precedence_witness :
  xsd_type (mkDataElement "a" None [] [] (Some {| xe_name := "a"; type := Some {| xsd_type_id := 1 |} |})
              (Some {| xsd_type_id := 2 |}) [])
  = Some {| xsd_type_id := 2 |}.
Proof.
  apply (proj1 (xsd_type_override_precedence _)). reflexivity.
Defined.

End DataElementFacts.

(** ** Properties of the tag scanner *)

Section ScannerFacts.
Import Namespaces.
Context `{Externals}.

(** On a single document the scanner yields, in order, the results of the
    query whose tag is the target. *)
Lemma scan_single_filters (tag0 : string) doc path namespaces :
  create_iterfind_by_tag tag0 (inl doc) path namespaces
  = filter (λ el, tag el = tag0)
      (iterfind doc (query_path tag0 path) (default [] namespaces)).
Proof.
  unfold create_iterfind_by_tag. fold (query_path tag0 path).
  induction (iterfind doc _ _) as [|el l IHl]; [reflexivity|].
  cbn [flat_map]. rewrite filter_cons, IHl. by destruct (decide _).
Qed.

Lemma scan_single_tag (tag0 : string) doc path namespaces el :
  el ∈ create_iterfind_by_tag tag0 (inl doc) path namespaces → tag el = tag0.
Proof.
  rewrite scan_single_filters. by intros [? _]%list_elem_of_filter.
Qed.

(** On a list of documents every yielded item is one of the documents. *)
Lemma scan_list_yields_documents (tag0 : string) docs path namespaces d :
  d ∈ create_iterfind_by_tag tag0 (inr docs) path namespaces → d ∈ docs.
Proof.
  unfold create_iterfind_by_tag.
  intros Hin. apply list_elem_of_In, in_flat_map in Hin as (doc & Hdoc & Hin).
  apply in_flat_map in Hin as (el & _ & Hin).
  destruct (decide _); [|by destruct Hin].
  destruct Hin as [<-|[]]. by apply list_elem_of_In.
Qed.



End ScannerFacts.

(** What the list branch yields: given the list holding one schema
    document with two [element] children, the scanner for [element]
    yields the document itself, once per matching child, where the
    single-document branch yields the children. *)
Example scan_list_yields_container :
  let target := "{http://www.w3.org/2001/XMLSchema}element" in
  let a := Sample.decl target "a" in
  let b := Sample.decl target "b" in
  let doc := Namespaces.root (Sample.schema_doc 0 "urn:a" [a; b]) in
  Namespaces.create_iterfind_by_tag (H := Sample.externals) target (inr [doc]) None None
    = [doc; doc]
  ∧ Namespaces.tag doc ≠ target
  ∧ Namespaces.create_iterfind_by_tag (H := Sample.externals) target (inl doc) None None
    = [a; b].
Proof. vm_compute. split_and!; [done | discriminate | done]. Qed.


(** ** Properties of the declaration loader *)

Section LoaderFacts.
Import Namespaces.
Context `{Externals}.

Lemma add_declaration_items q d (g : gmap string entry) :
  items_of (add_declaration q d g !! q) = items_of (g !! q) ++ [d].
Proof.
  unfold add_declaration.
  destruct (g !! q) as [[i|l]|] eqn:Hq; by rewrite lookup_insert_eq.
Qed.

Lemma add_declaration_other q q' d (g : gmap string entry) :
  q ≠ q' → add_declaration q d g !! q' = g !! q'.
Proof.
  intros Hne. unfold add_declaration.
  destruct (g !! q) as [[i|l]|]; by rewrite lookup_insert_ne.
Qed.

Lemma add_declaration_dom q d (g : gmap string entry) :
  is_Some (g !! q) → dom (add_declaration q d g) = dom g.
Proof.
  intros [en Hq]. unfold add_declaration. rewrite Hq.
  assert (Hin : q ∈ dom g) by (apply elem_of_dom; eauto).
  destruct en; rewrite dom_insert_L;
    by apply subseteq_union_1_L, singleton_subseteq_l.
Qed.

(** Appending the staged redefinitions never creates a key. *)
Lemma apply_redefinitions_dom rs (g g' : gmap string entry) raised :
  for_each apply_redefinition rs g = (g', raised) → dom g' = dom g.
Proof.
  revert g. induction rs as [|[q [el sc]] rs IH]; intros g Hrun.
  - by injection Hrun as <- _.
  - cbn [for_each] in Hrun. unfold apply_redefinition at 1 in Hrun.
    destruct (g !! q) as [en|] eqn:Hq.
    + apply IH in Hrun. rewrite Hrun. apply add_declaration_dom. eauto.
    + by injection Hrun as <- _.
Qed.

(** With an orphan among the staged redefinitions, the loop over them
    raises at the first orphan it meets. *)
Lemma apply_redefinitions_orphan rs (g : gmap string entry) :
  (∃ q obj, (q, obj) ∈ rs ∧ g !! q = None) →
  ∃ q el sc g',
    for_each apply_redefinition rs g
    = (g', Some (XMLSchemaParseError "not a redefinition!" (Some el)))
    ∧ (q, (el, sc)) ∈ rs ∧ g !! q = None.
Proof.
  revert g. induction rs as [|[q [el sc]] rs IH]; intros g (q0 & obj & Hin & Hnone).
  - by apply elem_of_nil in Hin.
  - cbn [for_each]. unfold apply_redefinition at 1.
    destruct (g !! q) as [en|] eqn:Hq.
    + apply elem_of_cons in Hin as [Heq|Hin]; [congruence|].
      destruct (IH (add_declaration q (Decl el sc) g)) as (q1 & el1 & sc1 & g' & Hrun & Hin1 & Hnone1).
      { exists q0, obj. split; [done|].
        rewrite add_declaration_other; [done|]. congruence. }
      exists q1, el1, sc1, g'. split_and!; [done| by right |].
      destruct (decide (q = q1)) as [<-|Hne].
      * rewrite <- not_elem_of_dom in Hnone1.
        rewrite add_declaration_dom in Hnone1 by eauto.
        by apply not_elem_of_dom.
      * by rewrite add_declaration_other in Hnone1.
    + exists q, el, sc, g. split_and!; [done | by left | done].
Qed.

(** C5: when the scan of the schemas has staged a redefinition whose
    qualified name has no entry in the map once every schema is scanned,
    [load_xsd_globals] raises the parse error "not a redefinition!" on
    such a redefinition; the error is not one of those the builder treats
    as a deferral, and the map it leaves has the keys it had after the
    scan, so the orphan was never appended. *)
Theorem load_orphan_redefinition_raises (tag0 : string) (built : Schema → bool)
    (g : gmap string entry) (schemas : list Schema) (st : lstate) :
  for_each (scan_schema tag0 built) schemas
    {| l_globals := g; redefinitions := [] |} = (st, None) →
  (∃ q obj, (q, obj) ∈ redefinitions st ∧ l_globals st !! q = None) →
  ∃ q el sc g',
    load_xsd_globals tag0 built g schemas
    = (g', Some (XMLSchemaParseError "not a redefinition!" (Some el)))
    ∧ (q, (el, sc)) ∈ redefinitions st
    ∧ l_globals st !! q = None
    ∧ is_deferral (XMLSchemaParseError "not a redefinition!" (Some el)) = false
    ∧ dom g' = dom (l_globals st)
    ∧ g' !! q = None.
Proof.
  intros Hscan Horphan. unfold load_xsd_globals. rewrite Hscan.
  destruct (apply_redefinitions_orphan _ _ Horphan) as (q & el & sc & g' & Hrun & Hin & Hnone).
  exists q, el, sc, g'. pose proof (apply_redefinitions_dom _ _ _ _ Hrun) as Hdom.
  split_and!; try done.
  apply not_elem_of_dom. rewrite Hdom. by apply not_elem_of_dom.
Qed.

End LoaderFacts.

(** A schema holding only a redefine block for element [E1], which no
    schema declares: loading the elements raises. *)
Lemma load_orphan_redefinition_raises_witness :
  let xs := "{http://www.w3.org/2001/XMLSchema}" in
  let e1 := Sample.decl (xs +:+ "element") "E1" in
  let sc := Sample.schema_doc 0 "" [Namespaces.mkElement (xs +:+ "redefine") [] [e1]] in
  Namespaces.load_xsd_globals (H := Sample.externals) (xs +:+ "element") (λ _, false) ∅ [sc]
  = (∅, Some (Namespaces.XMLSchemaParseError "not a redefinition!" (Some e1))).
Proof.
  intros xs e1 sc.
  destruct (load_orphan_redefinition_raises (H := Sample.externals)
              (xs +:+ "element") (λ _, false) ∅ [sc]
              {| Namespaces.l_globals := ∅;
                 Namespaces.redefinitions := [("E1", (e1, sc))] |})
    as (q & el & sc' & g' & Hload & Hin & _ & _ & Hdom & _).
  - reflexivity.
  - exists "E1", (e1, sc). split; [by left | reflexivity].
  - apply list_elem_of_singleton in Hin. injection Hin as -> -> ->.
    rewrite Hload. f_equal. cbn in Hdom.
    apply dom_empty_inv_L. by rewrite Hdom, dom_empty_L.
Defined.

(** ** Properties of the declaration builder *)

Section BuilderFacts.
Import Namespaces.
Context {W : Type}.
Variable factory_key : string.
Variable tag0 : string.
Variable kwargs : Kwargs W.
Variable built : Schema → bool.

Local Abbreviation call_factory := (call_factory (W := W) factory_key kwargs).
Local Abbreviation chain_loop := (chain_loop (W := W) factory_key tag0 kwargs).
Local Abbreviation try_body := (try_body (W := W) factory_key tag0 kwargs built).
Local Abbreviation else_clause := (else_clause (W := W) tag0).
Local Abbreviation process_key := (process_key (W := W) factory_key tag0 kwargs built).
Local Abbreviation pass_loop := (pass_loop (W := W) factory_key tag0 kwargs built).
Local Abbreviation build_loop := (build_loop (W := W) factory_key tag0 kwargs built).

Lemma same_pass_refl (st : bstate W) : same_pass st st.
Proof. by repeat split. Qed.

Lemma same_pass_trans (st1 st2 st3 : bstate W) :
  same_pass st1 st2 → same_pass st2 st3 → same_pass st1 st3.
Proof.
  unfold same_pass. intros (?&?&?&?&?) (?&?&?&?&?). split_and!; congruence.
Qed.

Lemma call_factory_same_pass q el sc prev st st' r :
  call_factory q el sc prev st = (st', r) → same_pass st st'.
Proof.
  unfold Namespaces.call_factory.
  destruct (factories kwargs factory_key) as [f|].
  - destruct (f _ _ _ _ _ _) as [w r']. intros [= <- <-]. by repeat split.
  - intros [= <- <-]. apply same_pass_refl.
Qed.

Lemma chain_loop_same_pass q rest xi st :
  same_pass st (flow_state (chain_loop q rest xi st)).
Proof.
  revert xi st. induction rest as [|[x|el sc|j] rest IH]; intros xi st; cbn.
  - apply same_pass_refl.
  - apply same_pass_refl.
  - destruct (decide (tag el ≠ tag0)); [by repeat split|].
    destruct (call_factory _ _ _ _ _) as [st2 [[rq x]|err]] eqn:Hcall;
      apply call_factory_same_pass in Hcall.
    + eapply same_pass_trans; [|apply IH].
      eapply same_pass_trans; [|by repeat split]. exact Hcall.
    + exact Hcall.
  - apply same_pass_refl.
Qed.

Lemma try_body_same_pass q obj st :
  same_pass st (flow_state (try_body q obj st)).
Proof.
  destruct obj as [[x|el sc|j]|l]; cbn.
  - destruct (elem x) as [el|]; [|by repeat split].
    destruct (decide (tag el ≠ tag0)); [by repeat split|].
    destruct (schema x) as [sc|]; [|by repeat split].
    destruct (built sc); [by repeat split|].
    destruct (call_factory _ _ _ _ _) as [st2 [[rq xi]|err]] eqn:Hcall;
      apply call_factory_same_pass in Hcall; exact Hcall.
  - destruct (decide (tag el ≠ tag0)); [by repeat split|].
    destruct (call_factory _ _ _ _ _) as [st2 [[rq xi]|err]] eqn:Hcall;
      apply call_factory_same_pass in Hcall; exact Hcall.
  - apply same_pass_refl.
  - destruct l as [|[x|el sc|j] rest]; [apply same_pass_refl|..];
      apply chain_loop_same_pass.
Qed.

Lemma except_clause_effect q err (st : bstate W) :
  key_effect q st (except_clause q err st).
Proof.
  unfold except_clause, key_effect.
  destruct (l_elem st) as [|[el|]] eqn:Hel; [done| |done].
  cbn zeta. destruct (decide _) as [Hlen|Hlen]; cbn.
  - split_and!; try done.
    + destruct (is_lookup err) eqn:Hlk.
      * exists [err]. split; [done|]. by constructor.
      * exists []. split; [by rewrite app_nil_r | constructor].
    + unfold exhaustion_error. cbn.
      destruct (if is_lookup err then _ else _) as [|e0 rest]; eauto 8.
  - split_and!; try done. right. split_and!; try done.
    destruct (is_lookup err) eqn:Hlk.
    * exists [err]. split; [done|]. by constructor.
    * exists []. split; [by rewrite app_nil_r | constructor].
Qed.

Lemma else_clause_effect q xi st :
  key_effect q st (else_clause q xi st).
Proof.
  unfold Namespaces.else_clause, key_effect.
  destruct (l_elem st) as [|[el|]]; [done| |done].
  destruct (decide _); [cbn; split_and!; by auto|].
  destruct (l_res_qname st) as [|rq]; [done|].
  destruct (decide _); [done|]. cbn. split_and!; by auto.
Qed.

Lemma key_effect_same_pass q (st st1 : bstate W) o :
  same_pass st st1 → key_effect q st1 o → key_effect q st o.
Proof.
  unfold same_pass, key_effect. intros (Hg & Hc & Hm & He & Hp).
  rewrite Hg, Hc, Hm, He, Hp. done.
Qed.

Lemma process_key_effect q st : key_effect q st (process_key q st).
Proof.
  unfold Namespaces.process_key.
  destruct (xsd_globals st !! q) as [obj|]; [|by repeat split].
  pose proof (try_body_same_pass q obj st) as Hsame.
  destruct (try_body q obj st) as [st1|xi st1|err st1]; cbn in Hsame.
  - destruct Hsame as (?&?&?&?&?). unfold key_effect; cbn.
    split_and!; by auto.
  - eapply key_effect_same_pass; [done|]. apply else_clause_effect.
  - destruct (is_deferral err).
    + eapply key_effect_same_pass; [done|]. apply except_clause_effect.
    + destruct Hsame as (?&?&?&?&?). by repeat split.
Qed.

Lemma sublist_full {A} (l k : list A) :
  l `sublist_of` k → length k ≤ length l → l = k.
Proof.
  induction 1 as [|x l k _ IH|x l k Hsub _]; cbn; intros Hlen.
  - done.
  - f_equal. apply IH. lia.
  - apply sublist_length in Hsub. lia.
Qed.

Lemma pass_loop_effect names st : pass_effect names st (pass_loop names st).
Proof.
  revert st. induction names as [|q rest IH]; intros st.
  - cbn. split_and!; try done. exists [], [].
    rewrite !app_nil_r. split_and!; auto.
  - cbn [Namespaces.pass_loop].
    pose proof (process_key_effect q (set_pending rest st)) as Hkey.
    destruct (process_key q (set_pending rest st)) as [st1|e st1|e st1];
      destruct Hkey as (Hg & Hc & Hp & Hkey); cbn in Hg, Hc, Hp, Hkey.
    + specialize (IH st1).
      destruct (pass_loop rest st1) as [st2|e st2|e st2];
        destruct IH as (Hg2 & Hc2 & IH); cbn in Hg2, Hc2, IH;
        unfold pass_effect; cbn; (split; [congruence|]); (split; [congruence|]);
        [ | | done].
      * destruct IH as (Hp2 & d & errs & Hm & Hsub & Hne & He & Hlk).
        split; [done|]. rewrite Hc in Hne.
        destruct Hkey as [[Hm1 He1]|(Hm1 & Hne1 & errs1 & He1 & Hlk1)].
        -- exists d, errs.
           split_and!; [congruence | by apply sublist_cons | done | congruence | done].
        -- exists (q :: d), (errs1 ++ errs). split_and!.
           ++ by rewrite Hm, Hm1, <- (assoc_L (++)).
           ++ by apply sublist_skip.
           ++ right. destruct Hne as [->|Hne]; [|done].
              rewrite app_nil_r in Hm. by rewrite Hm.
           ++ by rewrite He, He1, <- (assoc_L (++)).
           ++ by apply Forall_app.
      * destruct IH as (pre & q2 & d & errs & Hn & Hm & Hsub & Hlen & He & Hlk & Hex).
        rewrite Hc in Hlen.
        destruct Hkey as [[Hm1 He1]|(Hm1 & Hne1 & errs1 & He1 & Hlk1)].
        -- exists (q :: pre), q2, d, errs.
           split_and!; [by rewrite Hn | congruence | by apply sublist_cons
                       | done | congruence | done | done].
        -- exists (q :: pre), q2, (q :: d), (errs1 ++ errs). split_and!.
           ++ by rewrite Hn.
           ++ by rewrite Hm, Hm1, <- (assoc_L (++)).
           ++ by apply sublist_skip.
           ++ done.
           ++ by rewrite He, He1, <- (assoc_L (++)).
           ++ by apply Forall_app.
           ++ done.
    + unfold pass_effect; cbn. split_and!; try done.
      destruct Hkey as (Hm & Hlen & (errs & He & Hlk) & Hex).
      exists [], q, [], errs. rewrite Hp. by split_and!.
    + by repeat split.
Qed.

Lemma pass_from_start st :
  pass_start st →
  match pass_loop (global_names st) (set_deferred [] [] st) with
  | Done st1 =>
      pending st1 = [] ∧ missing st1 `sublist_of` global_names st
      ∧ (missing st1 = [] ∨ length (missing st1) < length (global_names st)
         ∨ errors_counter st = 0)
  | Exhausted e st1 => loop_exit (Exhausted e st1)
  | Failed _ _ => True
  end.
Proof.
  intros Hstart.
  pose proof (pass_loop_effect (global_names st) (set_deferred [] [] st)) as Hpass.
  destruct (pass_loop _ _) as [st1|e st1|e st1];
    destruct Hpass as (Hg & Hc & Hpass); cbn in Hg, Hc, Hpass; [| |done].
  - destruct Hpass as (Hp & d & errs & Hm & Hsub & Hne & _). cbn in Hm.
    subst d. split_and!; try done.
    destruct Hne as [Hnil|Hne]; [by left|]. right.
    destruct Hstart as [H0|Hlen]; [by right|left].
    apply sublist_length in Hsub. lia.
  - destruct Hpass as (pre & q & d & errs & Hn & Hm & Hsub & Hlen & He & Hlk & Hex).
    cbn in Hm, He. subst errs.
    assert (Hd : length d ≤ length pre) by by apply sublist_length.
    destruct Hstart as [H0|Hec].
    { rewrite Hm, length_app in Hlen. cbn in Hlen. lia. }
    rewrite Hec, Hn, Hm, !length_app in Hlen. cbn in Hlen.
    assert (Hnil : pending st1 = []).
    { destruct (pending st1); [done|]. cbn in Hlen. lia. }
    rewrite Hnil in Hn, Hlen. cbn in Hlen.
    assert (d = pre) as -> by (apply sublist_full; [done|lia]).
    cbn. split_and!; try done.
    + by rewrite Hg, Hn, Hm.
    + rewrite Hm. by destruct pre.
    + rewrite Hc, Hec, Hn, Hm. by rewrite !length_app.
Qed.

Lemma build_loop_exit fuel st o :
  pass_start st → build_loop fuel st = Some o → loop_exit o.
Proof.
  revert st. induction fuel as [|fuel IH]; intros st Hstart; [done|].
  cbn [Namespaces.build_loop].
  pose proof (pass_from_start st Hstart) as Hpass.
  destruct (pass_loop _ _) as [st1|e st1|e st1].
  - destruct (missing st1) as [|q m] eqn:Hm.
    + intros [= <-]. cbn. by destruct Hpass as (? & _).
    + apply IH. by right.
  - by intros [= <-].
  - by intros [= <-].
Qed.

Lemma build_loop_later_pass n st :
  errors_counter st = length (global_names st) →
  length (global_names st) ≤ n →
  ∃ o, ∀ fuel, n < fuel → build_loop fuel st = Some o.
Proof.
  revert st. induction n as [|n IH]; intros st Hec Hlen.
  - pose proof (pass_from_start st (or_intror Hec)) as Hpass.
    destruct (pass_loop (global_names st) (set_deferred [] [] st))
      as [st1|e st1|e st1] eqn:Hrun.
    + exists (Done st1). intros [|fuel] Hf; [lia|]. cbn. rewrite Hrun.
      destruct Hpass as (_ & Hsub & _). apply sublist_length in Hsub.
      destruct (missing st1); [done|]. cbn in Hsub. lia.
    + exists (Exhausted e st1). intros [|fuel] Hf; [lia|]. cbn. by rewrite Hrun.
    + exists (Failed e st1). intros [|fuel] Hf; [lia|]. cbn. by rewrite Hrun.
  - pose proof (pass_from_start st (or_intror Hec)) as Hpass.
    destruct (pass_loop (global_names st) (set_deferred [] [] st))
      as [st1|e st1|e st1] eqn:Hrun.
    + destruct (missing st1) as [|q m] eqn:Hm.
      * exists (Done st1). intros [|fuel] Hf; [lia|]. cbn. by rewrite Hrun, Hm.
      * destruct Hpass as (_ & Hsub & Hprog). apply sublist_length in Hsub.
        destruct (IH (next_pass st1)) as [o Ho]; [done| |].
        { cbn. rewrite Hm in *. destruct Hprog as [?|[?|?]]; [done|cbn in *; lia|].
          rewrite Hec in *. cbn in *. lia. }
        exists o. intros [|fuel] Hf; [lia|]. cbn. rewrite Hrun, Hm.
        apply Ho. lia.
    + exists (Exhausted e st1). intros [|fuel] Hf; [lia|]. cbn. by rewrite Hrun.
    + exists (Failed e st1). intros [|fuel] Hf; [lia|]. cbn. by rewrite Hrun.
Qed.

Lemma build_loop_terminates st :
  pass_start st →
  ∃ o, ∀ fuel, length (global_names st) + 2 ≤ fuel → build_loop fuel st = Some o.
Proof.
  intros Hstart.
  pose proof (pass_from_start st Hstart) as Hpass.
  destruct (pass_loop (global_names st) (set_deferred [] [] st))
    as [st1|e st1|e st1] eqn:Hrun.
  - destruct (missing st1) as [|q m] eqn:Hm.
    + exists (Done st1). intros [|fuel] Hf; [lia|]. cbn. by rewrite Hrun, Hm.
    + destruct Hpass as (_ & Hsub & _). apply sublist_length in Hsub.
      destruct (build_loop_later_pass (length (global_names st)) (next_pass st1))
        as [o Ho]; [done | cbn; by rewrite Hm |].
      exists o. intros [|fuel] Hf; [lia|]. cbn. rewrite Hrun, Hm.
      apply Ho. lia.
  - exists (Exhausted e st1). intros [|fuel] Hf; [lia|]. cbn. by rewrite Hrun.
  - exists (Failed e st1). intros [|fuel] Hf; [lia|]. cbn. by rewrite Hrun.
Qed.

(** *** The check made in the handler and the check made after the pass *)

Local Abbreviation deferring_key :=
  (process_key_deferring (W := W) factory_key tag0 kwargs built).
Local Abbreviation deferring_pass :=
  (pass_loop_deferring (W := W) factory_key tag0 kwargs built).
Local Abbreviation loop_after_pass :=
  (build_loop_after_pass (W := W) factory_key tag0 kwargs built).

Lemma set_pending_same (st : bstate W) : pending st = [] → set_pending [] st = st.
Proof. destruct st. cbn. by intros ->. Qed.

(** An iteration stopped by the check is an iteration that defers. *)
Lemma process_key_deferring_spec q st :
  match process_key q st with
  | Done st1 => ∃ l, deferring_key q st = (Done st1, l)
  | Exhausted e st1 =>
      ∃ err, deferring_key q st = (Done st1, Some err)
             ∧ e = no_progress_error (Some err) st1
  | Failed e st1 => ∃ l, deferring_key q st = (Failed e st1, l)
  end.
Proof.
  unfold Namespaces.process_key, process_key_deferring.
  destruct (xsd_globals st !! q) as [obj|]; [|by eexists].
  destruct (try_body q obj st) as [st1|xi st1|err st1]; [by eexists| |].
  - unfold else_clause.
    destruct (l_elem st1) as [|[el|]]; [by eexists| |by eexists].
    destruct (decide _); [by eexists|].
    destruct (l_res_qname st1); [by eexists|].
    destruct (decide _); by eexists.
  - destruct (is_deferral err); [|by eexists].
    unfold except_clause, defer.
    destruct (l_elem st1) as [|[el|]] eqn:Hel; [by eexists| |by eexists].
    cbn zeta. destruct (decide _); [|by eexists].
    exists err. split; [done|]. unfold no_progress_error. cbn. by rewrite Hel.
Qed.

Lemma pass_loop_deferring_spec names last st :
  match pass_loop names st with
  | Done st1 => ∃ l, deferring_pass names last st = (Done st1, l)
  | Exhausted e st1 =>
      ∃ err, deferring_pass names last st
             = deferring_pass (pending st1) (Some err) st1
             ∧ e = no_progress_error (Some err) st1
  | Failed e st1 => ∃ l, deferring_pass names last st = (Failed e st1, l)
  end.
Proof.
  revert last st. induction names as [|q rest IH]; intros last st.
  - by eexists.
  - cbn [Namespaces.pass_loop pass_loop_deferring].
    pose proof (process_key_deferring_spec q (set_pending rest st)) as Hkey.
    pose proof (process_key_effect q (set_pending rest st)) as Heff.
    destruct (process_key q (set_pending rest st)) as [st1|e st1|e st1].
    + destruct Hkey as [l ->]. destruct l as [err|]; apply IH.
    + destruct Hkey as (err & -> & ->). destruct Heff as (_ & _ & Hp & _).
      cbn in Hp. exists err. by rewrite Hp.
    + destruct Hkey as [l ->]. by destruct l; eexists.
Qed.

(** The loop of the source and the loop that checks after the pass end
    the same way, state and exception included. *)
Lemma build_loop_checks_after_pass fuel st :
  pass_start st → build_loop fuel st = loop_after_pass fuel st.
Proof.
  revert st. induction fuel as [|fuel IH]; intros st Hstart; [done|].
  cbn [Namespaces.build_loop build_loop_after_pass].
  pose proof (pass_loop_deferring_spec (global_names st) None
                (set_deferred [] [] st)) as Hspec.
  pose proof (pass_from_start st Hstart) as Hfrom.
  pose proof (pass_loop_effect (global_names st) (set_deferred [] [] st))
    as Heff.
  destruct (pass_loop (global_names st) (set_deferred [] [] st))
    as [st1|e st1|e st1].
  - destruct Hspec as [l ->].
    destruct Heff as (_ & Hc & _ & d & errs & Hm & _ & Hne & _).
    cbn in Hc, Hm, Hne. destruct (missing st1) as [|q m] eqn:Hmiss; [done|].
    rewrite decide_False.
    + apply IH. by right.
    + rewrite Hc. destruct Hne as [Hd|Hne]; [by rewrite Hd in Hm|done].
  - destruct Hspec as (err & -> & ->).
    destruct Hfrom as (Hp & Hm & Hne & Hlen & _).
    rewrite Hp. cbn [pass_loop_deferring].
    rewrite set_pending_same by done.
    destruct (missing st1) as [|q m] eqn:Hmiss; [done|].
    by rewrite decide_True.
  - by destruct Hspec as [l ->].
Qed.

End BuilderFacts.

(** C1: however a call of [build_xsd_map] ends, the loop that only defers
    during a pass and makes the no-progress check once the pass is over
    ends the same way, with the same state and the same exception. The
    no-progress error is raised only at the end of a pass: when it is
    raised, the [for] loop has no key left to visit and every key of the
    pass has been deferred, so the number of deferred keys equals
    [errors_counter]; the error is the first undefined-reference failure
    recorded in the pass if there is one, and otherwise a parse error on
    the element examined last. A call that returns normally has deferred
    nothing in its last pass. *)
Theorem exhaustion_only_after_complete_pass `{Namespaces.Externals} {W : Type}
    (factory_key : string) (built : Namespaces.Schema → bool) (fuel : nat)
    (g : gmap string Namespaces.entry) (tag0 : string)
    (kwargs : Namespaces.Kwargs W) (w : W) (log : list Namespaces.fcall)
    (o : Namespaces.outcome W) :
  Namespaces.build_xsd_map factory_key built fuel g tag0 kwargs w log = Some o →
  build_xsd_map_after_pass factory_key built fuel g tag0 kwargs w log = Some o
  ∧ match o with
    | Namespaces.Done st =>
        Namespaces.missing st = [] ∧ Namespaces.pending st = []
    | Namespaces.Exhausted e st =>
        Namespaces.pending st = []
        ∧ Namespaces.missing st = Namespaces.global_names st
        ∧ Namespaces.missing st ≠ []
        ∧ length (Namespaces.missing st) = Namespaces.errors_counter st
        ∧ Forall (λ e, Namespaces.is_lookup e = true) (Namespaces.errors st)
        ∧ ((∃ rest, Namespaces.errors st = e :: rest)
           ∨ (Namespaces.errors st = []
              ∧ ∃ msg el, Namespaces.l_elem st = Namespaces.Bound (Some el)
                          ∧ e = Namespaces.XMLSchemaParseError msg (Some el)))
    | Namespaces.Failed _ _ => True
    end.
Proof.
  intros Hrun. split.
  - unfold build_xsd_map_after_pass. rewrite <- Hrun.
    symmetry. apply build_loop_checks_after_pass. by left.
  - apply build_loop_exit in Hrun; [exact Hrun|]. by left.
Qed.

(** Two attribute groups that refer to each other: the second pass defers
    both again and raises on the second of them, with no key left. *)
Lemma exhaustion_only_after_complete_pass_witness :
  ∃ e st,
    Namespaces.build_xsd_map (H := Sample.externals) "attribute_group_factory"
      (λ _, false) 4 Sample.two_groups_map Sample.attribute_group_tag
      (Sample.kwargs_with (Sample.ref_factory Sample.mutual_refs)) 0 []
    = Some (Namespaces.Exhausted e st)
    ∧ Namespaces.pending st = []
    ∧ Namespaces.missing st = Namespaces.global_names st.
Proof.
  eexists _, _. split; [vm_compute; reflexivity|].
  pose proof (exhaustion_only_after_complete_pass (H := Sample.externals)
                "attribute_group_factory" (λ _, false) 4 Sample.two_groups_map
                Sample.attribute_group_tag
                (Sample.kwargs_with (Sample.ref_factory Sample.mutual_refs)) 0 []
                _ ltac:(vm_compute; reflexivity)) as Hexit.
  cbv beta iota in Hexit. destruct Hexit as (_ & Hp & Hm & _). by split.
Defined.

(** C7: for every map, tag, factory and world, [build_xsd_map] ends after
    at most one pass more than the map has keys to iterate over: with that
    much fuel, and with any more, the loop returns the same outcome, which
    is a normal return with nothing deferred, the no-progress error, or
    another exception leaving the call. *)
Theorem build_xsd_map_terminates `{Namespaces.Externals} {W : Type}
    (factory_key : string) (built : Namespaces.Schema → bool)
    (g : gmap string Namespaces.entry) (tag0 : string)
    (kwargs : Namespaces.Kwargs W) (w : W) (log : list Namespaces.fcall) :
  ∃ o,
    (∀ fuel, length (Namespaces.set_iter (dom g)) + 2 ≤ fuel →
             Namespaces.build_xsd_map factory_key built fuel g tag0 kwargs w log
             = Some o)
    ∧ match o with
      | Namespaces.Done st => Namespaces.missing st = []
      | Namespaces.Exhausted e st =>
          Namespaces.missing st = Namespaces.global_names st
          ∧ Namespaces.missing st ≠ []
      | Namespaces.Failed _ _ => True
      end.
Proof.
  destruct (build_loop_terminates factory_key tag0 kwargs built
              (Namespaces.enter (Namespaces.set_iter (dom g)) g w log))
    as [o Ho]; [by left|].
  exists o. split; [exact Ho|].
  specialize (Ho _ (Nat.le_refl _)).
  apply build_loop_exit in Ho; [|by left].
  destruct o as [st|e st|e st]; [by destruct Ho | | done].
  by destruct Ho as (_ & ? & ? & _).
Qed.

(** Mutually referring attribute groups end in the no-progress error,
    raised as a parse error on the element examined last. *)
Example mutual_references_exhaust :
  ∃ st,
    Namespaces.build_xsd_map (H := Sample.externals) "attribute_group_factory"
      (λ _, false) 4 Sample.two_groups_map Sample.attribute_group_tag
      (Sample.kwargs_with (Sample.ref_factory Sample.mutual_refs)) 0 []
    = Some (Namespaces.Exhausted
              (Namespaces.XMLSchemaParseError "not yet resolvable" (Some Sample.group_b))
              st)
    ∧ length (Namespaces.calls st) = 4.
Proof. eexists. split; [vm_compute; reflexivity | reflexivity]. Qed.

(** A forward reference is resolved by a second pass. *)
Example forward_reference_converges :
  ∃ st,
    Namespaces.build_xsd_map (H := Sample.externals) "attribute_group_factory"
      (λ _, false) 4 Sample.two_groups_map Sample.attribute_group_tag
      (Sample.kwargs_with (Sample.ref_factory Sample.forward_refs)) 0 []
    = Some (Namespaces.Done st)
    ∧ Namespaces.xsd_globals st !! "A"
      = Some (Namespaces.Single (Namespaces.Inst
                (Sample.instance_of "A" Sample.group_a Sample.two_groups 1)))
    ∧ Namespaces.xsd_globals st !! "B"
      = Some (Namespaces.Single (Namespaces.Inst
                (Sample.instance_of "B" Sample.group_b Sample.two_groups 0))).
Proof. eexists. split; [vm_compute; reflexivity | split; reflexivity]. Qed.

Section ResolvedEntries.
Import Namespaces.
Context {W : Type}.
Variable factory_key : string.
Variable tag0 : string.
Variable kwargs : Kwargs W.
Variable built : Schema → bool.

(** C4 (amended): in a pass of the builder, an entry that is already a
    built instance is skipped, without invoking the factory and without
    touching the map, when it has no element, or its element does not
    carry the target tag, or its schema is built; when it has an element
    with the target tag and a schema that is not built, the factory is
    invoked again, once, on that element and schema with the instance
    itself as the previous instance. *)
Theorem resolved_entry_skipped_or_rebuilt (q : string) (x : XsdBase)
    (st : bstate W) :
  xsd_globals st !! q = Some (Single (Inst x)) →
  (elem x = None
   ∨ (∃ el, elem x = Some el ∧ tag el ≠ tag0)
   ∨ (∃ sc, schema x = Some sc ∧ built sc = true) →
   process_key factory_key tag0 kwargs built q st = Done (set_elem (elem x) st))
  ∧ (∀ el sc f,
       elem x = Some el → tag el = tag0 →
       schema x = Some sc → built sc = false →
       factories kwargs factory_key = Some f →
       calls (final_state (process_key factory_key tag0 kwargs built q st))
       = calls st
           ++ [{| fc_key := q; fc_elem := el; fc_schema := sc; fc_prev := Some x;
                  fc_result := (f (world st) (xsd_globals st) el sc (Some x)
                                  (parse_local_groups kwargs)).2 |}]).
Proof.
  intros Hq. unfold process_key. rewrite Hq. cbn [try_body]. split.
  - intros Hskip. destruct (elem x) as [el|] eqn:Hel; [|done].
    destruct (decide (tag el ≠ tag0)) as [|Htag]; [done|].
    destruct Hskip as [?|[(el' & [= <-] & ?)|(sc & Hsc & Hb)]]; [done..|].
    by rewrite Hsc, Hb.
  - intros el sc f Hel Htag Hsc Hb Hf. rewrite Hel, Hsc, Hb.
    rewrite decide_False by (by intros ?).
    unfold call_factory. rewrite Hf. cbn.
    destruct (f _ _ _ _ _ _) as [w' [[rq xi]|err]]; cbn.
    + unfold else_clause; cbn. rewrite decide_False by (by intros ?).
      by destruct (decide (rq ≠ q)).
    + destruct (is_deferral err); [|done].
      unfold except_clause; cbn. by destruct (decide _).
Qed.

End ResolvedEntries.

(** C4 (as stated, refuted): the map holds one built attribute group whose
    schema is not built; the builder invokes the factory on it, passing
    the instance as the previous one, and stores the new instance. *)
Lemma resolved_entry_rebuilt_counterexample :
  let x := Sample.instance_of "A" Sample.group_a Sample.two_groups 7 in
  ∃ st,
    Namespaces.build_xsd_map (H := Sample.externals) "attribute_group_factory"
      (λ _, false) 3 {["A" := Namespaces.Single (Namespaces.Inst x)]}
      Sample.attribute_group_tag
      (Sample.kwargs_with (Sample.ref_factory (λ _, []))) 0 []
    = Some (Namespaces.Done st)
    ∧ (Namespaces.fc_prev <$> Namespaces.calls st) = [Some x]
    ∧ Namespaces.xsd_globals st !! "A"
      = Some (Namespaces.Single (Namespaces.Inst
                (Sample.instance_of "A" Sample.group_a Sample.two_groups 0))).
Proof. eexists. split; [vm_compute; reflexivity | split; reflexivity]. Qed.

(** The same entry, processed in a state where nothing was logged yet. *)
Lemma resolved_entry_skipped_or_rebuilt_witness :
  let x := Sample.instance_of "A" Sample.group_a Sample.two_groups 7 in
  let g : gmap string Namespaces.entry :=
    {["A" := Namespaces.Single (Namespaces.Inst x)]} in
  let kw := Sample.kwargs_with (Sample.ref_factory (λ _, [])) in
  length (Namespaces.calls
            (final_state
               (Namespaces.process_key "attribute_group_factory"
                  Sample.attribute_group_tag kw (λ _, false) "A"
                  (Namespaces.enter ["A"] g 0 [])))) = 1.
Proof.
  intros x g kw.
  destruct (resolved_entry_skipped_or_rebuilt "attribute_group_factory"
              Sample.attribute_group_tag kw (λ _, false) "A" x
              (Namespaces.enter ["A"] g 0 []) eq_refl) as [_ Hcall].
  rewrite (Hcall Sample.group_a Sample.two_groups
             (Sample.ref_factory (λ _, [])) eq_refl eq_refl eq_refl eq_refl eq_refl).
  reflexivity.
Defined.

(** ** The builder, key by key *)

Section KeyFrames.
Import Namespaces.
Context {W : Type}.
Variable factory_key : string.
Variable tag0 : string.
Variable kwargs : Kwargs W.
Variable built : Schema → bool.

Local Abbreviation call_factory := (call_factory (W := W) factory_key kwargs).
Local Abbreviation chain_loop := (chain_loop (W := W) factory_key tag0 kwargs).
Local Abbreviation try_body := (try_body (W := W) factory_key tag0 kwargs built).
Local Abbreviation else_clause := (else_clause (W := W) tag0).
Local Abbreviation process_key := (process_key (W := W) factory_key tag0 kwargs built).
Local Abbreviation pass_loop := (pass_loop (W := W) factory_key tag0 kwargs built).
Local Abbreviation build_loop := (build_loop (W := W) factory_key tag0 kwargs built).

Lemma key_frame_same q (st st' : bstate W) :
  xsd_globals st' = xsd_globals st → calls st' = calls st → key_frame q st st'.
Proof.
  intros Hg Hc. unfold key_frame. rewrite Hg, Hc.
  split_and!; [done..|]. exists []. by rewrite app_nil_r.
Qed.

Lemma key_frame_trans q (st1 st2 st3 : bstate W) :
  key_frame q st1 st2 → key_frame q st2 st3 → key_frame q st1 st3.
Proof.
  intros (Ho1 & Hd1 & cs1 & Hc1 & Hk1) (Ho2 & Hd2 & cs2 & Hc2 & Hk2).
  split_and!.
  - intros q' Hne. by rewrite Ho2, Ho1.
  - intros Hq. rewrite Hd2, Hd1; [done..|].
    apply elem_of_dom. rewrite Hd1 by done. by apply elem_of_dom.
  - exists (cs1 ++ cs2). rewrite Hc2, Hc1, (assoc_L (++)).
    split; [done|]. by apply Forall_app.
Qed.

Lemma call_factory_frame q el sc prev st st' r :
  call_factory q el sc prev st = (st', r) →
  key_frame q st st'
  ∧ xsd_globals st' = xsd_globals st
  ∧ l_elem st' = l_elem st
  ∧ l_res_qname st' = l_res_qname st.
Proof.
  unfold Namespaces.call_factory.
  destruct (factories kwargs factory_key) as [f|].
  - destruct (f _ _ _ _ _ _) as [w r']. intros [= <- <-]. cbn.
    split_and!; try done. split_and!; try done.
    eexists. split; [done|]. by repeat constructor.
  - intros [= <- <-]. split_and!; try done. by apply key_frame_same.
Qed.

Lemma set_globals_frame q (g : gmap string entry) (st : bstate W) :
  (∀ q', q' ≠ q → g !! q' = xsd_globals st !! q') →
  (is_Some (xsd_globals st !! q) → dom g = dom (xsd_globals st)) →
  key_frame q st (set_globals g st).
Proof.
  intros Ho Hd. split_and!; [done..|]. exists []. cbn. by rewrite app_nil_r.
Qed.

Lemma set_head_frame q x (st : bstate W) : key_frame q st (set_head q x st).
Proof.
  apply set_globals_frame.
  - intros q' Hne. by rewrite lookup_alter_ne.
  - intros _. apply dom_alter_L.
Qed.

Lemma set_elem_frame q v (st : bstate W) : key_frame q st (set_elem v st).
Proof. by apply key_frame_same. Qed.

Lemma set_res_qname_frame q v (st : bstate W) :
  key_frame q st (set_res_qname v st).
Proof. by apply key_frame_same. Qed.

Lemma chain_loop_frame q rest xi st :
  key_frame q st (flow_state (chain_loop q rest xi st)).
Proof.
  revert xi st. induction rest as [|[x|el sc|j] rest IH]; intros xi st; cbn;
    try by apply key_frame_same.
  destruct (decide (tag el ≠ tag0)); [by apply key_frame_same|].
  destruct (call_factory _ _ _ _ _) as [st2 [[rq x]|err]] eqn:Hcall;
    apply call_factory_frame in Hcall as (Hcall & _); [|exact Hcall].
  eapply key_frame_trans; [|apply IH].
  eapply key_frame_trans; [exact Hcall|].
  eapply key_frame_trans; [apply (set_res_qname_frame q rq)|].
  apply set_head_frame.
Qed.

Lemma try_body_frame q obj st :
  key_frame q st (flow_state (try_body q obj st)).
Proof.
  destruct obj as [[x|el sc|j]|l]; cbn.
  - destruct (elem x) as [el|]; [|by apply key_frame_same].
    destruct (decide (tag el ≠ tag0)); [by apply key_frame_same|].
    destruct (schema x) as [sc|]; [|by apply key_frame_same].
    destruct (built sc); [by apply key_frame_same|].
    destruct (call_factory _ _ _ _ _) as [st2 [[rq xi]|err]] eqn:Hcall;
      apply call_factory_frame in Hcall as (Hcall & _); exact Hcall.
  - destruct (decide (tag el ≠ tag0)); [by apply key_frame_same|].
    destruct (call_factory _ _ _ _ _) as [st2 [[rq xi]|err]] eqn:Hcall;
      apply call_factory_frame in Hcall as (Hcall & _); exact Hcall.
  - by apply key_frame_same.
  - destruct l as [|[x|el sc|j] rest]; [by apply key_frame_same|..];
      apply chain_loop_frame.
Qed.

Lemma else_clause_frame q xi st :
  key_frame q st (final_state (else_clause q xi st)).
Proof.
  unfold Namespaces.else_clause.
  destruct (l_elem st) as [|[el|]]; try by apply key_frame_same.
  destruct (decide _); [by apply key_frame_same|].
  destruct (l_res_qname st) as [|rq]; [by apply key_frame_same|].
  destruct (decide _); [by apply key_frame_same|]. cbn.
  apply set_globals_frame.
  - intros q' Hne. by rewrite lookup_insert_ne.
  - intros Hq. rewrite dom_insert_L.
    apply subseteq_union_1_L, singleton_subseteq_l. by apply elem_of_dom.
Qed.

Lemma except_clause_frame q err (st : bstate W) :
  key_frame q st (final_state (except_clause q err st)).
Proof.
  unfold except_clause.
  destruct (l_elem st) as [|[el|]]; try by apply key_frame_same.
  cbn zeta. destruct (decide _); by apply key_frame_same.
Qed.

Lemma process_key_frame q st :
  key_frame q st (final_state (process_key q st)).
Proof.
  unfold Namespaces.process_key.
  destruct (xsd_globals st !! q) as [obj|] eqn:Hq; [|by apply key_frame_same].
  pose proof (try_body_frame q obj st) as Hbody.
  destruct (try_body q obj st) as [st1|xi st1|err st1]; cbn in Hbody;
    [done| |].
  - eapply key_frame_trans; [exact Hbody|]. apply else_clause_frame.
  - destruct (is_deferral err); [|done].
    eapply key_frame_trans; [exact Hbody|]. apply except_clause_frame.
Qed.

End KeyFrames.

(** ** Chains of declarations *)

Section ChainFacts.
Import Namespaces.
Context {W : Type}.
Variable factory_key : string.
Variable tag0 : string.
Variable kwargs : Kwargs W.
Variable built : Schema → bool.
Variable f : Factory W.
Hypothesis factory_present : factories kwargs factory_key = Some f.

Local Abbreviation call_factory := (call_factory (W := W) factory_key kwargs).
Local Abbreviation chain_loop := (chain_loop (W := W) factory_key tag0 kwargs).
Local Abbreviation try_body := (try_body (W := W) factory_key tag0 kwargs built).
Local Abbreviation else_clause := (else_clause (W := W) tag0).
Local Abbreviation process_key := (process_key (W := W) factory_key tag0 kwargs built).
Local Abbreviation pass_loop := (pass_loop (W := W) factory_key tag0 kwargs built).
Local Abbreviation build_loop := (build_loop (W := W) factory_key tag0 kwargs built).

Lemma call_factory_success q links el sc prev st :
  succeeds_on kwargs f q links → (el, sc) ∈ links →
  ∃ w' x,
    call_factory q el sc prev st
    = (mkBstate (xsd_globals st) w'
         (calls st ++ [{| fc_key := q; fc_elem := el; fc_schema := sc;
                          fc_prev := prev; fc_result := Return (q, x) |}])
         (global_names st) (errors_counter st) (missing st) (errors st)
         (l_elem st) (l_res_qname st) (pending st),
       Return (q, x)).
Proof.
  intros Hok Hin. unfold Namespaces.call_factory. rewrite factory_present.
  destruct (Hok el sc Hin (world st) (xsd_globals st) prev) as (w' & x & ->).
  by exists w', x.
Qed.

Lemma last_instance_cons xi x xs :
  last_instance xi (x :: xs) = last_instance (Some x) xs.
Proof.
  unfold last_instance. destruct xs as [|x' xs]; [done|].
  change (last (x :: x' :: xs)) with (last (x' :: xs)).
  destruct (last (x' :: xs)) eqn:Hl; [done|].
  by apply last_None in Hl.
Qed.

Lemma chain_loop_success q links xi st :
  Forall (λ l, tag l.1 = tag0) links →
  succeeds_on kwargs f q links →
  ∃ xs st',
    chain_loop q (as_items links) xi st = FElse (last_instance xi xs) st'
    ∧ length xs = length links
    ∧ calls st' = calls st ++ expected_calls q xi links xs
    ∧ (links ≠ [] →
       (∃ el, l_elem st' = Bound (Some el) ∧ tag el = tag0)
       ∧ l_res_qname st' = Bound q).
Proof.
  revert xi st. induction links as [|[el sc] links IH]; intros xi st Htag Hok.
  - exists [], st. cbn. rewrite app_nil_r. by split_and!.
  - apply Forall_cons in Htag as [Hel Htag]. cbn in Hel.
    cbn [as_items fmap list_fmap Namespaces.chain_loop fst snd].
    rewrite decide_False by (by intros ?).
    destruct (call_factory_success q ((el, sc) :: links) el sc xi
                (set_elem (Some el) st) Hok) as (w' & x & ->); [by left|].
    destruct (IH (Some x)
                (set_head q x (set_res_qname q
                   (mkBstate (xsd_globals st) w'
                      (calls st ++ [{| fc_key := q; fc_elem := el; fc_schema := sc;
                                       fc_prev := xi; fc_result := Return (q, x) |}])
                      (global_names st) (errors_counter st) (missing st)
                      (errors st) (Bound (Some el)) (l_res_qname st) (pending st))))
                Htag)
      as (xs & st' & Hrun & Hlen & Hcalls & Hloc).
    { intros el' sc' Hin. apply Hok. by right. }
    exists (x :: xs), st'. split_and!.
    + cbn in Hrun. unfold as_items in Hrun. cbn. rewrite Hrun.
      by rewrite last_instance_cons.
    + cbn. by rewrite Hlen.
    + rewrite Hcalls. cbn. by rewrite <- (assoc_L (++)).
    + intros _. destruct links as [|l links].
      * cbn in Hrun. injection Hrun as _ <-. cbn. eauto.
      * by apply Hloc.
Qed.

Lemma untouched_trans q (st1 st2 st3 : bstate W) :
  untouched q st1 st2 → untouched q st2 st3 → untouched q st1 st3.
Proof. intros [? ?] [? ?]. split; congruence. Qed.

Lemma calls_for_other q q0 cs :
  q ≠ q0 → Forall (λ c, fc_key c = q0) cs → calls_for q cs = [].
Proof.
  intros Hne. unfold calls_for.
  induction 1 as [|c cs Hc _ IH]; [done|].
  rewrite filter_cons_False; [done|]. congruence.
Qed.

Lemma calls_for_expected q prev links xs :
  calls_for q (expected_calls q prev links xs) = expected_calls q prev links xs.
Proof.
  unfold calls_for. revert prev xs.
  induction links as [|[el sc] links IH]; intros prev [|x xs]; try done.
  cbn [expected_calls]. rewrite filter_cons_True by done. by rewrite IH.
Qed.

Lemma key_frame_untouched q q0 (st st' : bstate W) :
  q ≠ q0 → key_frame q0 st st' → untouched q st st'.
Proof.
  intros Hne (Ho & _ & cs & Hc & Hk). split; [by apply Ho|].
  rewrite Hc. unfold calls_for. rewrite filter_app.
  fold (calls_for q cs). by rewrite (calls_for_other q q0), app_nil_r.
Qed.

Lemma pass_loop_untouched q names st :
  q ∉ names → untouched q st (final_state (pass_loop names st)).
Proof.
  revert st. induction names as [|q0 rest IH]; intros st Hnotin; [done|].
  apply not_elem_of_cons in Hnotin as [Hne Hnotin].
  cbn [Namespaces.pass_loop].
  pose proof (process_key_frame factory_key tag0 kwargs built q0
                (set_pending rest st)) as Hframe.
  apply (key_frame_untouched q) in Hframe; [|done].
  destruct (process_key q0 (set_pending rest st)) as [st1|e st1|e st1];
    cbn in Hframe; [|done..].
  eapply untouched_trans; [exact Hframe|]. by apply IH.
Qed.

Lemma pass_loop_not_deferred q names st st' :
  q ∉ names → q ∉ missing st → pass_loop names st = Done st' →
  q ∉ missing st'.
Proof.
  intros Hnames Hmiss Hrun.
  pose proof (pass_loop_effect factory_key tag0 kwargs built names st) as Hpass.
  rewrite Hrun in Hpass.
  destruct Hpass as (_ & _ & _ & d & errs & Hm & Hsub & _). cbn in Hm.
  rewrite Hm. intros [?|Hin]%elem_of_app; [done|].
  apply sublist_subseteq in Hsub. by apply Hsub in Hin.
Qed.

Lemma build_loop_untouched q fuel st o :
  q ∉ global_names st → build_loop fuel st = Some o →
  untouched q st (final_state o).
Proof.
  revert st. induction fuel as [|fuel IH]; intros st Hnotin; [done|].
  cbn [Namespaces.build_loop].
  pose proof (pass_loop_untouched q (global_names st) (set_deferred [] [] st)
                Hnotin) as Hpass.
  destruct (pass_loop (global_names st) (set_deferred [] [] st))
    as [st1|e st1|e st1] eqn:Hrun; cbn in Hpass.
  - destruct (missing st1) as [|q1 m] eqn:Hm.
    + by intros [= <-].
    + intros Hloop. eapply untouched_trans; [exact Hpass|].
      apply (IH (next_pass st1)); [|done]. cbn.
      eapply pass_loop_not_deferred; [exact Hnotin | | exact Hrun].
      cbn. apply not_elem_of_nil.
  - by intros [= <-].
  - by intros [= <-].
Qed.

(** The first pass is never stopped by the no-progress check. *)
Lemma first_pass_not_exhausted names st e st' :
  errors_counter st = 0 →
  pass_loop names (set_deferred [] [] st) ≠ Exhausted e st'.
Proof.
  intros Hec Hrun.
  pose proof (pass_loop_effect factory_key tag0 kwargs built names
                (set_deferred [] [] st)) as Hpass.
  rewrite Hrun in Hpass.
  destruct Hpass as (_ & _ & pre & q & d & errs & _ & Hm & _ & Hlen & _).
  cbn in Hm, Hlen. rewrite Hm, Hec, length_app in Hlen. cbn in Hlen. lia.
Qed.

End ChainFacts.

(** ** Chains whose invocations return *)

Section ChainRuns.
Import Namespaces.
Context {W : Type}.
Variable factory_key : string.
Variable tag0 : string.
Variable kwargs : Kwargs W.
Variable built : Schema → bool.

Local Abbreviation call_factory := (call_factory (W := W) factory_key kwargs).
Local Abbreviation chain_loop := (chain_loop (W := W) factory_key tag0 kwargs).
Local Abbreviation try_body := (try_body (W := W) factory_key tag0 kwargs built).
Local Abbreviation else_clause := (else_clause (W := W) tag0).
Local Abbreviation process_key := (process_key (W := W) factory_key tag0 kwargs built).
Local Abbreviation pass_loop := (pass_loop (W := W) factory_key tag0 kwargs built).
Local Abbreviation build_loop := (build_loop (W := W) factory_key tag0 kwargs built).

(** What a factory call leaves: an invocation logged with its result, or,
    without a factory, a [TypeError] and no invocation. *)
Lemma call_factory_logs q el sc prev (st st' : bstate W) r :
  call_factory q el sc prev st = (st', r) →
  xsd_globals st' = xsd_globals st
  ∧ l_elem st' = l_elem st
  ∧ l_res_qname st' = l_res_qname st
  ∧ (calls st' = calls st ++ [{| fc_key := q; fc_elem := el; fc_schema := sc;
                                 fc_prev := prev; fc_result := r |}]
     ∨ (st' = st ∧ r = Raise (PyError "TypeError"))).
Proof.
  unfold Namespaces.call_factory.
  destruct (factories kwargs factory_key) as [f|].
  - destruct (f _ _ _ _ _ _) as [w r']. intros [= <- <-]. cbn.
    split_and!; try done. by left.
  - intros [= <- <-]. split_and!; try done. by right.
Qed.

Lemma flow_calls_extend q rest xi (st : bstate W) :
  ∃ cs, calls (flow_state (chain_loop q rest xi st)) = calls st ++ cs.
Proof.
  destruct (chain_loop_frame factory_key tag0 kwargs q rest xi st)
    as (_ & _ & cs & Hcs & _).
  by exists cs.
Qed.

Lemma last_instance_snd xi (r : string * XsdBase) rs :
  last_instance xi (r :: rs).*2 = last_instance (Some r.2) rs.*2.
Proof. rewrite fmap_cons. apply last_instance_cons. Qed.

(** The loop over a chain of raw declarations with the target tag, when
    every invocation it logs returned and no exception other than a
    deferral leaves it. *)
Lemma chain_loop_returned q links xi (st : bstate W) :
  Forall (λ l, tag l.1 = tag0) links →
  (∀ cs, calls (flow_state (chain_loop q (as_items links) xi st))
         = calls st ++ cs → Forall returned cs) →
  (∀ err st', chain_loop q (as_items links) xi st = FExcept err st' →
              is_deferral err = true) →
  ∃ rs st',
    chain_loop q (as_items links) xi st = FElse (last_instance xi rs.*2) st'
    ∧ length rs = length links
    ∧ calls st' = calls st ++ chain_calls q xi links rs
    ∧ (links ≠ [] →
       (∃ el, l_elem st' = Bound (Some el) ∧ tag el = tag0)
       ∧ ∃ r, last rs = Some r ∧ l_res_qname st' = Bound r.1).
Proof.
  revert xi st. induction links as [|[el sc] links IH]; intros xi st Htag Hret Hexc.
  - exists [], st. cbn. rewrite app_nil_r. by split_and!.
  - apply Forall_cons in Htag as [Hel Htag]. cbn in Hel.
    revert Hret Hexc.
    cbn [as_items fmap list_fmap Namespaces.chain_loop fst snd].
    rewrite decide_False by (by intros ?).
    destruct (call_factory q el sc xi (set_elem (Some el) st))
      as [st2 r] eqn:Hcall.
    apply call_factory_logs in Hcall as (Hg2 & Hel2 & Hrq2 & Hlog).
    destruct r as [[rq x]|err].
    + fold (as_items links). intros Hret Hexc.
      destruct Hlog as [Hlog|[_ ?]]; [|done].
      destruct (IH (Some x) (set_head q x (set_res_qname rq st2)) Htag)
        as (rs & st' & Hrun & Hlen & Hcalls & Hloc).
      { intros cs Hcs. cbn in Hcs. rewrite Hlog in Hcs. cbn in Hcs.
        rewrite <- (assoc_L (++)) in Hcs. apply Hret in Hcs.
        by apply Forall_app in Hcs as [_ ?]. }
      { exact Hexc. }
      exists ((rq, x) :: rs), st'. split_and!.
      * rewrite Hrun. by rewrite last_instance_snd.
      * cbn. by rewrite Hlen.
      * rewrite Hcalls. cbn. rewrite Hlog. cbn. by rewrite <- (assoc_L (++)).
      * intros _. destruct links as [|l links].
        -- destruct rs; [|done]. cbn in Hrun. injection Hrun as <-. cbn.
           rewrite Hel2. cbn. split; [eauto|]. by exists (rq, x).
        -- destruct (Hloc ltac:(done)) as (Hl & r & Hlast & Hr).
           split; [done|]. exists r. split; [|done].
           destruct rs as [|r0 rs]; [done|]. by rewrite last_cons, Hlast.
    + intros Hret Hexc. exfalso. destruct Hlog as [Hlog|[-> [= ->]]].
      * specialize (Hret _ Hlog). apply Forall_inv in Hret. exact Hret.
      * by specialize (Hexc _ _ eq_refl).
Qed.

Lemma else_clause_calls q xi (st : bstate W) :
  calls (final_state (else_clause q xi st)) = calls st.
Proof.
  unfold Namespaces.else_clause.
  destruct (l_elem st) as [|[el|]]; try done.
  destruct (decide _); [done|].
  destruct (l_res_qname st) as [|rq]; [done|].
  by destruct (decide _).
Qed.

Lemma except_clause_calls q err (st : bstate W) :
  calls (final_state (except_clause q err st)) = calls st.
Proof.
  unfold except_clause.
  destruct (l_elem st) as [|[el|]]; try done.
  cbn zeta. by destruct (decide _).
Qed.

(** Processing a key that holds a chain of raw declarations with the
    target tag, when the iteration ends normally and every invocation it
    logged returned. *)
Lemma process_key_returned q en links (st st' : bstate W) :
  xsd_globals st !! q = Some en →
  items_of (Some en) = as_items links →
  links ≠ [] →
  Forall (λ l, tag l.1 = tag0) links →
  process_key q st = Done st' →
  (∀ cs, calls st' = calls st ++ cs → Forall returned cs) →
  ∃ rs x_last,
    length rs = length links
    ∧ last rs = Some (q, x_last)
    ∧ calls st' = calls st ++ chain_calls q None links rs
    ∧ xsd_globals st' !! q = Some (Single (Inst x_last))
    ∧ missing st' = missing st.
Proof.
  intros Hq Hitems Hne Htag.
  unfold Namespaces.process_key. rewrite Hq.
  assert (Hchain : ∀ st0 : bstate W,
    match chain_loop q (as_items links) None st0 with
    | FContinue st1 => Done st1
    | FElse xsd_instance st1 => else_clause q xsd_instance st1
    | FExcept err st1 =>
        if is_deferral err then except_clause q err st1 else Failed err st1
    end = Done st' →
    (∀ cs, calls st' = calls st0 ++ cs → Forall returned cs) →
    ∃ rs x_last,
      length rs = length links
      ∧ last rs = Some (q, x_last)
      ∧ calls st' = calls st0 ++ chain_calls q None links rs
      ∧ xsd_globals st' !! q = Some (Single (Inst x_last))
      ∧ missing st' = missing st0).
  { intros st0 Hrun Hret.
    pose proof (chain_loop_same_pass factory_key tag0 kwargs q (as_items links)
                  None st0) as Hsame.
    destruct (chain_loop_returned q links None st0 Htag)
      as (rs & st1 & Hloop & Hlen & Hcalls & Hloc).
    - intros cs Hcs. apply Hret. rewrite <- Hcs.
      destruct (chain_loop q (as_items links) None st0) as [s|xi s|err s];
        cbn.
      + by injection Hrun as <-.
      + by rewrite <- (else_clause_calls q xi s), Hrun.
      + destruct (is_deferral err); [|done].
        by rewrite <- (except_clause_calls q err s), Hrun.
    - intros err s Hloop. rewrite Hloop in Hrun.
      by destruct (is_deferral err).
    - rewrite Hloop in Hrun, Hsame. cbn in Hsame.
      destruct Hsame as (_ & _ & Hmiss & _).
      destruct (Hloc Hne) as ((el & Hel & Hel_tag) & r & Hlast & Hres).
      unfold Namespaces.else_clause in Hrun. rewrite Hel in Hrun.
      rewrite decide_False in Hrun by (by intros ?). rewrite Hres in Hrun.
      destruct (decide (r.1 ≠ q)) as [|Hname%dec_stable]; [done|].
      injection Hrun as <-. destruct r as [rq x]. cbn in Hname. subst rq.
      exists rs, x. unfold last_instance.
      rewrite fmap_last, Hlast. cbn.
      split_and!; [done.. | by rewrite lookup_insert_eq | done]. }
  destruct en as [i|l]; cbn in Hitems.
  - destruct links as [|[el sc] [|l2 links]]; try done.
    injection Hitems as ->. cbn [Namespaces.try_body].
    apply Forall_cons in Htag as [Htag _]. cbn in Htag.
    rewrite decide_False by (by intros ?).
    clear Hchain.
    destruct (call_factory q el sc None (set_elem (Some el) st))
      as [st2 r] eqn:Hcall.
    pose proof (call_factory_same_pass factory_key kwargs _ _ _ _ _ _ _ Hcall)
      as (_ & _ & Hmiss & _).
    apply call_factory_logs in Hcall as (Hg2 & Hel2 & Hrq2 & Hlog).
    destruct r as [[rq x]|err].
    + unfold Namespaces.else_clause. cbn. rewrite Hel2. cbn.
      rewrite decide_False by (by intros ?).
      destruct (decide (rq ≠ q)) as [|Hname%dec_stable]; [done|]. subst rq.
      intros [= <-] _. destruct Hlog as [Hlog|[_ ?]]; [|done].
      exists [(q, x)], x. cbn. rewrite Hlog.
      split_and!; [done.. | by rewrite lookup_insert_eq | done].
    + destruct Hlog as [Hlog|[-> [= ->]]]; [|done].
      destruct (is_deferral err); [|done].
      intros Hrun Hret. exfalso.
      pose proof (except_clause_calls q err st2) as Hc. rewrite Hrun in Hc.
      cbn in Hc. rewrite Hlog in Hc. cbn in Hc.
      specialize (Hret _ Hc). apply Forall_inv in Hret. exact Hret.
  - subst l. destruct links as [|[el sc] links]; [done|].
    apply Hchain.
Qed.

Lemma pass_loop_calls_extend names (st : bstate W) :
  ∃ cs, calls (final_state (pass_loop names st)) = calls st ++ cs.
Proof.
  revert st. induction names as [|q0 rest IH]; intros st.
  - exists []. cbn. by rewrite app_nil_r.
  - cbn [Namespaces.pass_loop].
    destruct (process_key_frame factory_key tag0 kwargs built q0
                (set_pending rest st)) as (_ & _ & cs1 & Hcs1 & _).
    destruct (process_key q0 (set_pending rest st)) as [st1|e st1|e st1];
      cbn in Hcs1; [|by exists cs1..].
    destruct (IH st1) as [cs2 Hcs2]. exists (cs1 ++ cs2).
    by rewrite Hcs2, Hcs1, (assoc_L (++)).
Qed.

Lemma calls_for_app q (cs1 cs2 : list fcall) :
  calls_for q (cs1 ++ cs2) = calls_for q cs1 ++ calls_for q cs2.
Proof. apply filter_app. Qed.

Lemma calls_for_own q (cs : list fcall) :
  Forall (λ c, fc_key c = q) cs → calls_for q cs = cs.
Proof.
  unfold calls_for. induction 1 as [|c cs Hc _ IH]; [done|].
  by rewrite filter_cons_True, IH.
Qed.

Lemma chain_calls_own q prev links rs :
  Forall (λ c, fc_key c = q) (chain_calls q prev links rs).
Proof.
  revert prev rs. induction links as [|[el sc] links IH]; intros prev [|r rs];
    cbn; try by apply Forall_nil.
  apply Forall_cons. split; [done|apply IH].
Qed.

(** The pass that visits [q] resolves its chain, when it ends normally
    and every invocation it logged for [q] returned. *)
Lemma pass_loop_returned q en links names (st st' : bstate W) :
  NoDup names → q ∈ names →
  xsd_globals st !! q = Some en →
  items_of (Some en) = as_items links →
  links ≠ [] →
  Forall (λ l, tag l.1 = tag0) links →
  q ∉ missing st →
  pass_loop names st = Done st' →
  (∀ cs, calls st' = calls st ++ cs → Forall returned (calls_for q cs)) →
  ∃ rs x_last,
    length rs = length links
    ∧ last rs = Some (q, x_last)
    ∧ calls_for q (calls st')
      = calls_for q (calls st) ++ chain_calls q None links rs
    ∧ xsd_globals st' !! q = Some (Single (Inst x_last))
    ∧ q ∉ missing st'.
Proof.
  intros Hnodup Hin Hq Hitems Hne Htag. revert st Hq.
  induction names as [|q0 rest IH]; intros st Hq Hmiss Hrun Hret.
  { by apply elem_of_nil in Hin. }
  apply NoDup_cons in Hnodup as [Hq0 Hnodup].
  cbn [Namespaces.pass_loop] in Hrun.
  pose proof (process_key_frame factory_key tag0 kwargs built q0
                (set_pending rest st)) as Hframe.
  pose proof (process_key_effect factory_key tag0 kwargs built q0
                (set_pending rest st)) as Heff.
  destruct (process_key q0 (set_pending rest st)) as [st1|e st1|e st1] eqn:Hkey;
    [|done..].
  destruct (pass_loop_calls_extend rest st1) as [cs2 Hcs2].
  rewrite Hrun in Hcs2. cbn in Hcs2.
  destruct (decide (q0 = q)) as [->|Hne0].
  - destruct Hframe as (_ & _ & cs1 & Hcs1 & Hown). cbn in Hcs1.
    pose proof (pass_loop_untouched factory_key tag0 kwargs built q rest st1 Hq0)
      as Hrest.
    rewrite Hrun in Hrest. cbn in Hrest. destruct Hrest as [Hmap' Hcalls'].
    destruct (process_key_returned q en links (set_pending rest st) st1 Hq
                Hitems Hne Htag Hkey)
      as (rs & x_last & Hlen & Hlast & Hcalls & Hmap & Hm1).
    { intros cs Hcs. cbn in Hcs. rewrite Hcs1 in Hcs.
      apply app_inv_head in Hcs as <-.
      specialize (Hret (cs1 ++ cs2)). rewrite Hcs2, Hcs1, (assoc_L (++)) in Hret.
      specialize (Hret eq_refl). rewrite calls_for_app in Hret.
      apply Forall_app in Hret as [Hret _]. by rewrite calls_for_own in Hret. }
    exists rs, x_last. split_and!; try done.
    + change (calls (set_pending rest st)) with (calls st) in Hcalls.
      rewrite Hcalls', Hcalls, calls_for_app.
      by rewrite (calls_for_own q (chain_calls _ _ _ _))
        by apply chain_calls_own.
    + by rewrite Hmap'.
    + eapply pass_loop_not_deferred; [exact Hq0| |exact Hrun].
      by rewrite Hm1.
  - apply elem_of_cons in Hin as [?|Hin]; [congruence|].
    destruct Hframe as (Ho & Hd & cs1 & Hcs1 & Hown). cbn in Ho, Hcs1.
    destruct (IH Hnodup Hin st1) as (rs & x_last & ? & ? & Hc & ? & ?);
      [by rewrite Ho| |done| |].
    + destruct Heff as (_ & _ & _ & [[Hm1 _]|(Hm1 & _)]); cbn in Hm1;
        rewrite Hm1; [done|].
      intros [?|Hq1%list_elem_of_singleton]%elem_of_app; [done|congruence].
    + intros cs Hcs. specialize (Hret (cs1 ++ cs)).
      rewrite Hcs, Hcs1, (assoc_L (++)) in Hret. specialize (Hret eq_refl).
      rewrite calls_for_app in Hret. by apply Forall_app in Hret as [_ ?].
    + exists rs, x_last. split_and!; try done. rewrite Hc, Hcs1.
      by rewrite calls_for_app, (calls_for_other q q0 cs1), app_nil_r.
Qed.

(** A call that is not left by an exception of the factory or of the
    interpreter, and whose first pass logs only returning invocations for
    [q], resolves the chain of [q] in that pass and never comes back to
    it. *)
Lemma build_loop_returned q en links names (g : gmap string entry) w log fuel o :
  NoDup names → q ∈ names →
  g !! q = Some en →
  items_of (Some en) = as_items links →
  links ≠ [] →
  Forall (λ l, tag l.1 = tag0) links →
  Forall returned
    (calls_for q
       (calls_since log
          (final_state (pass_loop names (set_deferred [] [] (enter names g w log)))))) →
  build_loop fuel (enter names g w log) = Some o →
  (∀ e st, o ≠ Failed e st) →
  ∃ rs x_last,
    length rs = length links
    ∧ last rs = Some (q, x_last)
    ∧ calls_for q (calls (final_state o))
      = calls_for q log ++ chain_calls q None links rs
    ∧ xsd_globals (final_state o) !! q = Some (Single (Inst x_last)).
Proof.
  intros Hnodup Hin Hq Hitems Hne Htag Hret Hrun Hnofail.
  destruct fuel as [|fuel]; [done|]. cbn [Namespaces.build_loop] in Hrun.
  change (global_names (enter names g w log)) with names in Hrun.
  destruct (pass_loop names (set_deferred [] [] (enter names g w log)))
    as [st1|e st1|e st1] eqn:Hpass.
  - destruct (pass_loop_returned q en links names
                (set_deferred [] [] (enter names g w log)) st1 Hnodup Hin Hq
                Hitems Hne Htag (not_elem_of_nil q) Hpass)
      as (rs & x_last & Hlen & Hlast & Hcalls & Hmap & Hmiss).
    { intros cs Hcs. cbn in Hcs, Hret. unfold calls_since in Hret.
      cbn in Hret. by rewrite Hcs, drop_app_length in Hret. }
    exists rs, x_last.
    change (calls (set_deferred [] [] (enter names g w log))) with log in Hcalls.
    destruct (missing st1) as [|q1 m] eqn:Hm.
    + injection Hrun as <-. by split_and!.
    + apply (build_loop_untouched factory_key tag0 kwargs built q) in Hrun
        as [Hmap' Hcalls'].
      * change (xsd_globals (next_pass st1)) with (xsd_globals st1) in Hmap'.
        change (calls (next_pass st1)) with (calls st1) in Hcalls'.
        rewrite Hmap', Hcalls'. by split_and!.
      * cbn. by rewrite Hm.
  - by apply (first_pass_not_exhausted factory_key tag0 kwargs built) in Hpass.
  - injection Hrun as <-. by destruct (Hnofail e st1).
Qed.

End ChainRuns.

(** ** The order of a chain *)

Section LoaderOrder.
Import Namespaces.
Context `{Externals}.
Variable tag0 : string.
Variable built : Schema → bool.

Lemma for_each_app {A S} (body : A → Cmd S) (l1 l2 : list A) (st : S) :
  for_each body (l1 ++ l2) st
  = match for_each body l1 st with
    | (st', None) => for_each body l2 st'
    | raised => raised
    end.
Proof.
  revert st. induction l1 as [|x l1 IH]; intros st; [done|].
  cbn. destruct (body x st) as [st1 [e|]]; [done|]. apply IH.
Qed.

Lemma for_each_nested {A B S} (body : B → Cmd S) (g : A → list B)
    (l : list A) (st : S) :
  for_each (λ x, for_each body (g x)) l st = for_each body (flat_map g l) st.
Proof.
  revert st. induction l as [|x l IH]; intros st; [done|].
  cbn. rewrite for_each_app.
  destruct (for_each body (g x) st) as [st1 [e|]]; [done|]. apply IH.
Qed.

Lemma declares_name q sc el n :
  get_xsd_attribute el "name" = Return n →
  declares q sc el = true ↔ get_qname (target_namespace sc) n = q.
Proof. intros Hn. unfold declares. rewrite Hn. apply bool_decide_eq_true. Qed.

Lemma stage_redefinitions_staged sc els st st' q :
  for_each (stage_redefinition sc) els st = (st', None) →
  l_globals st' = l_globals st
  ∧ staged_for q (redefinitions st')
    = staged_for q (redefinitions st)
        ++ ((λ el, (el, sc)) <$> filter (λ el, declares q sc el = true) els).
Proof.
  revert st. induction els as [|el els IH]; intros st.
  - intros [= <-]. by rewrite app_nil_r.
  - cbn [for_each]. unfold stage_redefinition at 1.
    destruct (get_xsd_attribute el "name") as [n|e] eqn:Hname; [|done].
    intros [Hg Hs]%IH. cbn in Hg, Hs. split; [done|]. rewrite Hs.
    unfold staged_for. rewrite filter_app, fmap_app, <- (assoc_L (++)).
    f_equal. pose proof (declares_name q sc el n Hname) as Hd.
    destruct (decide (get_qname (target_namespace sc) n = q)) as [Heq|Hneq].
    + rewrite (filter_cons_True _ el) by by apply Hd.
      by rewrite filter_cons_True by done.
    + rewrite (filter_cons_False _ el) by by rewrite Hd.
      by rewrite filter_cons_False by done.
Qed.

Lemma load_declarations_items sc els st st' q :
  for_each (load_declaration sc) els st = (st', None) →
  redefinitions st' = redefinitions st
  ∧ items_of (l_globals st' !! q)
    = items_of (l_globals st !! q)
        ++ as_items ((λ el, (el, sc)) <$> filter (λ el, declares q sc el = true) els).
Proof.
  revert st. induction els as [|el els IH]; intros st.
  - intros [= <-]. by rewrite app_nil_r.
  - cbn [for_each]. unfold load_declaration at 1.
    destruct (get_xsd_attribute el "name") as [n|e] eqn:Hname; [|done].
    intros [Hr Hi]%IH. cbn in Hr, Hi. split; [done|]. rewrite Hi.
    pose proof (declares_name q sc el n Hname) as Hd.
    destruct (decide (get_qname (target_namespace sc) n = q)) as [Heq|Hneq].
    + rewrite (filter_cons_True _ el) by by apply Hd.
      subst q. rewrite add_declaration_items. cbn.
      by rewrite <- (assoc_L (++)).
    + rewrite (filter_cons_False _ el) by by rewrite Hd.
      by rewrite add_declaration_other.
Qed.

Lemma scan_schemas_items schemas st st' q :
  for_each (scan_schema tag0 built) schemas st = (st', None) →
  items_of (l_globals st' !! q)
  = items_of (l_globals st !! q) ++ as_items (originals_for tag0 built q schemas)
  ∧ staged_for q (redefinitions st')
    = staged_for q (redefinitions st) ++ redefinitions_for tag0 built q schemas.
Proof.
  revert st. induction schemas as [|sc schemas IH]; intros st.
  - intros [= <-]. cbn. by rewrite !app_nil_r.
  - cbn [for_each]. unfold scan_schema at 1.
    unfold originals_for, redefinitions_for. cbn [flat_map].
    fold (originals_for tag0 built q schemas). fold (redefinitions_for tag0 built q schemas).
    destruct (built sc).
    + intros [Hi Hs]%IH. by rewrite Hi, Hs.
    + rewrite for_each_nested.
      destruct (for_each (stage_redefinition sc) _ st) as [st1 [e|]] eqn:Hstage;
        [done|].
      destruct (for_each (load_declaration sc) _ st1) as [st2 [e|]] eqn:Hload;
        [done|].
      intros [Hi Hs]%IH.
      apply (stage_redefinitions_staged _ _ _ _ q) in Hstage as [Hg1 Hs1].
      apply (load_declarations_items _ _ _ _ q) in Hload as [Hr2 Hi2].
      split.
      * rewrite Hi, Hi2, Hg1. unfold as_items.
        by rewrite fmap_app, (assoc_L (++)).
      * rewrite Hs, Hr2, Hs1. by rewrite (assoc_L (++)).
Qed.

Lemma apply_redefinitions_items rs (g g' : gmap string entry) q :
  for_each apply_redefinition rs g = (g', None) →
  items_of (g' !! q) = items_of (g !! q) ++ as_items (staged_for q rs).
Proof.
  revert g. induction rs as [|[q0 [el sc]] rs IH]; intros g.
  - intros [= <-]. by rewrite app_nil_r.
  - cbn [for_each]. unfold apply_redefinition at 1.
    destruct (g !! q0) as [en|] eqn:Hq0; [|done].
    intros ->%IH. unfold staged_for. rewrite filter_cons. cbn [fst].
    destruct (decide (q0 = q)) as [->|Hne].
    + rewrite add_declaration_items. cbn. by rewrite <- (assoc_L (++)).
    + by rewrite add_declaration_other.
Qed.

(** A successful load appends to each entry the original declarations of
    its name, and after them the redefinitions of its name, both in the
    order of the schemas. *)
Lemma load_xsd_globals_order (g g' : gmap string entry) schemas q :
  load_xsd_globals tag0 built g schemas = (g', None) →
  items_of (g' !! q)
  = items_of (g !! q)
      ++ as_items (originals_for tag0 built q schemas ++ redefinitions_for tag0 built q schemas).
Proof.
  unfold load_xsd_globals.
  destruct (for_each (scan_schema tag0 built) schemas _) as [st [e|]] eqn:Hscan;
    [done|].
  intros Happly%(apply_redefinitions_items _ _ _ q).
  apply (scan_schemas_items _ _ _ q) in Hscan as [Hi Hs]. cbn in Hi, Hs.
  rewrite Happly, Hi, Hs. unfold as_items. by rewrite fmap_app, (assoc_L (++)).
Qed.

(** Every declaration the loader adds carries the tag of its kind. *)
Lemma loaded_links_tag q schemas :
  Forall (λ l, tag l.1 = tag0)
    (originals_for tag0 built q schemas ++ redefinitions_for tag0 built q schemas).
Proof.
  apply Forall_app. split; apply Forall_forall; intros [el sc] Hin;
    apply list_elem_of_In, in_flat_map in Hin as (sc' & _ & Hin);
    destruct (built sc'); try (by destruct Hin);
    apply list_elem_of_In, list_elem_of_fmap in Hin as (el' & [= <- <-] & Hin);
    apply list_elem_of_filter in Hin as [_ Hin]; cbn.
  - by apply scan_single_tag in Hin.
  - apply list_elem_of_In, in_flat_map in Hin as (r & _ & Hin).
    apply list_elem_of_In in Hin. by apply scan_single_tag in Hin.
Qed.

End LoaderOrder.

(** C6: the loader appends to the entry of a name the original
    declarations of that name and then its redefinitions, both in the
    order in which the schemas are given; and when a key holds a chain of
    N raw declarations that all carry the builder's tag, and every
    invocation the first pass of the builder makes for that key returns,
    a call of the builder that is not left by another exception invokes
    the factory for that key exactly N times, on the links in chain order,
    the first time with no previous instance and then with the instance
    the call before returned, and leaves the last instance as the value of
    the key. *)
Theorem chain_resolved_in_registration_order `{Namespaces.Externals} {W : Type}
    (factory_key tag0 : string) (kwargs : Namespaces.Kwargs W)
    (built : Namespaces.Schema → bool) (q : string) :
  (∀ (g g' : gmap string Namespaces.entry) schemas,
     Namespaces.load_xsd_globals tag0 built g schemas = (g', None) →
     items_of (g' !! q)
     = items_of (g !! q)
         ++ as_items (originals_for tag0 built q schemas
                        ++ redefinitions_for tag0 built q schemas))
  ∧ (∀ fuel (g : gmap string Namespaces.entry) en links w log o,
       g !! q = Some en →
       items_of (Some en) = as_items links →
       links ≠ [] →
       Forall (λ l, Namespaces.tag l.1 = tag0) links →
       Forall returned
         (calls_for q
            (calls_since log
               (final_state (first_pass factory_key built g tag0 kwargs w log)))) →
       Namespaces.build_xsd_map factory_key built fuel g tag0 kwargs w log
       = Some o →
       (∀ e st, o ≠ Namespaces.Failed e st) →
       ∃ rs x_last,
         length rs = length links
         ∧ last rs = Some (q, x_last)
         ∧ calls_for q (Namespaces.calls (final_state o))
           = calls_for q log ++ chain_calls q None links rs
         ∧ Namespaces.xsd_globals (final_state o) !! q
           = Some (Namespaces.Single (Namespaces.Inst x_last))).
Proof.
  split.
  - intros g g' schemas. apply load_xsd_globals_order.
  - intros fuel g en links w log o Hq Hitems Hne Htag Hret Hrun Hnofail.
    eapply (build_loop_returned factory_key tag0 kwargs built q en links);
      try done.
    + rewrite Namespaces.set_iter_perm. apply NoDup_elements.
    + rewrite Namespaces.set_iter_perm. apply elem_of_elements, elem_of_dom.
      by eexists.
Qed.

(** A schema that redefines the attribute group [B] is registered before
    the schema that declares [A] and [B]: the chain of [B] still starts
    with the original. The factory refuses [B] as long as [A] is not
    built, as on the map the builder is given; the first pass builds [A]
    before it comes to [B], and makes two calls for [B], the second on the
    redefinition with the first instance as the previous one. *)
Lemma chain_resolved_in_registration_order_witness :
  let schemas := [Sample.redefining_b; Sample.two_groups] in
  let links := [(Sample.group_b, Sample.two_groups);
                (Sample.redefined_b, Sample.redefining_b)] in
  let factory := Sample.ref_factory Sample.backward_refs in
  let g := (Namespaces.load_xsd_globals (H := Sample.externals)
              Sample.attribute_group_tag (λ _, false) ∅ schemas).1 in
  items_of (g !! "B") = as_items links
  ∧ factory 0 g Sample.group_b Sample.two_groups None false
    = (0, Namespaces.Raise (Namespaces.XMLSchemaTypeError "not yet resolvable"))
  ∧ ∃ o rs x_last,
      Namespaces.build_xsd_map (H := Sample.externals) "attribute_group_factory"
        (λ _, false) 3 g Sample.attribute_group_tag
        (Sample.kwargs_with factory) 0 []
      = Some o
      ∧ length rs = 2
      ∧ last rs = Some ("B", x_last)
      ∧ calls_for "B" (Namespaces.calls (final_state o))
        = chain_calls "B" None links rs
      ∧ Namespaces.xsd_globals (final_state o) !! "B"
        = Some (Namespaces.Single (Namespaces.Inst x_last)).
Proof.
  intros schemas links factory g.
  pose proof (chain_resolved_in_registration_order (H := Sample.externals)
                "attribute_group_factory" Sample.attribute_group_tag
                (Sample.kwargs_with factory) (λ _, false) "B")
    as [Hload Hbuild].
  split_and!.
  - specialize (Hload ∅ g schemas). rewrite Hload; [|reflexivity].
    reflexivity.
  - reflexivity.
  - assert (∃ o, Namespaces.build_xsd_map (H := Sample.externals)
                   "attribute_group_factory" (λ _, false) 3 g
                   Sample.attribute_group_tag (Sample.kwargs_with factory) 0 []
                 = Some o ∧ ∀ e st, o ≠ Namespaces.Failed e st)
      as (o & Hrun & Hnofail).
    { eexists. split; [vm_compute; reflexivity | discriminate]. }
    exists o.
    destruct (Hbuild 3 g (Namespaces.Chain (as_items links)) links 0 [] o)
      as (rs & x_last & Hlen & Hlast & Hcalls & Hmap);
      [reflexivity
      |reflexivity
      |discriminate
      |by repeat constructor
      |vm_compute; by repeat constructor
      |exact Hrun
      |exact Hnofail
      |exists rs, x_last; by split_and!].
Defined.

(** ** Properties of the registry *)

Section RegistryFacts.
Import Namespaces.
Context `{Externals} {W : Type}.

(** A call is served from the cache whenever the cache has the key,
    whatever the maps hold by then. *)
Lemma get_globals_hit map_name namespace fqn_keys (self : XsdGlobals W) v :
  _view_cache self !! (map_name, namespace, fqn_keys) = Some v →
  get_globals map_name namespace fqn_keys self = (v, self).
Proof. intros Hhit. unfold get_globals. by rewrite Hhit. Qed.

Lemma get_globals_caches map_name namespace fqn_keys (self : XsdGlobals W) :
  _view_cache (get_globals map_name namespace fqn_keys self).2
    !! (map_name, namespace, fqn_keys)
  = Some (get_globals map_name namespace fqn_keys self).1.
Proof.
  unfold get_globals.
  destruct (_view_cache self !! _) as [v|] eqn:Hhit; cbn; [done|].
  by rewrite lookup_insert_eq.
Qed.

End RegistryFacts.

(** ** Resolved maps *)

Lemma is_instance_ready T en : is_instance en → ready T en.
Proof. by destruct en as [[x|el sc|j]|l]. Qed.

Lemma resolved_all_ready T g : resolved g → all_ready T g.
Proof. intros Hres q en Hq. apply is_instance_ready. by apply (Hres q). Qed.

Lemma link_ok_head_ok T i : link_ok T i → head_ok T i.
Proof. by destruct i. Qed.

Section ReadyEntries.
Import Namespaces.
Context {W : Type}.
Variable factory_key : string.
Variable tag0 : string.
Variable kwargs : Kwargs W.
Variable built : Schema → bool.

Local Abbreviation call_factory := (call_factory (W := W) factory_key kwargs).
Local Abbreviation chain_loop := (chain_loop (W := W) factory_key tag0 kwargs).
Local Abbreviation try_body := (try_body (W := W) factory_key tag0 kwargs built).
Local Abbreviation else_clause := (else_clause (W := W) tag0).
Local Abbreviation process_key := (process_key (W := W) factory_key tag0 kwargs built).
Local Abbreviation pass_loop := (pass_loop (W := W) factory_key tag0 kwargs built).
Local Abbreviation build_loop := (build_loop (W := W) factory_key tag0 kwargs built).

Lemma chain_loop_ready q h tl rest xi st :
  xsd_globals st !! q = Some (Chain (h :: tl)) →
  Forall (link_ok tag0) rest →
  ∃ h', xsd_globals (flow_state (chain_loop q rest xi st)) !! q
        = Some (Chain (h' :: tl))
        ∧ (head_ok tag0 h → head_ok tag0 h')
        ∧ match chain_loop q rest xi st with
          | FContinue _ => False
          | FElse xi' st' =>
              (rest = [] ∧ xi' = xi ∧ l_elem st' = l_elem st)
              ∨ just_built tag0 xi' st'
          | FExcept _ _ => True
          end.
Proof.
  revert h xi st. induction rest as [|[x|el sc|j] rest IH];
    intros h xi st Hq Hrest.
  - exists h. split_and!; [done|done|by left].
  - by apply Forall_cons in Hrest as [[] _].
  - apply Forall_cons in Hrest as [Hel Hrest]. cbn in Hel.
    cbn [Namespaces.chain_loop]. rewrite decide_False by (by intros ?).
    destruct (call_factory q el sc xi (set_elem (Some el) st))
      as [st2 [[rq x]|err]] eqn:Hcall;
      apply call_factory_frame in Hcall as (_ & Hg & Hle & _); cbn in Hg, Hle.
    + destruct (IH (Inst x) (Some x) (set_head q x (set_res_qname rq st2)))
        as (h' & Hq' & Hh' & Hfl); [|done|].
      { cbn. by rewrite lookup_alter_eq, Hg, Hq. }
      exists h'. split_and!; [done | intros _; by apply Hh' |].
      destruct (chain_loop q rest _ _) as [st3|xi' st3|err st3]; [done| |done].
      right. destruct Hfl as [(_ & -> & Hl)|Hfl]; [|done].
      split; [done|]. exists el. cbn in Hl. by rewrite Hl, Hle.
    + exists h. cbn. rewrite Hg. by split_and!.
  - by apply Forall_cons in Hrest as [[] _].
Qed.

(** The entry of [q] when an iteration on a ready entry has ended
    normally: still ready, and either resolved or deferred. *)
Lemma process_key_ready q en st st' :
  xsd_globals st !! q = Some en → ready tag0 en →
  process_key q st = Done st' →
  (∃ en', xsd_globals st' !! q = Some en' ∧ ready tag0 en')
  ∧ (instance_at st' q ∨ q ∈ missing st').
Proof.
  intros Hq Hready Hrun.
  assert (Hdefer : ∀ err st1 h tl,
             xsd_globals st1 !! q = Some (match tl with
                                          | None => Single h
                                          | Some tl => Chain (h :: tl)
                                          end) →
             match tl with
             | None => head_ok tag0 h
             | Some tl => head_ok tag0 h ∧ tl ≠ [] ∧ Forall (link_ok tag0) tl
             end →
             except_clause q err st1 = Done st' →
             (∃ en', xsd_globals st' !! q = Some en' ∧ ready tag0 en')
             ∧ (instance_at st' q ∨ q ∈ missing st')).
  { intros err st1 h tl Hq1 Hok. unfold except_clause.
    destruct (l_elem st1) as [|[el|]]; [done| |done]. cbn zeta.
    destruct (decide _); [done|]. intros [= <-]. cbn. split.
    - eexists. split; [exact Hq1|]. by destruct tl.
    - right. apply elem_of_app. right. by left. }
  assert (Hstore : ∀ xi st1,
             just_built tag0 xi st1 → else_clause q xi st1 = Done st' →
             (∃ en', xsd_globals st' !! q = Some en' ∧ ready tag0 en')
             ∧ (instance_at st' q ∨ q ∈ missing st')).
  { intros xi st1 ([x ->] & el & Hel & Htag). unfold Namespaces.else_clause.
    rewrite Hel. rewrite decide_False by (by intros ?).
    destruct (l_res_qname st1) as [|rq]; [done|].
    destruct (decide _); [done|]. intros [= <-]. unfold instance_at. cbn.
    rewrite lookup_insert_eq. split; [|left; by eexists].
    eexists. by split. }
  unfold Namespaces.process_key in Hrun. rewrite Hq in Hrun.
  destruct en as [[x|el sc|j]|[|h tl]]; cbn in Hready; try done.
  - (* a built instance *)
    cbn [Namespaces.try_body] in Hrun.
    assert (Hkeep : ∀ st1 : bstate W, xsd_globals st1 = xsd_globals st →
               (∃ en', xsd_globals st1 !! q = Some en' ∧ ready tag0 en')
               ∧ (instance_at st1 q ∨ q ∈ missing st1)).
    { intros st1 Hg. unfold instance_at. rewrite Hg, Hq.
      split; [|left; by eexists]. eexists. by split. }
    destruct (elem x) as [el|] eqn:Hel.
    2: { injection Hrun as <-. by apply Hkeep. }
    destruct (decide (tag el ≠ tag0)) as [|Htag].
    { injection Hrun as <-. by apply Hkeep. }
    destruct (schema x) as [sc|]; [|done].
    destruct (built sc). { injection Hrun as <-. by apply Hkeep. }
    destruct (call_factory q el sc (Some x) (set_elem (Some el) st))
      as [st2 [[rq xi]|err]] eqn:Hcall;
      apply call_factory_frame in Hcall as (_ & Hg & Hle & _); cbn in Hg, Hle.
    + apply (Hstore (Some xi) (set_res_qname rq st2)); [|done].
      split; [done|]. exists el. cbn. rewrite Hle. split; [done|].
      by destruct (decide (tag el = tag0)); [|destruct Htag].
    + destruct (is_deferral err); [|done].
      apply (Hdefer err st2 (Inst x) None); [by rewrite Hg|done|done].
  - (* a raw declaration *)
    cbn [Namespaces.try_body] in Hrun.
    rewrite decide_False in Hrun by (by intros ?).
    destruct (call_factory q el sc None (set_elem (Some el) st))
      as [st2 [[rq xi]|err]] eqn:Hcall;
      apply call_factory_frame in Hcall as (_ & Hg & Hle & _); cbn in Hg, Hle.
    + apply (Hstore (Some xi) (set_res_qname rq st2)); [|done].
      split; [done|]. exists el. cbn. by rewrite Hle.
    + destruct (is_deferral err); [|done].
      apply (Hdefer err st2 (Decl el sc) None); [by rewrite Hg|done|done].
  - (* a chain *)
    destruct Hready as (Hh & Hne & Htl).
    assert (∃ rest xi, try_body q (Chain (h :: tl)) st = chain_loop q rest xi st
                       ∧ rest ≠ [] ∧ Forall (link_ok tag0) rest)
      as (rest & xi & Hbody & Hrest & Hlinks).
    { destruct h as [x|el sc|j]; [| |done].
      - by exists tl, (Some x).
      - exists (Decl el sc :: tl), None. split_and!; [done|done|].
        by constructor. }
    rewrite Hbody in Hrun.
    destruct (chain_loop_ready q h tl rest xi st Hq Hlinks)
      as (h' & Hq' & Hh' & Hfl).
    destruct (chain_loop q rest xi st) as [st1|xi' st1|err st1]; [done| |].
    + destruct Hfl as [(-> & _)|Hfl]; [done|]. by apply (Hstore xi' st1).
    + destruct (is_deferral err); [|done].
      apply (Hdefer err st1 h' (Some tl)); [done| |done]. by split_and!; auto.
Qed.

Lemma process_key_all_ready q st st' :
  all_ready tag0 (xsd_globals st) →
  process_key q st = Done st' →
  all_ready tag0 (xsd_globals st')
  ∧ (instance_at st' q ∨ q ∈ missing st').
Proof.
  intros Hall Hrun.
  pose proof (process_key_frame factory_key tag0 kwargs built q st) as Hframe.
  rewrite Hrun in Hframe. destruct Hframe as (Hother & _). cbn in Hother.
  destruct (xsd_globals st !! q) as [en|] eqn:Hq.
  - destruct (process_key_ready q en st st' Hq (Hall q en Hq) Hrun)
      as ((en' & Hq' & Hready') & Hdone).
    split; [|done]. intros q1 en1 Hq1.
    destruct (decide (q1 = q)) as [->|Hne]; [congruence|].
    rewrite Hother in Hq1 by done. by apply (Hall q1).
  - unfold Namespaces.process_key in Hrun. by rewrite Hq in Hrun.
Qed.

(** After a pass that ended normally, every key of the pass is resolved or
    deferred, and the other entries are as they were. *)
Lemma pass_loop_all_ready names st st' :
  all_ready tag0 (xsd_globals st) →
  pass_loop names st = Done st' →
  all_ready tag0 (xsd_globals st')
  ∧ (∀ q, q ∈ names → instance_at st' q ∨ q ∈ missing st')
  ∧ (∀ q, q ∈ missing st → q ∈ missing st').
Proof.
  revert st. induction names as [|q0 rest IH]; intros st Hall Hrun.
  - injection Hrun as <-. split_and!; [done| |done].
    by intros q ?%elem_of_nil.
  - cbn [Namespaces.pass_loop] in Hrun.
    destruct (process_key q0 (set_pending rest st)) as [st1|e st1|e st1]
      eqn:Hkey; [|done..].
    pose proof (process_key_effect factory_key tag0 kwargs built q0
                  (set_pending rest st)) as Heff.
    rewrite Hkey in Heff. destruct Heff as (_ & _ & _ & Hmiss). cbn in Hmiss.
    apply process_key_all_ready in Hkey as [Hall1 Hq0]; [|done].
    destruct (IH st1 Hall1 Hrun) as (Hall' & Hnames & Hkeep).
    split_and!; [done| |].
    + intros q [->|Hin]%elem_of_cons; [|by apply Hnames].
      destruct (decide (q0 ∈ rest)) as [Hin|Hnotin]; [by apply Hnames|].
      destruct Hq0 as [[x Hx]|Hdef]; [left|right; by apply Hkeep].
      exists x.
      pose proof (pass_loop_untouched factory_key tag0 kwargs built q0 rest st1
                    Hnotin) as [Hsame _].
      rewrite Hrun in Hsame. cbn in Hsame. by rewrite Hsame.
    + intros q Hin. apply Hkeep.
      destruct Hmiss as [[-> _]|(-> & _)]; [done|].
      apply elem_of_app. by left.
Qed.

(** A call that returns normally from a map of ready entries leaves a
    resolved map. *)
Lemma build_loop_resolved fuel st st' :
  all_ready tag0 (xsd_globals st) →
  (∀ q, is_Some (xsd_globals st !! q) → q ∈ global_names st ∨ instance_at st q) →
  build_loop fuel st = Some (Done st') →
  resolved (xsd_globals st').
Proof.
  revert st. induction fuel as [|fuel IH]; intros st Hall Hcover Hrun; [done|].
  cbn [Namespaces.build_loop] in Hrun.
  destruct (pass_loop (global_names st) (set_deferred [] [] st))
    as [st1|e st1|e st1] eqn:Hpass; [|done..].
  pose proof (pass_loop_all_ready (global_names st) (set_deferred [] [] st)
                st1 Hall Hpass) as (Hall1 & Hnames & _).
  assert (Hcover1 : ∀ q, is_Some (xsd_globals st1 !! q) →
                         q ∈ missing st1 ∨ instance_at st1 q).
  { intros q Hq. destruct (decide (q ∈ global_names st)) as [Hin|Hnotin].
    - destruct (Hnames q Hin); auto.
    - pose proof (pass_loop_untouched factory_key tag0 kwargs built q
                    (global_names st) (set_deferred [] [] st) Hnotin)
        as [Hsame _].
      rewrite Hpass in Hsame. cbn in Hsame. right.
      unfold instance_at. rewrite Hsame. rewrite Hsame in Hq.
      by destruct (Hcover q Hq). }
  destruct (missing st1) as [|q1 m] eqn:Hm.
  - injection Hrun as <-. intros q en Hq.
    destruct (Hcover1 q) as [Hin|[x Hx]]; [by eexists|by apply elem_of_nil in Hin|].
    rewrite Hx in Hq. by injection Hq as <-.
  - apply (IH (next_pass st1)); [done| |done].
    intros q Hq. cbn. rewrite Hm. by apply Hcover1.
Qed.

End ReadyEntries.

(** The builder resolves a map of ready entries. *)
Lemma build_xsd_map_resolved `{Namespaces.Externals} {W : Type}
    (factory_key : string) (built : Namespaces.Schema → bool) (fuel : nat)
    (g : gmap string Namespaces.entry) (tag0 : string)
    (kwargs : Namespaces.Kwargs W) (w : W) (log : list Namespaces.fcall) st :
  all_ready tag0 g →
  Namespaces.build_xsd_map factory_key built fuel g tag0 kwargs w log
  = Some (Namespaces.Done st) →
  resolved (Namespaces.xsd_globals st).
Proof.
  intros Hall Hrun. eapply build_loop_resolved; [|  |exact Hrun]; [done|].
  intros q Hq. left. cbn. rewrite Namespaces.set_iter_perm.
  by apply elem_of_elements, elem_of_dom.
Qed.

(** ** What a load leaves in a resolved map *)

Lemma for_each_invariant {A S : Type} (I : S → Prop)
    (body : A → Namespaces.Cmd S) (l : list A) (st st' : S) raised :
  (∀ x st1 st2 r, x ∈ l → I st1 → body x st1 = (st2, r) → I st2) →
  I st → Namespaces.for_each body l st = (st', raised) → I st'.
Proof.
  revert st. induction l as [|x l IH]; intros st Hstep Hst.
  - by intros [= <- _].
  - cbn. destruct (body x st) as [st1 [e|]] eqn:Hbody.
    + intros [= <- _]. eapply Hstep; [by left|exact Hst|exact Hbody].
    + apply IH.
      * intros y st2 st3 r Hy. apply Hstep. by right.
      * eapply Hstep; [by left|exact Hst|exact Hbody].
Qed.

Section LoaderReady.
Import Namespaces.
Context `{Externals}.
Variable tag0 : string.
Variable built : Schema → bool.

Lemma add_declaration_ready q el sc (g : gmap string entry) :
  all_ready tag0 g → tag el = tag0 →
  all_ready tag0 (add_declaration q (Decl el sc) g).
Proof.
  intros Hall Htag. unfold add_declaration.
  destruct (g !! q) as [[i|l]|] eqn:Hq; apply map_Forall_insert_2; try done.
  - specialize (Hall q _ Hq). cbn in Hall. cbn. split_and!; [done|done|].
    by repeat constructor.
  - specialize (Hall q _ Hq). destruct l as [|h tl]; [done|].
    destruct Hall as (Hh & Hne & Htl). cbn. split_and!; [done| |].
    + by destruct tl.
    + apply Forall_app. split; [done|]. by repeat constructor.
Qed.

Lemma scan_schema_ready sc st st' raised :
  scan_ready tag0 st → scan_schema tag0 built sc st = (st', raised) → scan_ready tag0 st'.
Proof.
  intros Hst. unfold scan_schema. destruct (built sc); [by intros [= <- _]|].
  rewrite for_each_nested.
  destruct (for_each (stage_redefinition sc) _ st) as [st1 r1] eqn:Hstage.
  assert (Hst1 : scan_ready tag0 st1).
  { eapply for_each_invariant; [|exact Hst|exact Hstage].
    intros child st2 st3 r Hin [Hg Hr]. unfold stage_redefinition.
    destruct (get_xsd_attribute child "name"); intros [= <- _]; [|done].
    split; [done|]. cbn. apply Forall_app. split; [done|].
    repeat constructor. cbn.
    apply list_elem_of_In, in_flat_map in Hin as (r0 & _ & Hin).
    apply list_elem_of_In in Hin. by apply scan_single_tag in Hin. }
  destruct r1 as [e|]; [by intros [= <- _]|].
  intros Hload. eapply for_each_invariant; [|exact Hst1|exact Hload].
  intros el st2 st3 r Hin [Hg Hr]. unfold load_declaration.
  destruct (get_xsd_attribute el "name"); intros [= <- _]; [|done].
  split; [|done]. cbn. apply add_declaration_ready; [done|].
  by apply scan_single_tag in Hin.
Qed.

(** Whatever way a load ends, it leaves a map of ready entries. *)
Lemma load_xsd_globals_ready (g g' : gmap string entry) schemas raised :
  all_ready tag0 g →
  load_xsd_globals tag0 built g schemas = (g', raised) →
  all_ready tag0 g'.
Proof.
  intros Hall. unfold load_xsd_globals.
  destruct (for_each (scan_schema tag0 built) schemas _) as [st r] eqn:Hscan.
  assert (Hst : scan_ready tag0 st).
  { eapply for_each_invariant; [|  |exact Hscan].
    - intros sc st1 st2 r1 _. apply scan_schema_ready.
    - split; [done|constructor]. }
  destruct Hst as [Hg Hr]. destruct r as [e|]; [by intros [= <- _]|].
  intros Happly.
  assert (Hboth : all_ready tag0 g'
                  ∧ Forall (λ r, tag r.2.1 = tag0) (redefinitions st));
    [|by destruct Hboth].
  eapply (for_each_invariant
            (λ g1, all_ready tag0 g1
                   ∧ Forall (λ r, tag r.2.1 = tag0) (redefinitions st)));
    [|split; [exact Hg|exact Hr]|exact Happly].
  intros [q [el sc]] g1 g2 r1 Hin [Hg1 _]. unfold apply_redefinition.
  destruct (g1 !! q); intros [= <- _]; [|done].
  split; [|done]. apply add_declaration_ready; [done|].
  rewrite Forall_forall in Hr. by apply (Hr _ Hin).
Qed.

End LoaderReady.

(** ** What a build leaves in the registry *)

Section BuildResolved.
Import Namespaces.
Context `{Externals} {W : Type}.

Lemma registry_resolved_ready T m (self : XsdGlobals W) :
  registry_resolved self → registry_ready T m self.
Proof.
  intros Hres. split; [apply resolved_all_ready, Hres|]. intros m' _. apply Hres.
Qed.

Lemma get_map_set_map m m' g (self : XsdGlobals W) :
  get_map m' (set_map m g self) = if decide (m' = m) then g else get_map m' self.
Proof. by destruct m, m'. Qed.

Lemma get_map_commit m m' st (self : XsdGlobals W) :
  get_map m' (commit m st self)
  = if decide (m' = m) then xsd_globals st else get_map m' self.
Proof. by destruct m, m'. Qed.

Lemma and_then_inv (a b : Op) (self self' : XsdGlobals W) :
  and_then a b self = Some (self', None) →
  ∃ self1, a self = Some (self1, None) ∧ b self1 = Some (self', None).
Proof.
  unfold and_then. destruct (a self) as [[self1 [e|]]|]; [done| |done].
  intros Hb. by exists self1.
Qed.

Lemma load_step_ready T m (self self' : XsdGlobals W) raised :
  registry_resolved self →
  load_step T m self = Some (self', raised) →
  registry_ready T m self'.
Proof.
  intros Hres. unfold load_step.
  destruct (load_xsd_globals T (is_built self) (get_map m self)
              (iter_schemas self)) as [g r] eqn:Hload.
  intros [= <- _]. split.
  - rewrite get_map_set_map, decide_True by done.
    eapply load_xsd_globals_ready; [|exact Hload].
    apply resolved_all_ready, Hres.
  - intros m' Hne. rewrite get_map_set_map, decide_False by done. apply Hres.
Qed.

Lemma build_step_resolved fuel key T m local_groups (self self' : XsdGlobals W) :
  registry_ready T m self →
  build_step fuel key T m local_groups self = Some (self', None) →
  registry_resolved self'.
Proof.
  intros [Hready Hothers]. unfold build_step.
  destruct (build_xsd_map key (is_built self) fuel (get_map m self) T _ _ _)
    as [[st|e st|e st]|] eqn:Hrun; [|done..].
  intros [= <-] m'. rewrite get_map_commit.
  destruct (decide (m' = m)) as [->|Hne]; [|by apply Hothers].
  by eapply build_xsd_map_resolved.
Qed.

Lemma resolved_union (a b : gmap string entry) :
  resolved a → resolved b → resolved (a ∪ b).
Proof.
  intros Ha Hb q en [Hq|[_ Hq]]%lookup_union_Some_raw;
    [by apply (Ha q)|by apply (Hb q)].
Qed.

Lemma resolved_group_elements (xs : list XsdBase) (acc : gmap string entry) :
  resolved acc →
  resolved (foldl (λ acc e, <[name e := Single (Inst e)]> acc) acc xs).
Proof.
  revert acc. induction xs as [|x xs IH]; intros acc Hacc; [done|].
  cbn. apply IH. by apply map_Forall_insert_2.
Qed.

Lemma update_base_elements_resolved (self self' : XsdGlobals W) raised :
  registry_resolved self →
  update_base_elements self = Some (self', raised) →
  registry_resolved self'.
Proof.
  intros Hres. unfold update_base_elements.
  destruct (for_each add_group_elements _ _) as [base r] eqn:Hrun.
  intros [= <- _] m'. rewrite get_map_set_map.
  destruct (decide (m' = base_elements_map)) as [->|Hne]; [|apply Hres].
  eapply (for_each_invariant resolved); [| |exact Hrun].
  - intros group b1 b2 r1 _ Hb1. unfold add_group_elements.
    destruct group as [[x|el sc|j]|l]; intros [= <- _]; try done.
    apply resolved_union; [|done]. apply resolved_group_elements.
    apply map_Forall_empty.
  - apply resolved_union; [apply (Hres elements_map)|apply (Hres base_elements_map)].
Qed.

Lemma mark_built_resolved (self self' : XsdGlobals W) raised :
  registry_resolved self →
  mark_built self = Some (self', raised) →
  registry_resolved self'.
Proof.
  intros Hres [= <- _] m.
  destruct m;
    [apply (Hres types_map) | apply (Hres attributes_map)
    | apply (Hres attribute_groups_map) | apply (Hres groups_map)
    | apply (Hres elements_map) | apply (Hres base_elements_map)].
Qed.

(** An error-free [build()] keeps a resolved registry resolved. *)
Lemma build_preserves_resolved fuel (self self' : XsdGlobals W) :
  registry_resolved self →
  build fuel self = Some (self', None) →
  registry_resolved self'.
Proof.
  intros Hres Hbuild. unfold build, build_steps in Hbuild.
  cbn [foldr] in Hbuild.
  repeat
    (apply and_then_inv in Hbuild as (? & ?%(load_step_ready _ _ _ _ _ Hres) & Hbuild);
     apply and_then_inv in Hbuild as (? & Hres'%build_step_resolved & Hbuild);
     [clear Hres; rename Hres' into Hres|done]).
  repeat
    (apply and_then_inv in Hbuild as (? & Hres'%build_step_resolved & Hbuild);
     [clear Hres; rename Hres' into Hres|by apply registry_resolved_ready]).
  apply and_then_inv in Hbuild
      as (? & Hres'%(update_base_elements_resolved _ _ _ Hres) & Hbuild).
  apply and_then_inv in Hbuild
      as (? & Hres''%(mark_built_resolved _ _ _ Hres') & Hbuild).
  by injection Hbuild as <-.
Qed.

Lemma init_resolved (v : Validator W) flags w :
  registry_resolved (init v flags w).
Proof.
  intros m q en. destruct m; cbn; try by rewrite lookup_empty.
  rewrite lookup_fmap. by destruct (BUILTIN_TYPES v !! q); intros [= <-].
Qed.

Lemma clear_resolved remove_schemas (self : XsdGlobals W) :
  registry_resolved (clear remove_schemas self).
Proof.
  intros m q en. destruct m; cbn; try by rewrite lookup_empty.
  rewrite lookup_fmap.
  by destruct (BUILTIN_TYPES (validator self) !! q); intros [= <-].
Qed.

Lemma register_maps sc (self : XsdGlobals W) m :
  get_map m (register sc self) = get_map m self.
Proof.
  unfold register.
  repeat match goal with
         | |- context [match ?x with _ => _ end] => destruct x
         end; by destruct m.
Qed.

Lemma register_all_resolved schemas (self : XsdGlobals W) :
  registry_resolved self →
  registry_resolved (foldl (λ r sc, register sc r) self schemas).
Proof.
  revert self. induction schemas as [|sc schemas IH]; intros self Hres; [done|].
  cbn. apply IH. intros m. rewrite register_maps. apply Hres.
Qed.

(** C2: take a new registry, register any schemas, and call [build()]:
    when the call returns without raising, every qualified name of each
    of the six maps is mapped to a built instance, neither a raw
    declaration nor a list. *)
Theorem build_leaves_only_instances (v : Validator W) (flags : gset nat)
    (w : W) (schemas : list Schema) (fuel : nat) (self' : XsdGlobals W) :
  build fuel (foldl (λ r sc, register sc r) (init v flags w) schemas)
  = Some (self', None) →
  ∀ m q en, get_map m self' !! q = Some en → ∃ x, en = Single (Inst x).
Proof.
  intros Hbuild m q en Hq.
  apply build_preserves_resolved in Hbuild;
    [|apply register_all_resolved, init_resolved].
  specialize (Hbuild m q en Hq). destruct en as [[x|el sc|j]|l]; try done.
  by exists x.
Qed.

Lemma get_globals_maps m ns fqn (self : XsdGlobals W) m' :
  get_map m' (get_globals m ns fqn self).2 = get_map m' self.
Proof.
  unfold get_globals. destruct (_view_cache self !! _); [done|]. by destruct m'.
Qed.

(** Used as documented, a registry holds only instances between calls. *)
Lemma well_used_resolved (self : XsdGlobals W) :
  well_used self → registry_resolved self.
Proof.
  induction 1 as [v flags w|b self|sc self _ IH|m ns fqn self _ IH
                 |fuel self self' _ IH Hbuild].
  - apply init_resolved.
  - apply clear_resolved.
  - intros m. rewrite register_maps. apply IH.
  - intros m'. rewrite get_globals_maps. apply IH.
  - by eapply build_preserves_resolved.
Qed.

End BuildResolved.

(** A new registry with two schemas, one declaring a simple type and an
    element, the other redefining the simple type: [build()] returns and
    leaves instances only. *)
Lemma build_leaves_only_instances_witness :
  ∃ self',
    Namespaces.build (H := Sample.externals) 4
      (foldl (λ r sc, Namespaces.register sc r)
         (Namespaces.init Sample.validator ∅ 0)
         [Sample.types_schema; Sample.redefining_t])
    = Some (self', None)
    ∧ (∀ m q en, Namespaces.get_map m self' !! q = Some en →
                 ∃ x, en = Namespaces.Single (Namespaces.Inst x))
    ∧ is_Some (Namespaces.types self' !! "T")
    ∧ is_Some (Namespaces.base_elements self' !! "E").
Proof.
  eexists. split; [vm_compute; reflexivity|]. split.
  - apply (build_leaves_only_instances (H := Sample.externals)
             Sample.validator ∅ 0 [Sample.types_schema; Sample.redefining_t] 4).
    vm_compute. reflexivity.
  - split; by eexists.
Defined.

(** Outside the documented use: a first [build()] is left by the
    no-progress error while the complex types are built, and [build()] is
    called again without [clear()]. The second call reloads the schemas on
    top of what the first call left, returns without raising, and leaves
    the name [T] mapped to a list. *)
Example retry_without_clear_keeps_chain :
  let new := foldl (λ r sc, Namespaces.register sc r)
               (Namespaces.init Sample.late_validator ∅ 0)
               [Sample.simple_schema; Sample.complex_schema] in
  ∃ failed e done l,
    Namespaces.build (H := Sample.externals) 4 new = Some (failed, Some e)
    ∧ Namespaces.build (H := Sample.externals) 4 failed = Some (done, None)
    ∧ Namespaces.types done !! "T" = Some (Namespaces.Chain l)
    ∧ length l = 4.
Proof.
  eexists _, _, _, _. split; [vm_compute; reflexivity|].
  split; [vm_compute; reflexivity|]. split; reflexivity.
Qed.

(** With [clear()] between the two calls the second build leaves
    instances only. *)
Example retry_after_clear_resolves :
  let new := foldl (λ r sc, Namespaces.register sc r)
               (Namespaces.init Sample.late_validator ∅ 0)
               [Sample.simple_schema; Sample.complex_schema] in
  ∃ failed e done x,
    Namespaces.build (H := Sample.externals) 4 new = Some (failed, Some e)
    ∧ Namespaces.build (H := Sample.externals) 4 (Namespaces.clear false failed)
      = Some (done, None)
    ∧ Namespaces.types done !! "T"
      = Some (Namespaces.Single (Namespaces.Inst x)).
Proof.
  eexists _, _, _, _. split; [vm_compute; reflexivity|].
  split; [vm_compute; reflexivity|]. reflexivity.
Qed.

(** ** What no step of a build changes *)

Section BuildFrame.
Import Namespaces.
Context `{Externals} {W : Type}.

Lemma steps_app (ops1 ops2 : list (Op (W := W))) (self : XsdGlobals W) :
  foldr and_then (λ s, Some (s, None)) (ops1 ++ ops2) self
  = match foldr and_then (λ s, Some (s, None)) ops1 self with
    | Some (s1, None) => foldr and_then (λ s, Some (s, None)) ops2 s1
    | stopped => stopped
    end.
Proof.
  revert self. induction ops1 as [|op ops1 IH]; intros self; [done|].
  cbn [foldr app]. unfold and_then at 1 3.
  destruct (op self) as [[s1 [e|]]|]; [done| |done]. apply IH.
Qed.

(** A property every step keeps is kept by a sequence of steps, however
    it ends. *)
Lemma steps_invariant (I : XsdGlobals W → Prop) (ops : list (Op (W := W)))
    (self self' : XsdGlobals W) raised :
  Forall (λ op : Op, ∀ s s' r, I s → op s = Some (s', r) → I s') ops →
  I self →
  foldr and_then (λ s, Some (s, None)) ops self = Some (self', raised) →
  I self'.
Proof.
  intros Hops. revert self. induction Hops as [|op ops Hop _ IH]; intros self HI.
  - by intros [= <- _].
  - cbn [foldr]. unfold and_then at 1.
    destruct (op self) as [[s1 [e|]]|] eqn:Hrun; [| |done].
    + intros [= <- _]. by eapply Hop.
    + apply IH. by eapply Hop.
Qed.

Lemma touches_refl P (self : XsdGlobals W) : touches P self self.
Proof. by repeat split. Qed.

Lemma touches_trans P (s1 s2 s3 : XsdGlobals W) :
  touches P s1 s2 → touches P s2 s3 → touches P s1 s3.
Proof.
  intros [(?&?&?&?&?) Hm1] [(?&?&?&?&?) Hm2].
  split; [repeat split; congruence|].
  intros m Hm. by rewrite Hm2, Hm1.
Qed.

Lemma load_step_touches T m (s s' : XsdGlobals W) r :
  load_step T m s = Some (s', r) →
  touches (λ m', m' = m) s s' ∧ built_schemas s' = built_schemas s.
Proof.
  unfold load_step. destruct (load_xsd_globals _ _ _ _) as [g raised].
  intros [= <- _]. split; [|done]. split; [done|].
  intros m' Hm. rewrite get_map_set_map. by rewrite decide_False.
Qed.

Lemma build_step_touches fuel key T m lg (s s' : XsdGlobals W) r :
  build_step fuel key T m lg s = Some (s', r) →
  touches (λ m', m' = m) s s' ∧ built_schemas s' = built_schemas s.
Proof.
  unfold build_step.
  destruct (build_xsd_map _ _ _ _ _ _ _ _) as [[st|e st|e st]|]; [| | |done];
    intros [= <- _]; (split; [|done]); (split; [done|]);
    intros m' Hm; rewrite get_map_commit; by rewrite decide_False.
Qed.

Lemma update_base_elements_touches (s s' : XsdGlobals W) r :
  update_base_elements s = Some (s', r) →
  touches (λ m', m' = base_elements_map) s s'
  ∧ built_schemas s' = built_schemas s
  ∧ outer_world s' = outer_world s
  ∧ factory_log s' = factory_log s.
Proof.
  unfold update_base_elements. destruct (for_each _ _ _) as [base raised].
  intros [= <- _]. split; [|done]. split; [done|].
  intros m' Hm. rewrite get_map_set_map. by rewrite decide_False.
Qed.

Lemma mark_built_touches (s s' : XsdGlobals W) r :
  mark_built s = Some (s', r) →
  touches (λ _, False) s s'
  ∧ r = None
  ∧ built_schemas s' = built_schemas s ∪ list_to_set (sid <$> iter_schemas s)
  ∧ outer_world s' = outer_world s
  ∧ factory_log s' = factory_log s.
Proof.
  unfold mark_built. intros [= <- <-]. by split_and!.
Qed.

Lemma touches_weaken (P Q : MapName → Prop) (s s' : XsdGlobals W) :
  (∀ m, P m → Q m) → touches P s s' → touches Q s s'.
Proof. intros HPQ [? Hm]. split; [done|]. intros m Hn. apply Hm. eauto. Qed.

Lemma build_steps_split fuel :
  build_steps (W := W) fuel
  = global_steps fuel ++ [update_base_elements; mark_built].
Proof. done. Qed.

Lemma global_steps_touch fuel (self s' : XsdGlobals W) r :
  foldr and_then (λ s, Some (s, None)) (global_steps fuel) self = Some (s', r) →
  touches (λ m, m ≠ base_elements_map) self s'
  ∧ built_schemas s' = built_schemas self.
Proof.
  apply (steps_invariant
           (λ s, touches (λ m, m ≠ base_elements_map) self s
                 ∧ built_schemas s = built_schemas self)).
  2:{ split; [apply touches_refl|done]. }
  unfold global_steps. cbn [build_steps take].
  repeat match goal with
         | |- Forall _ (_ :: _) => apply Forall_cons; split
         end; [..|by apply Forall_nil];
    intros s1 s2 r1 [Ht Hb] Hrun;
    (apply load_step_touches in Hrun || apply build_step_touches in Hrun);
    destruct Hrun as [Hstep Hflags];
    (split; [|congruence]);
    (eapply touches_trans; [exact Ht|]);
    (eapply touches_weaken; [|exact Hstep]); by intros m ->.
Qed.

(** How a call of [build] ends: an exception leaves before the schemas
    are marked; otherwise every step was run. *)
Lemma build_inv fuel (self self' : XsdGlobals W) r :
  build fuel self = Some (self', r) →
  (is_Some r
   ∧ touches (λ _, True) self self'
   ∧ built_schemas self' = built_schemas self)
  ∨ (r = None
     ∧ ∃ s1 s2,
         foldr and_then (λ s, Some (s, None)) (global_steps fuel) self
         = Some (s1, None)
         ∧ update_base_elements s1 = Some (s2, None)
         ∧ mark_built s2 = Some (self', None)).
Proof.
  unfold build. rewrite build_steps_split, steps_app.
  destruct (foldr and_then _ (global_steps fuel) self) as [[s1 [e|]]|] eqn:H1;
    [| |done].
  - intros [= <- <-]. left. apply global_steps_touch in H1 as [Ht Hb].
    split_and!; [by eexists| |done]. by eapply touches_weaken.
  - cbn [foldr]. unfold and_then at 1.
    destruct (update_base_elements s1) as [[s2 [e|]]|] eqn:H2; [| |done].
    + intros [= <- <-]. left.
      apply global_steps_touch in H1 as [Ht Hb].
      apply update_base_elements_touches in H2 as (Ht2 & Hb2 & _).
      split_and!; [by eexists| |congruence].
      eapply touches_trans; eapply touches_weaken; try done.
    + unfold and_then. destruct (mark_built s2) as [[s3 r3]|] eqn:H3; [|done].
      pose proof (mark_built_touches _ _ _ H3) as (_ & -> & _).
      intros [= <- <-]. right. split; [done|]. by exists s1, s2.
Qed.

Lemma build_success_inv fuel (self self' : XsdGlobals W) :
  build fuel self = Some (self', None) →
  ∃ s1 s2,
    foldr and_then (λ s, Some (s, None)) (global_steps fuel) self
    = Some (s1, None)
    ∧ update_base_elements s1 = Some (s2, None)
    ∧ mark_built s2 = Some (self', None).
Proof.
  intros [([? [=]] & _)|(_ & Hsteps)]%build_inv. exact Hsteps.
Qed.

Lemma build_same_indices fuel (self self' : XsdGlobals W) r :
  build fuel self = Some (self', r) → same_indices self self'.
Proof.
  intros [(_ & [Hs _] & _)|(-> & s1 & s2 & H1 & H2 & H3)]%build_inv; [done|].
  apply global_steps_touch in H1 as [[Hs1 _] _].
  apply update_base_elements_touches in H2 as [[Hs2 _] _].
  apply mark_built_touches in H3 as [[Hs3 _] _].
  destruct Hs1 as (?&?&?&?&?), Hs2 as (?&?&?&?&?), Hs3 as (?&?&?&?&?).
  repeat split; congruence.
Qed.

End BuildFrame.

(** ** Cached views *)

Section CacheFacts.
Import Namespaces.
Context `{Externals} {W : Type}.

Local Abbreviation add_local namespace :=
  (λ (acc : gmap string entry) (kv : string * entry),
     if decide (namespace = get_namespace kv.1)
     then <[local_name kv.1 := kv.2]> acc else acc).

Lemma local_fold_from namespace (l : list (string * entry)) acc n en :
  foldl (add_local namespace) acc l !! n = Some en →
  acc !! n = Some en
  ∨ ∃ kv, kv ∈ l ∧ namespace = get_namespace kv.1 ∧ local_name kv.1 = n
          ∧ kv.2 = en.
Proof.
  revert acc. induction l as [|kv l IH]; intros acc; [by left|].
  cbn [foldl]. intros [Hacc|(kv' & Hin & Hkv)]%IH.
  - destruct (decide (namespace = get_namespace kv.1)) as [Hns|]; [|by left].
    destruct (decide (local_name kv.1 = n)) as [Hn|Hn].
    + subst n. rewrite lookup_insert_eq in Hacc. injection Hacc as <-.
      right. exists kv. split; [by left|done].
    + rewrite lookup_insert_ne in Hacc by done. by left.
  - right. exists kv'. split; [by right|done].
Qed.

Lemma local_fold_to namespace (l : list (string * entry)) acc k en :
  namespace = get_namespace k →
  (∀ kv, kv ∈ l → namespace = get_namespace kv.1 →
         local_name kv.1 = local_name k → kv = (k, en)) →
  acc !! local_name k = Some en ∨ (k, en) ∈ l →
  foldl (add_local namespace) acc l !! local_name k = Some en.
Proof.
  intros Hns. revert acc. induction l as [|kv l IH]; intros acc Hone Hin.
  - destruct Hin as [Hin|Hin]; [done|]. by apply elem_of_nil in Hin.
  - cbn [foldl]. apply IH.
    { intros kv' Hkv'. apply Hone. by right. }
    destruct (decide (namespace = get_namespace kv.1)) as [Hkv|Hkv].
    + destruct (decide (local_name kv.1 = local_name k)) as [Hn|Hn].
      * left. rewrite (Hone kv) by (done || by left). cbn.
        by rewrite lookup_insert_eq.
      * rewrite lookup_insert_ne by done.
        destruct Hin as [Hin|Hin]; [by left|].
        apply elem_of_cons in Hin as [Heq|Hin]; [by subst kv|by right].
    + destruct Hin as [Hin|Hin]; [by left|].
      apply elem_of_cons in Hin as [Heq|Hin]; [by subst kv|by right].
Qed.

Lemma local_fold_present namespace (l : list (string * entry)) acc n :
  is_Some (acc !! n)
  ∨ (∃ kv, kv ∈ l ∧ namespace = get_namespace kv.1 ∧ local_name kv.1 = n) →
  is_Some (foldl (add_local namespace) acc l !! n).
Proof.
  revert acc. induction l as [|kv l IH]; intros acc.
  - intros [?|(kv & Hin & _)]; [done|]. by apply elem_of_nil in Hin.
  - cbn [foldl]. intros Hn. apply IH.
    destruct Hn as [Hn|(kv' & Hin & Hns & Hname)].
    + left. destruct (decide (namespace = get_namespace kv.1)); [|done].
      destruct (decide (local_name kv.1 = n)) as [<-|Hne].
      * rewrite lookup_insert_eq. by eexists.
      * by rewrite lookup_insert_ne.
    + apply elem_of_cons in Hin as [->|Hin].
      * left. rewrite decide_True by done. rewrite Hname, lookup_insert_eq.
        by eexists.
      * right. by exists kv'.
Qed.

Lemma local_view_items namespace (g : gmap string entry) :
  local_items namespace g (local_view namespace g).
Proof.
  unfold local_view. split.
  - intros n en Hn.
    apply local_fold_from in Hn as [Hn|([k en'] & Hin & Hns & Hname & Hen)].
    { by rewrite lookup_empty in Hn. }
    cbn in *. subst en'. exists k. split_and!; [|done..].
    by apply elem_of_map_to_list.
  - intros k en Hk Hns. split.
    + apply local_fold_present. right. exists (k, en).
      split; [by apply elem_of_map_to_list|done].
    + intros Hinj. apply local_fold_to; [done| |].
      * intros [k' en'] Hin Hns' Hname. cbn in *.
        apply elem_of_map_to_list in Hin.
        assert (k' = k) as -> by (apply Hinj; [by eexists|done..]).
        congruence.
      * right. by apply elem_of_map_to_list.
Qed.

Lemma qualified_view_items namespace (g : gmap string entry) :
  qualified_items namespace g (filter (λ kv, namespace = get_namespace kv.1) g).
Proof. intros k en. by rewrite map_lookup_filter_Some. Qed.

(** A call that finds no view under its key builds one from the map as it
    is, gives it the next identity and caches it. *)
Lemma get_globals_miss map_name namespace fqn_keys (self : XsdGlobals W) :
  _view_cache self !! (map_name, namespace, fqn_keys) = None →
  let again := get_globals map_name namespace fqn_keys self in
  view_id again.1 = next_view_id self
  ∧ (if fqn_keys
     then qualified_items namespace (get_map map_name self) (view_items again.1)
     else local_items namespace (get_map map_name self) (view_items again.1))
  ∧ _view_cache again.2
    = <[(map_name, namespace, fqn_keys) := again.1]> (_view_cache self)
  ∧ next_view_id again.2 = S (next_view_id self).
Proof.
  intros Hmiss. unfold get_globals. rewrite Hmiss. cbn.
  split_and!; [done| |done..].
  destruct fqn_keys; [apply qualified_view_items|apply local_view_items].
Qed.

Lemma register_same_cache sc (self : XsdGlobals W) :
  _view_cache (register sc self) = _view_cache self
  ∧ next_view_id (register sc self) = next_view_id self.
Proof. unfold register. by repeat case_match. Qed.

Lemma get_globals_keeps_cached m ns fqn (self : XsdGlobals W) key v :
  _view_cache self !! key = Some v →
  _view_cache (get_globals m ns fqn self).2 !! key = Some v.
Proof.
  intros Hkey. unfold get_globals.
  destruct (_view_cache self !! (m, ns, fqn)) as [v'|] eqn:Hhit; [done|]. cbn.
  rewrite lookup_insert_ne; [done|]. by intros <-; rewrite Hkey in Hhit.
Qed.

Lemma get_globals_next_id m ns fqn (self : XsdGlobals W) :
  next_view_id self ≤ next_view_id (get_globals m ns fqn self).2.
Proof.
  unfold get_globals. destruct (_view_cache self !! _); cbn; lia.
Qed.

Lemma get_globals_fresh_views m ns fqn (self : XsdGlobals W) :
  fresh_views self → fresh_views (get_globals m ns fqn self).2.
Proof.
  unfold fresh_views, get_globals. intros Hfresh.
  destruct (_view_cache self !! _); [done|]. cbn.
  apply map_Forall_insert_2; [cbn; lia|].
  eapply map_Forall_impl; [exact Hfresh|]. cbn. intros _ v ?. lia.
Qed.

(** No method other than [clear] drops a cached view or takes back an
    identity. *)
Lemma without_clear_keeps_cached (self later : XsdGlobals W) key v :
  without_clear self later →
  _view_cache self !! key = Some v →
  _view_cache later !! key = Some v
  ∧ next_view_id self ≤ next_view_id later.
Proof.
  intros Hkept Hkey.
  induction Hkept as [|sc later _ [IHc IHn]|m ns fqn later _ [IHc IHn]
                      |fuel later later' raised _ [IHc IHn] Hbuild].
  - done.
  - destruct (register_same_cache sc later) as [-> ->]. done.
  - split; [by apply get_globals_keeps_cached|].
    pose proof (get_globals_next_id m ns fqn later). lia.
  - apply build_same_indices in Hbuild as (_ & _ & _ & -> & ->). done.
Qed.

(** The registries reached from a new one hold only views whose identity
    was given out already. *)
Lemma well_used_fresh_views (self : XsdGlobals W) :
  well_used self → fresh_views self.
Proof.
  induction 1 as [v flags w|remove_schemas self|sc self _ IH|m ns fqn self _ IH
                  |fuel self self' _ IH Hbuild].
  - apply map_Forall_empty.
  - apply map_Forall_empty.
  - unfold fresh_views. by destruct (register_same_cache sc self) as [-> ->].
  - by apply get_globals_fresh_views.
  - unfold fresh_views.
    by apply build_same_indices in Hbuild as (_ & _ & _ & -> & ->).
Qed.

End CacheFacts.

Section CachedViews.
Import Namespaces.
Context `{Externals} {W : Type}.

(** C8: after a call of [get_globals], every later call with the same
    arguments returns the very same view (same identity, same items) and
    leaves the registry as it is, whatever was done in between short of
    [clear()]: schemas registered, views read with these or with other
    arguments, the registry built, with or without success. The view is
    cached under the key (map name, namespace, key shape), and any
    registry whose cache holds it under that key serves it, whatever its
    maps hold. [clear()] empties the cache, and the next call builds a
    new view, from the maps as they are then: with qualified names it
    holds the items of the map whose key lies in the namespace, with local
    names it holds them under the local names of their keys. The new view
    is another object than the first when the registry was reached from a
    new one. A call that finds nothing under its key does the same on any
    registry. *)
Theorem get_globals_cached_until_clear (map_name : MapName)
    (namespace : string) (fqn_keys : bool) (self : XsdGlobals W) :
  let key := (map_name, namespace, fqn_keys) in
  let first := get_globals map_name namespace fqn_keys self in
  (∀ later, without_clear first.2 later →
     get_globals map_name namespace fqn_keys later = (first.1, later))
  ∧ _view_cache first.2 !! key = Some first.1
  ∧ (∀ other : XsdGlobals W,
       _view_cache other !! key = Some first.1 →
       get_globals map_name namespace fqn_keys other = (first.1, other))
  ∧ (∀ later remove_schemas, without_clear first.2 later →
       let cleared := clear remove_schemas later in
       let again := get_globals map_name namespace fqn_keys cleared in
       _view_cache cleared = ∅
       ∧ view_id again.1 = next_view_id cleared
       ∧ (fresh_views self → view_id again.1 ≠ view_id first.1)
       ∧ (if fqn_keys
          then qualified_items namespace (get_map map_name cleared)
                 (view_items again.1)
          else local_items namespace (get_map map_name cleared)
                 (view_items again.1))
       ∧ _view_cache again.2 = {[key := again.1]})
  ∧ (∀ other : XsdGlobals W,
       _view_cache other !! key = None →
       let again := get_globals map_name namespace fqn_keys other in
       view_id again.1 = next_view_id other
       ∧ (if fqn_keys
          then qualified_items namespace (get_map map_name other)
                 (view_items again.1)
          else local_items namespace (get_map map_name other)
                 (view_items again.1))
       ∧ _view_cache again.2 = <[key := again.1]> (_view_cache other)).
Proof.
  intros key first.
  pose proof (get_globals_caches map_name namespace fqn_keys self) as Hcached.
  fold first in Hcached. split_and!.
  - intros later Hkept. apply get_globals_hit.
    by apply (without_clear_keeps_cached first.2 later).
  - exact Hcached.
  - intros other Hsame. by apply get_globals_hit.
  - intros later remove_schemas Hkept cleared again.
    pose proof (get_globals_miss map_name namespace fqn_keys
                  (clear remove_schemas later) (lookup_empty _))
      as (Hid & Hitems & Hcache & _).
    split_and!; [done|done| |done|done].
    intros Hfresh. subst again cleared. rewrite Hid.
    apply (get_globals_fresh_views map_name namespace fqn_keys) in Hfresh.
    fold first in Hfresh. specialize (Hfresh _ _ Hcached). cbn in Hfresh.
    pose proof (without_clear_keeps_cached _ _ _ _ Hkept Hcached) as [_ Hle].
    change (next_view_id (clear remove_schemas later)) with (next_view_id later).
    lia.
  - intros other Hmiss again.
    pose proof (get_globals_miss map_name namespace fqn_keys other Hmiss)
      as (Hid & Hitems & Hcache & _).
    by split_and!.
Qed.

End CachedViews.

(** A view of the types without namespace is read from a new registry: it
    is empty. An other view is read, a schema declaring the type [T] is
    registered and the registry is built: the same call still returns the
    first view, without [T]. After [clear()] the call returns a view that
    is another object. *)
Lemma get_globals_cached_until_clear_witness :
  let new := Namespaces.init Sample.validator ∅ 0 in
  let first := Namespaces.get_globals (H := Sample.externals)
                 Namespaces.types_map "" true new in
  let other := Namespaces.get_globals (H := Sample.externals)
                 Namespaces.elements_map "" false first.2 in
  let registered := Namespaces.register Sample.types_schema other.2 in
  ∃ built,
    Namespaces.build (H := Sample.externals) 4 registered = Some (built, None)
    ∧ is_Some (Namespaces.types built !! "T")
    ∧ Namespaces.view_items first.1 = ∅
    ∧ Namespaces.view_id other.1 ≠ Namespaces.view_id first.1
    ∧ Namespaces.get_globals (H := Sample.externals) Namespaces.types_map ""
        true built
      = (first.1, built)
    ∧ Namespaces.view_id
        (Namespaces.get_globals (H := Sample.externals) Namespaces.types_map ""
           true (Namespaces.clear false built)).1
      ≠ Namespaces.view_id first.1.
Proof.
  intros new first other registered.
  destruct (Namespaces.build (H := Sample.externals) 4 registered)
    as [[built raised]|] eqn:Hbuild; [|by vm_compute in Hbuild].
  assert (raised = None) as ->.
  { vm_compute in Hbuild. by injection Hbuild as _ <-. }
  assert (Hkept : without_clear (H := Sample.externals) first.2 built).
  { eapply kept_build; [|exact Hbuild].
    apply kept_register, kept_get_globals, kept_same. }
  destruct (get_globals_cached_until_clear (H := Sample.externals)
              Namespaces.types_map "" true new)
    as (Hsame & _ & _ & Hclear & _).
  exists built. split_and!.
  - reflexivity.
  - vm_compute in Hbuild. injection Hbuild as <-. by eexists.
  - reflexivity.
  - discriminate.
  - by apply Hsame.
  - apply (Hclear built false Hkept). apply map_Forall_empty.
Defined.

(** ** Properties of the sequence of children *)

Section SequenceFacts.
Import DataObjects.

Lemma list_index_inr n i k :
  list_index n i = inr k ↔
  k < n ∧ ((0 ≤ i)%Z ∧ Z.of_nat k = i ∨ (i < 0)%Z ∧ Z.of_nat k = (Z.of_nat n + i)%Z).
Proof.
  unfold list_index. repeat case_decide; split; try (intros [= <-]; lia);
    try (intros Hk; f_equal; lia); try done; lia.
Qed.

Lemma list_index_inl n i e :
  list_index n i = inl e ↔ ¬ (- Z.of_nat n ≤ i < Z.of_nat n)%Z.
Proof.
  unfold list_index. destruct e. repeat case_decide; split; try done; lia.
Qed.

Lemma list_index_nat n (k : nat) :
  list_index n (Z.of_nat k) = if decide (k < n) then inr k else inl IndexError.
Proof.
  unfold list_index. repeat case_decide; try lia; try done.
  f_equal. lia.
Qed.

Lemma getitem_nat (self : DataElement) (k : nat) :
  __getitem__ (Z.of_nat k) self
  = from_option inr (inl IndexError) (_children self !! k).
Proof.
  unfold __getitem__. rewrite list_index_nat. case_decide as Hk.
  - by destruct (_children self !! k).
  - rewrite lookup_ge_None_2; [done|lia].
Qed.

Lemma getitem_position (self : DataElement) i k :
  list_index (length (_children self)) i = inr k →
  __getitem__ i self = __getitem__ (Z.of_nat k) self.
Proof.
  intros Hi. rewrite getitem_nat. unfold __getitem__. rewrite Hi.
  by destruct (_children self !! k).
Qed.

(** X1: [self[i]] returns a child exactly when [-len(self) <= i <
    len(self)] and raises [IndexError] for every other integer; a
    negative index in range denotes the child at [i + len(self)]; and for
    a position [k] counted from 0, [self[k]] is the item at place [k] of
    what iterating the element yields. *)
Theorem getitem_index_range (self : DataElement) (i : Z) :
  let n := Z.of_nat (__len__ self) in
  ((∃ child, __getitem__ i self = inr child) ↔ (- n ≤ i < n)%Z)
  ∧ (¬ (- n ≤ i < n)%Z → __getitem__ i self = inl IndexError)
  ∧ ((- n ≤ i < 0)%Z → __getitem__ i self = __getitem__ (i + n) self)
  ∧ (∀ k : nat,
       __getitem__ (Z.of_nat k) self
       = from_option inr (inl IndexError) (__iter__ self !! k)).
Proof.
  intros n. unfold __len__ in n. split_and!.
  - unfold __getitem__.
    destruct (list_index _ i) as [e|k] eqn:Hi.
    + apply list_index_inl in Hi. split; [by intros [? ?]|done].
    + apply list_index_inr in Hi as Hk. destruct Hk as [Hk Hpos].
      destruct (lookup_lt_is_Some_2 _ _ Hk) as [c ->].
      split; [intros _; subst n; lia | by eexists].
  - intros Hout. unfold __getitem__.
    by rewrite (proj2 (list_index_inl _ i IndexError) Hout).
  - intros Hneg.
    assert (Hi : list_index (length (_children self)) i
                 = inr (Z.to_nat (i + n))).
    { apply list_index_inr. subst n. lia. }
    rewrite (getitem_position _ _ _ Hi). f_equal. subst n. lia.
  - apply getitem_nat.
Qed.


(** X2: when [self[i] = child] succeeds, [self[i]] is [child], the
    length is unchanged, every index that denotes another position still
    gives the child it gave before, and tag, text and type are as they
    were; it fails, with the exception [self[i]] raises, exactly when
    [self[i]] fails. *)
Theorem setitem_then_getitem (self : DataElement) (i : Z) (child : DataElement) :
  match __setitem__ i child self with
  | inr self' =>
      __getitem__ i self' = inr child
      ∧ __len__ self' = __len__ self
      ∧ (∀ j, list_index (__len__ self) j ≠ list_index (__len__ self) i →
              __getitem__ j self' = __getitem__ j self)
      ∧ tag self' = tag self
      ∧ text self' = text self
      ∧ xsd_type self' = xsd_type self
  | inl e => __getitem__ i self = inl e
  end.
Proof.
  unfold __setitem__, __len__.
  destruct (list_index _ i) as [e|k] eqn:Hi.
  - unfold __getitem__. by rewrite Hi.
  - apply list_index_inr in Hi as Hk. destruct Hk as [Hk _].
    split_and!; try done.
    + unfold __getitem__. cbn [_children set_children].
      rewrite length_insert, Hi. by rewrite list_lookup_insert_eq.
    + cbn. by rewrite length_insert.
    + intros j Hj. unfold __getitem__. cbn [_children set_children].
      rewrite length_insert.
      destruct (list_index _ j) as [e|kj] eqn:Hkj; [done|].
      rewrite list_lookup_insert_ne; [done|]. congruence.
Qed.

Lemma insert_position_le n i : insert_position n i ≤ n.
Proof. unfold insert_position. repeat case_decide; lia. Qed.

Lemma insert_length (self : DataElement) i child :
  __len__ (insert i child self) = S (__len__ self).
Proof.
  unfold __len__, insert. cbn [_children set_children].
  pose proof (insert_position_le (length (_children self)) i).
  rewrite length_app, length_take; cbn [length]. rewrite length_drop. lia.
Qed.

Lemma getitem_inserted (self : DataElement) i child :
  __getitem__ (Z.of_nat (insert_position (__len__ self) i)) (insert i child self)
  = inr child.
Proof.
  unfold __len__. pose proof (insert_position_le (length (_children self)) i).
  rewrite getitem_nat. unfold insert. cbn [_children set_children].
  rewrite lookup_app_r by (rewrite length_take; lia).
  rewrite length_take.
  by replace (_ - _) with 0 by lia.
Qed.


Lemma getitem_after_inserted (self : DataElement) i child (j : nat) :
  insert_position (__len__ self) i ≤ j →
  __getitem__ (Z.of_nat (S j)) (insert i child self)
  = __getitem__ (Z.of_nat j) self.
Proof.
  unfold __len__. intros Hj.
  pose proof (insert_position_le (length (_children self)) i).
  rewrite !getitem_nat. unfold insert. cbn [_children set_children].
  rewrite lookup_app_r by (rewrite length_take; lia).
  rewrite length_take.
  replace (S j - _) with (S (j - insert_position (length (_children self)) i))
    by lia.
  simpl. rewrite lookup_drop. f_equal. f_equal. lia.
Qed.


Lemma set_children_same (self : DataElement) :
  set_children (_children self) self = self.
Proof. by destruct self. Qed.



(** X5: for a negative index in range, [insert(i, child)] puts the child
    before the child [i] denotes: afterwards [self[i]] is the same child
    as before, and the new child is [self[i - 1]]. In particular
    [insert(-1, child)] does not make [child] the last child. *)
Theorem insert_negative_index (self : DataElement) (i : Z) (child : DataElement) :
  (- Z.of_nat (__len__ self) ≤ i < 0)%Z →
  __getitem__ i (insert i child self) = __getitem__ i self
  ∧ __getitem__ (i - 1) (insert i child self) = inr child.
Proof.
  intros Hi.
  pose proof (insert_length self i child) as Hlen.
  pose proof (getitem_inserted self i child) as Hat.
  pose proof (getitem_after_inserted self i child) as Hafter.
  set (n := __len__ self) in *. set (k := insert_position n i) in *.
  assert (Hkn : Z.of_nat k = (Z.of_nat n + i)%Z).
  { subst k. unfold insert_position. repeat case_decide; lia. }
  split.
  - rewrite (getitem_position (insert i child self) i (S k)).
    2:{ apply list_index_inr. fold (__len__ (insert i child self)). lia. }
    rewrite (getitem_position self i k).
    2:{ apply list_index_inr. fold (__len__ self). fold n. lia. }
    by apply Hafter.
  - rewrite (getitem_position (insert i child self) (i - 1) k); [done|].
    apply list_index_inr. fold (__len__ (insert i child self)). lia.
Qed.

(** X6: when [del self[i]] succeeds, [i] denotes a position [k], the
    element has one child less, the children before [k] keep their index,
    the children after [k] have theirs lowered by one, and tag, text and
    type are as they were; it fails, with the exception [self[i]]
    raises, exactly when [self[i]] fails. *)
Theorem delitem_shifts_children (self : DataElement) (i : Z) :
  match __delitem__ i self with
  | inr self' =>
      ∃ k, list_index (__len__ self) i = inr k
           ∧ __len__ self = S (__len__ self')
           ∧ (∀ j : nat, j < k →
                __getitem__ (Z.of_nat j) self' = __getitem__ (Z.of_nat j) self)
           ∧ (∀ j : nat, k ≤ j →
                __getitem__ (Z.of_nat j) self' = __getitem__ (Z.of_nat (S j)) self)
           ∧ tag self' = tag self
           ∧ text self' = text self
           ∧ xsd_type self' = xsd_type self
  | inl e => __getitem__ i self = inl e
  end.
Proof.
  unfold __delitem__, __len__.
  destruct (list_index _ i) as [e|k] eqn:Hi.
  - unfold __getitem__. by rewrite Hi.
  - apply list_index_inr in Hi as Hk. destruct Hk as [Hk _].
    exists k. split_and!; try done.
    + cbn [_children set_children]. rewrite length_delete; [lia|].
      by apply lookup_lt_is_Some_2.
    + intros j Hj. rewrite !getitem_nat. cbn [_children set_children].
      by rewrite list_lookup_delete_lt.
    + intros j Hj. rewrite !getitem_nat. cbn [_children set_children].
      by rewrite list_lookup_delete_ge.
Qed.





End SequenceFacts.

(** ** More properties of the declaration loader *)

Section LoaderFrame.
Import Namespaces.
Context `{Externals}.
Variable tag0 : string.
Variable built : Schema → bool.

Lemma scan_skips_built schemas st :
  for_each (scan_schema tag0 built) schemas st
  = for_each (scan_schema tag0 built)
      (filter (λ sc, built sc = false) schemas) st.
Proof.
  revert st. induction schemas as [|sc schemas IH]; intros st; [done|].
  destruct (built sc) eqn:Hb.
  - rewrite filter_cons_False by (by rewrite Hb).
    cbn [for_each]. unfold scan_schema at 1. rewrite Hb. apply IH.
  - rewrite filter_cons_True by done.
    cbn [for_each]. destruct (scan_schema tag0 built sc st) as [st' [e|]]; [done|].
    apply IH.
Qed.

Lemma load_all_built (g : gmap string entry) (schemas : list Schema) :
  Forall (λ sc, built sc = true) schemas →
  load_xsd_globals tag0 built g schemas = (g, None).
Proof.
  intros Hall. unfold load_xsd_globals. rewrite scan_skips_built.
  assert (Hnil : filter (λ sc, built sc = false) schemas = []).
  { induction Hall as [|sc l Hsc _ IH]; [done|].
    rewrite filter_cons_False; [exact IH|]. by rewrite Hsc. }
  by rewrite Hnil.
Qed.

(** X8: the loader reads nothing of a schema that is built: a load over
    some schemas is the load over those of them that are not built, so a
    built schema cannot make it raise; when all of them are built, the map
    is returned as it was. *)
Theorem load_skips_built_schemas (g : gmap string entry) (schemas : list Schema) :
  load_xsd_globals tag0 built g schemas
  = load_xsd_globals tag0 built g (filter (λ sc, built sc = false) schemas)
  ∧ (Forall (λ sc, built sc = true) schemas →
     load_xsd_globals tag0 built g schemas = (g, None)).
Proof.
  split; [|apply load_all_built].
  unfold load_xsd_globals. by rewrite scan_skips_built.
Qed.

Lemma extends_refl g : extends tag0 g g.
Proof. split; [done|]. intros q. exists []. by rewrite app_nil_r. Qed.

Lemma extends_add (g g' : gmap string entry) q el sc :
  extends tag0 g g' → tag el = tag0 →
  extends tag0 g (add_declaration q (Decl el sc) g').
Proof.
  intros [Hdom Hitems] Htag. split.
  - intros k Hk. apply Hdom in Hk. apply elem_of_dom in Hk as [en Hk].
    apply elem_of_dom. destruct (decide (q = k)) as [->|Hne].
    + unfold add_declaration. rewrite Hk.
      destruct en; rewrite lookup_insert_eq; eauto.
    + rewrite add_declaration_other by done. eauto.
  - intros k. destruct (Hitems k) as (new & Hnew & Hall).
    destruct (decide (q = k)) as [->|Hne].
    + exists (new ++ [Decl el sc]). rewrite add_declaration_items, Hnew.
      split; [by rewrite app_assoc|].
      apply Forall_app. split; [done|]. by constructor.
    + exists new. by rewrite add_declaration_other.
Qed.

Lemma filter_function_tag (e el : Element) :
  el ∈ filter_function tag0 e → tag el = tag0.
Proof. apply scan_single_tag. Qed.

Lemma scan_schema_extends g sc st st' raised :
  scan_extends tag0 g st → scan_schema tag0 built sc st = (st', raised) →
  scan_extends tag0 g st'.
Proof.
  intros Hst. unfold scan_schema. destruct (built sc); [by intros [= <- _]|].
  rewrite for_each_nested.
  destruct (for_each (stage_redefinition sc) _ st) as [st1 r1] eqn:Hstage.
  assert (Hst1 : scan_extends tag0 g st1).
  { eapply (for_each_invariant (scan_extends tag0 g)); [|exact Hst|exact Hstage].
    intros child sa sb r Hin [Hext Hred]. unfold stage_redefinition.
    destruct (get_xsd_attribute child "name"); intros [= <- _]; [|done].
    split; [done|]. cbn. apply Forall_app. split; [done|].
    constructor; [|done]. cbn.
    apply list_elem_of_In, in_flat_map in Hin as (blk & _ & Hin).
    by apply list_elem_of_In, filter_function_tag in Hin. }
  destruct r1 as [e|]; [by intros [= <- _]|].
  intros Hload.
  eapply (for_each_invariant (scan_extends tag0 g)); [|exact Hst1|exact Hload].
  intros el sa sb r Hin [Hext Hred]. unfold load_declaration.
  destruct (get_xsd_attribute el "name"); intros [= <- _]; [|done].
  split; [|done]. cbn. apply extends_add; [done|].
  by apply filter_function_tag in Hin.
Qed.

(** X9: however a load ends, with or without an exception, it has only
    appended: every key of the map is still a key, and the items under a
    key are the items it had, followed by raw declarations carrying the
    tag of the loader. *)
Theorem load_only_appends (g g' : gmap string entry) (schemas : list Schema)
    (raised : option Exn) :
  load_xsd_globals tag0 built g schemas = (g', raised) →
  dom g ⊆ dom g'
  ∧ ∀ q, ∃ new, items_of (g' !! q) = items_of (g !! q) ++ new
                ∧ Forall (link_ok tag0) new.
Proof.
  unfold load_xsd_globals.
  destruct (for_each (scan_schema tag0 built) schemas _) as [st r] eqn:Hscan.
  assert (Hst : scan_extends tag0 g st).
  { eapply (for_each_invariant (scan_extends tag0 g)); [| |exact Hscan].
    - intros sc sa sb r0 _. apply scan_schema_extends.
    - split; [apply extends_refl|done]. }
  destruct r as [e|]; [intros [= <- _]; apply Hst|].
  destruct Hst as [Hext Hred]. revert Hext.
  generalize (l_globals st). induction Hred as [|[q [el sc]] rs Htag _ IH];
    intros g1 Hext Hrun.
  - injection Hrun as <- _. exact Hext.
  - cbn [for_each] in Hrun. unfold apply_redefinition at 1 in Hrun.
    destruct (g1 !! q); [|injection Hrun as <- _; exact Hext].
    eapply IH; [|exact Hrun]. by apply extends_add.
Qed.

(** Whether the scan raises does not depend on the state it starts
    from. *)
Lemma stage_replay sc els st st' (st2 : lstate) :
  for_each (stage_redefinition sc) els st = (st', None) →
  ∃ st2', for_each (stage_redefinition sc) els st2 = (st2', None).
Proof.
  revert st st2. induction els as [|el els IH]; intros st st2; [by eexists|].
  cbn [for_each]. unfold stage_redefinition at 1 3.
  destruct (get_xsd_attribute el "name"); [|done]. apply IH.
Qed.

Lemma load_declarations_replay sc els st st' (st2 : lstate) :
  for_each (load_declaration sc) els st = (st', None) →
  ∃ st2', for_each (load_declaration sc) els st2 = (st2', None).
Proof.
  revert st st2. induction els as [|el els IH]; intros st st2; [by eexists|].
  cbn [for_each]. unfold load_declaration at 1 3.
  destruct (get_xsd_attribute el "name"); [|done]. apply IH.
Qed.

Lemma scan_replay schemas st st' (st2 : lstate) :
  for_each (scan_schema tag0 built) schemas st = (st', None) →
  ∃ st2', for_each (scan_schema tag0 built) schemas st2 = (st2', None).
Proof.
  revert st st2. induction schemas as [|sc schemas IH]; intros st st2; [by eexists|].
  cbn [for_each]. unfold scan_schema at 1 3.
  destruct (built sc); [apply IH|].
  rewrite !for_each_nested.
  destruct (for_each (stage_redefinition sc) _ st) as [sa [e|]] eqn:Ha; [done|].
  destruct (stage_replay _ _ _ _ st2 Ha) as [sa2 ->].
  destruct (for_each (load_declaration sc) _ sa) as [sb [e|]] eqn:Hb; [done|].
  destruct (load_declarations_replay _ _ _ _ sa2 Hb) as [sb2 ->].
  apply IH.
Qed.

Lemma apply_redefinitions_present rs (g g' : gmap string entry) :
  for_each apply_redefinition rs g = (g', None) →
  ∀ r, r ∈ rs → r.1 ∈ dom g.
Proof.
  intros Hrun [q obj] Hin. cbn. apply elem_of_dom.
  destruct (g !! q) as [en|] eqn:Hq; [by eexists|].
  destruct (apply_redefinitions_orphan rs g) as (? & ? & ? & ? & Hraise & _).
  { by exists q, obj. }
  congruence.
Qed.

Lemma apply_redefinitions_succeed rs (g : gmap string entry) :
  (∀ r, r ∈ rs → r.1 ∈ dom g) →
  ∃ g', for_each apply_redefinition rs g = (g', None).
Proof.
  revert g. induction rs as [|[q [el sc]] rs IH]; intros g Hall; [by eexists|].
  cbn [for_each]. unfold apply_redefinition at 1.
  assert (Hq : q ∈ dom g) by (apply (Hall (q, (el, sc))); by left).
  apply elem_of_dom in Hq as Hsome. destruct Hsome as [en Hen]. rewrite Hen.
  apply IH. intros r Hr. rewrite add_declaration_dom by eauto.
  apply Hall. by right.
Qed.

Lemma staged_for_elem q obj rs :
  (q, obj) ∈ rs ↔ obj ∈ staged_for q rs.
Proof.
  unfold staged_for. rewrite list_elem_of_fmap. split.
  - intros Hin. exists (q, obj). split; [done|].
    by apply list_elem_of_filter.
  - intros ([q' obj'] & -> & Hin). apply list_elem_of_filter in Hin as [Hq Hin].
    cbn in Hq. by subst q'.
Qed.

(** X10: loading is not idempotent. When a load has succeeded, the same
    load run again on its result, the schemas still not built, succeeds
    too and appends to every key the declarations the first load appended,
    a second time. *)
Theorem reload_appends_again (g g1 : gmap string entry) (schemas : list Schema) :
  load_xsd_globals tag0 built g schemas = (g1, None) →
  ∃ g2,
    load_xsd_globals tag0 built g1 schemas = (g2, None)
    ∧ ∀ q,
        let new := as_items (originals_for tag0 built q schemas
                               ++ redefinitions_for tag0 built q schemas) in
        items_of (g1 !! q) = items_of (g !! q) ++ new
        ∧ items_of (g2 !! q) = items_of (g !! q) ++ new ++ new.
Proof.
  intros Hload.
  assert (Hsecond : ∃ g2, load_xsd_globals tag0 built g1 schemas = (g2, None)).
  { revert Hload. unfold load_xsd_globals.
    destruct (for_each (scan_schema tag0 built) schemas
                {| l_globals := g; redefinitions := [] |})
      as [st [e|]] eqn:Hscan; [done|].
    intros Happly.
    destruct (scan_replay _ _ _ {| l_globals := g1; redefinitions := [] |} Hscan)
      as [st2 Hscan2].
    rewrite Hscan2. apply apply_redefinitions_succeed.
    intros [q obj] Hin. cbn.
    assert (Hext : scan_extends tag0 g1 st2).
    { eapply (for_each_invariant (scan_extends tag0 g1)); [| |exact Hscan2].
      - intros sc sa sb r0 _. apply scan_schema_extends.
      - split; [apply extends_refl|done]. }
    apply Hext. rewrite (apply_redefinitions_dom _ _ _ _ Happly).
    apply staged_for_elem in Hin.
    destruct (scan_schemas_items tag0 built _ _ _ q Hscan2) as [_ Hst2].
    destruct (scan_schemas_items tag0 built _ _ _ q Hscan) as [_ Hst].
    cbn in Hst, Hst2. rewrite Hst2, <- Hst in Hin.
    apply staged_for_elem in Hin.
    by apply (apply_redefinitions_present _ _ _ Happly (q, obj)). }
  destruct Hsecond as [g2 Hload2]. exists g2. split; [done|].
  intros q new.
  pose proof (load_xsd_globals_order tag0 built _ _ _ q Hload) as H1.
  pose proof (load_xsd_globals_order tag0 built _ _ _ q Hload2) as H2.
  fold new in H1, H2. split; [done|]. by rewrite H2, H1, app_assoc.
Qed.

End LoaderFrame.

(** ** More properties of the declaration builder *)

Section BuilderFrame.
Import Namespaces.
Context {W : Type}.
Variable factory_key : string.
Variable tag0 : string.
Variable kwargs : Kwargs W.
Variable built : Schema → bool.

Local Abbreviation call_factory := (call_factory (W := W) factory_key kwargs).
Local Abbreviation chain_loop := (chain_loop (W := W) factory_key tag0 kwargs).
Local Abbreviation try_body := (try_body (W := W) factory_key tag0 kwargs built).
Local Abbreviation else_clause := (else_clause (W := W) tag0).
Local Abbreviation process_key := (process_key (W := W) factory_key tag0 kwargs built).
Local Abbreviation pass_loop := (pass_loop (W := W) factory_key tag0 kwargs built).
Local Abbreviation build_loop := (build_loop (W := W) factory_key tag0 kwargs built).

(** An idle entry is passed over: only the local variable [elem] is
    assigned. *)
Lemma process_key_idle q en (st : bstate W) :
  xsd_globals st !! q = Some en → idle tag0 built en →
  ∃ v, process_key q st = Done (set_elem v st).
Proof.
  intros Hq Hidle. unfold Namespaces.process_key. rewrite Hq.
  destruct en as [[x|el sc|j]|[|[x|el sc|j] l]]; cbn in Hidle; try done.
  - cbn [Namespaces.try_body]. destruct (elem x) as [el|] eqn:Hel; [|by eexists].
    destruct Hidle as [Htag|(sc & Hsc & Hb)].
    + rewrite decide_True by done. by eexists.
    + destruct (decide _); [by eexists|]. rewrite Hsc, Hb. by eexists.
  - cbn [Namespaces.try_body]. rewrite decide_True by done. by eexists.
  - destruct l as [|[x'|el sc|j'] l]; try done.
    cbn [Namespaces.try_body Namespaces.chain_loop].
    rewrite decide_True by done.
    unfold Namespaces.else_clause. cbn [l_elem set_elem].
    rewrite decide_True by done. by eexists.
  - cbn [Namespaces.try_body Namespaces.chain_loop].
    rewrite decide_True by done.
    unfold Namespaces.else_clause. cbn [l_elem set_elem].
    rewrite decide_True by done. by eexists.
Qed.

Lemma pass_loop_idle q en names (st : bstate W) :
  xsd_globals st !! q = Some en → idle tag0 built en → q ∉ missing st →
  untouched q st (final_state (pass_loop names st))
  ∧ ∀ st', pass_loop names st = Done st' → q ∉ missing st'.
Proof.
  revert st. induction names as [|k rest IH]; intros st Hq Hidle Hmiss.
  - split; [done|]. by intros st' [= <-].
  - cbn [Namespaces.pass_loop]. destruct (decide (k = q)) as [->|Hne].
    + destruct (process_key_idle q en (set_pending rest st) Hq Hidle) as [v ->].
      destruct (IH (set_elem v (set_pending rest st)) Hq Hidle Hmiss) as [Hu Hd].
      split; [|done]. destruct Hu as [Hu1 Hu2]. by split.
    + pose proof (process_key_frame factory_key tag0 kwargs built k
                    (set_pending rest st)) as Hframe.
      apply (key_frame_untouched q) in Hframe; [|done].
      pose proof (process_key_effect factory_key tag0 kwargs built k
                    (set_pending rest st)) as Heff.
      destruct (process_key k (set_pending rest st)) as [st1|e st1|e st1];
        cbn in Hframe; [|done..].
      destruct Hframe as [Hf1 Hf2].
      destruct (IH st1) as [Hu Hd]; [by rewrite Hf1|done| |].
      { unfold key_effect in Heff. cbn in Heff. destruct Heff as (_ & _ & _ & [[-> _]|(-> & _)]); [done|].
        cbn. rewrite not_elem_of_app, list_elem_of_singleton. by split. }
      split; [|done]. destruct Hu as [Hu1 Hu2]. 
      split; [by rewrite Hu1, Hf1 | by rewrite Hu2, Hf2].
Qed.

Lemma pass_loop_all_idle names (st : bstate W) :
  (∀ q, q ∈ names → ∃ en, xsd_globals st !! q = Some en ∧ idle tag0 built en) →
  ∃ st', pass_loop names st = Done st'
         ∧ xsd_globals st' = xsd_globals st
         ∧ calls st' = calls st
         ∧ world st' = world st
         ∧ missing st' = missing st.
Proof.
  revert st. induction names as [|k rest IH]; intros st Hall; [by eexists|].
  cbn [Namespaces.pass_loop].
  destruct (Hall k) as (en & Hk & Hidle); [by left|].
  destruct (process_key_idle k en (set_pending rest st) Hk Hidle) as [v ->].
  destruct (IH (set_elem v (set_pending rest st))) as (st' & -> & ? & ? & ? & ?).
  { intros q Hq. apply Hall. by right. }
  by exists st'.
Qed.

Lemma build_xsd_map_idle `{Externals} (fuel : nat)
    (g : gmap string entry) (w : W) (log : list fcall) :
  (∀ q en, g !! q = Some en → idle tag0 built en) →
  ∃ st,
    build_xsd_map factory_key built (S fuel) g tag0 kwargs w log = Some (Done st)
    ∧ xsd_globals st = g
    ∧ calls st = log
    ∧ world st = w.
Proof.
  intros Hidle. unfold build_xsd_map.
  cbn [Namespaces.build_loop global_names enter].
  set (st0 := enter (set_iter (dom g)) g w log).
  destruct (pass_loop_all_idle (set_iter (dom g)) (set_deferred [] [] st0))
    as (st' & -> & Hg & Hc & Hw & Hm).
  { intros q Hq. rewrite set_iter_perm in Hq.
    apply elem_of_elements, elem_of_dom in Hq as [en Hen].
    exists en. split; [done|]. by eapply Hidle. }
  rewrite Hm. by exists st'.
Qed.

Lemma build_xsd_map_idle_entry `{Externals} (fuel : nat)
    (g : gmap string entry) (w : W) (log : list fcall) (o : outcome W)
    (q : string) (en : entry) :
  build_xsd_map factory_key built fuel g tag0 kwargs w log = Some o →
  g !! q = Some en → idle tag0 built en →
  xsd_globals (final_state o) !! q = Some en
  ∧ calls_for q (calls (final_state o)) = calls_for q log.
Proof.
  unfold build_xsd_map. destruct fuel as [|fuel]; [done|].
  cbn [Namespaces.build_loop global_names enter].
  set (st0 := enter (set_iter (dom g)) g w log).
  intros Hrun Hq Hidle.
  destruct (pass_loop_idle q en (set_iter (dom g)) (set_deferred [] [] st0))
    as [[Hu1 Hu2] Hd]; [done|done|apply not_elem_of_nil|].
  change (xsd_globals (set_deferred [] [] st0) !! q) with (g !! q) in Hu1.
  change (calls (set_deferred [] [] st0)) with log in Hu2.
  rewrite Hq in Hu1.
  destruct (pass_loop _ (set_deferred [] [] st0)) as [st1|e st1|e st1] eqn:Hpass;
    cbn [final_state] in Hu1, Hu2.
  - specialize (Hd st1 eq_refl).
    destruct (missing st1) as [|q1 m] eqn:Hm.
    + by injection Hrun as <-.
    + pose proof (build_loop_untouched factory_key tag0 kwargs built q fuel
                    (next_pass st1) o) as Hlater.
      destruct Hlater as [Hl1 Hl2]; [by cbn; rewrite Hm|done|].
      split; [by rewrite Hl1|by rewrite Hl2].
  - by injection Hrun as <-.
  - by injection Hrun as <-.
Qed.

(** X11: an entry the builder has nothing to do for (an instance without
    element, of another tag or of a built schema; a raw declaration of
    another tag; a list whose first raw declaration is of another tag) is
    the same after the call, however the call ends and whatever happens to
    the other keys, and no factory invocation is made for its key. When
    every entry is such an entry, the empty map included, the call returns
    after its first pass, with the map, the log and the world unchanged,
    whether or not a factory is given. *)
Theorem idle_entries_untouched `{Externals} (g : gmap string entry) (w : W)
    (log : list fcall) :
  (∀ fuel o q en,
     build_xsd_map factory_key built fuel g tag0 kwargs w log = Some o →
     g !! q = Some en → idle tag0 built en →
     xsd_globals (final_state o) !! q = Some en
     ∧ calls_for q (calls (final_state o)) = calls_for q log)
  ∧ ((∀ q en, g !! q = Some en → idle tag0 built en) →
     ∀ fuel, ∃ st,
       build_xsd_map factory_key built (S fuel) g tag0 kwargs w log
       = Some (Done st)
       ∧ xsd_globals st = g
       ∧ calls st = log
       ∧ world st = w).
Proof.
  split.
  - intros fuel o q en. apply build_xsd_map_idle_entry.
  - intros Hidle fuel. by apply build_xsd_map_idle.
Qed.

(** *** Which invocations are made *)

Lemma invoked_on_same (st st' : bstate W) :
  xsd_globals st' = xsd_globals st → calls st' = calls st →
  invoked_on tag0 st st'.
Proof.
  intros Hg Hc. split; [by rewrite Hg|]. exists []. by rewrite app_nil_r.
Qed.

Lemma invoked_on_trans (st1 st2 st3 : bstate W) :
  invoked_on tag0 st1 st2 → invoked_on tag0 st2 st3 → invoked_on tag0 st1 st3.
Proof.
  intros (Hd1 & cs1 & Hc1 & Ha1) (Hd2 & cs2 & Hc2 & Ha2).
  split; [congruence|]. exists (cs1 ++ cs2). split.
  - by rewrite Hc2, Hc1, app_assoc.
  - apply Forall_app. split; [done|]. by rewrite <- Hd1.
Qed.

Lemma call_factory_invoked q el sc prev (st st' : bstate W) r :
  call_factory q el sc prev st = (st', r) →
  tag el = tag0 → q ∈ dom (xsd_globals st) →
  invoked_on tag0 st st'
  ∧ xsd_globals st' = xsd_globals st.
Proof.
  unfold Namespaces.call_factory. intros Hcall Htag Hq.
  destruct (factories kwargs factory_key) as [f|].
  - destruct (f _ _ _ _ _ _) as [w' r']. injection Hcall as <- <-.
    split; [|done]. split; [done|]. eexists. split; [done|].
    by constructor.
  - injection Hcall as <- <-. split; [|done]. by apply invoked_on_same.
Qed.

Lemma set_head_invoked q x (st : bstate W) :
  invoked_on tag0 st (set_head q x st).
Proof.
  split; [apply dom_alter_L|]. exists []. by rewrite app_nil_r.
Qed.

Lemma chain_loop_invoked q rest xi (st : bstate W) :
  q ∈ dom (xsd_globals st) →
  invoked_on tag0 st (flow_state (chain_loop q rest xi st)).
Proof.
  revert xi st. induction rest as [|[x|el sc|j] rest IH]; intros xi st Hq.
  - by apply invoked_on_same.
  - by apply invoked_on_same.
  - cbn [Namespaces.chain_loop]. destruct (decide _) as [|Htag].
    { by apply invoked_on_same. }
    apply dec_stable in Htag.
    destruct (call_factory q el sc xi (set_elem (Some el) st))
      as [st2 [[rq x]|err]] eqn:Hcall;
      apply call_factory_invoked in Hcall as [Hinv Hg]; try done.
    eapply invoked_on_trans; [exact Hinv|].
    eapply invoked_on_trans; [apply (set_head_invoked q x (set_res_qname rq st2))|].
    apply IH. cbn. rewrite dom_alter_L. by rewrite Hg.
  - by apply invoked_on_same.
Qed.

Lemma try_body_invoked q obj (st : bstate W) :
  xsd_globals st !! q = Some obj →
  invoked_on tag0 st (flow_state (try_body q obj st)).
Proof.
  intros Hobj.
  assert (Hq : q ∈ dom (xsd_globals st)) by (apply elem_of_dom; eauto).
  destruct obj as [[x|el sc|j]|[|[x|el sc|j] l]]; cbn [Namespaces.try_body].
  - destruct (elem x) as [el|]; [|by apply invoked_on_same].
    destruct (decide _) as [|Htag]; [by apply invoked_on_same|].
    apply dec_stable in Htag.
    destruct (schema x) as [sc|]; [|by apply invoked_on_same].
    destruct (built sc); [by apply invoked_on_same|].
    destruct (call_factory q el sc (Some x) (set_elem (Some el) st))
      as [st2 [[rq xi]|err]] eqn:Hcall;
      by apply call_factory_invoked in Hcall as [Hinv Hg].
  - destruct (decide _) as [|Htag]; [by apply invoked_on_same|].
    apply dec_stable in Htag.
    destruct (call_factory q el sc None (set_elem (Some el) st))
      as [st2 [[rq xi]|err]] eqn:Hcall;
      by apply call_factory_invoked in Hcall as [Hinv Hg].
  - by apply invoked_on_same.
  - by apply invoked_on_same.
  - by apply chain_loop_invoked.
  - by apply chain_loop_invoked.
  - by apply chain_loop_invoked.
Qed.

Lemma process_key_invoked q (st : bstate W) :
  invoked_on tag0 st (final_state (process_key q st)).
Proof.
  unfold Namespaces.process_key.
  destruct (xsd_globals st !! q) as [obj|] eqn:Hobj; [|by apply invoked_on_same].
  pose proof (try_body_invoked q obj st Hobj) as Hbody.
  assert (Hq : q ∈ dom (xsd_globals st)) by (apply elem_of_dom; eauto).
  destruct (try_body q obj st) as [st1|xi st1|err st1]; cbn in Hbody; [done| |].
  - eapply invoked_on_trans; [exact Hbody|]. unfold Namespaces.else_clause.
    destruct (l_elem st1) as [|[el|]]; try by apply invoked_on_same.
    destruct (decide _); [by apply invoked_on_same|].
    destruct (l_res_qname st1); [by apply invoked_on_same|].
    destruct (decide _); [by apply invoked_on_same|].
    split; [|exists []; by rewrite app_nil_r]. cbn.
    rewrite dom_insert_L. apply subseteq_union_1_L, singleton_subseteq_l.
    by rewrite (proj1 Hbody).
  - eapply invoked_on_trans; [exact Hbody|].
    destruct (is_deferral err); [|by apply invoked_on_same].
    unfold except_clause. destruct (l_elem st1) as [|[el|]];
      try by apply invoked_on_same.
    cbn zeta. destruct (decide _); by apply invoked_on_same.
Qed.

Lemma pass_loop_invoked names (st : bstate W) :
  invoked_on tag0 st (final_state (pass_loop names st)).
Proof.
  revert st. induction names as [|k rest IH]; intros st.
  - by apply invoked_on_same.
  - cbn [Namespaces.pass_loop].
    pose proof (process_key_invoked k (set_pending rest st)) as Hk.
    destruct (process_key k (set_pending rest st)) as [st1|e st1|e st1];
      cbn [final_state] in *; [|exact Hk..].
    eapply invoked_on_trans; [exact Hk|]. apply IH.
Qed.

Lemma build_loop_invoked fuel (st : bstate W) o :
  build_loop fuel st = Some o → invoked_on tag0 st (final_state o).
Proof.
  revert st. induction fuel as [|fuel IH]; intros st; [done|].
  cbn [Namespaces.build_loop].
  pose proof (pass_loop_invoked (global_names st) (set_deferred [] [] st)) as Hp.
  destruct (pass_loop (global_names st) (set_deferred [] [] st))
    as [st1|e st1|e st1]; cbn [final_state] in Hp.
  - destruct (missing st1); [by intros [= <-]|].
    intros Hrun. eapply invoked_on_trans; [exact Hp|].
    apply (IH (next_pass st1)) in Hrun. exact Hrun.
  - by intros [= <-].
  - by intros [= <-].
Qed.

(** X12: however a call of [build_xsd_map] ends, the map has the keys it
    had, and every factory invocation the call made was made on an
    element carrying the target tag, for a key of the map. *)
Theorem factory_invoked_on_target_tag_only `{Externals} (fuel : nat)
    (g : gmap string entry) (w : W) (log : list fcall) (o : outcome W) :
  build_xsd_map factory_key built fuel g tag0 kwargs w log = Some o →
  dom (xsd_globals (final_state o)) = dom g
  ∧ ∃ cs, calls (final_state o) = log ++ cs
          ∧ Forall (λ c, tag (fc_elem c) = tag0 ∧ fc_key c ∈ dom g) cs.
Proof. intros Hrun. by apply build_loop_invoked in Hrun. Qed.

(** *** Entries the loop cannot get past *)

Lemma pass_loop_stuck q en names (st : bstate W) :
  stuck factory_key tag0 kwargs built q en →
  xsd_globals st !! q = Some en →
  q ∈ names ∨ q ∈ missing st →
  xsd_globals (final_state (pass_loop names st)) !! q = Some en
  ∧ ∀ st', pass_loop names st = Done st' → q ∈ missing st'.
Proof.
  intros Hstuck. revert st. induction names as [|k rest IH]; intros st Hq Hin.
  - split; [done|]. intros st' [= <-]. destruct Hin as [Hin|Hin]; [|done].
    by apply elem_of_nil in Hin.
  - cbn [Namespaces.pass_loop]. destruct (decide (k = q)) as [->|Hne].
    + destruct (Hstuck (set_pending rest st) Hq) as [Hkeep Hdef].
      destruct (process_key q (set_pending rest st)) as [st1|e st1|e st1];
        cbn [final_state] in *; [|by split..].
      apply IH; [done|]. right. by apply Hdef.
    + pose proof (process_key_frame factory_key tag0 kwargs built k
                    (set_pending rest st)) as (Hother & _).
      pose proof (process_key_effect factory_key tag0 kwargs built k
                    (set_pending rest st)) as Heff.
      specialize (Hother q (not_eq_sym Hne)).
      destruct (process_key k (set_pending rest st)) as [st1|e st1|e st1];
        cbn [final_state] in *; [|by rewrite Hother..].
      apply IH; [by rewrite Hother|].
      destruct Hin as [Hin|Hin].
      * apply elem_of_cons in Hin as [?|?]; [congruence|by left].
      * right. unfold key_effect in Heff. cbn in Heff.
        destruct Heff as (_ & _ & _ & [[-> _]|(-> & _)]); [done|].
        apply elem_of_app. by left.
Qed.

Lemma build_loop_stuck q en fuel (st : bstate W) o :
  stuck factory_key tag0 kwargs built q en →
  xsd_globals st !! q = Some en → q ∈ global_names st →
  build_loop fuel st = Some o →
  (∀ st', o ≠ Done st') ∧ xsd_globals (final_state o) !! q = Some en.
Proof.
  intros Hstuck. revert st. induction fuel as [|fuel IH]; intros st Hq Hin; [done|].
  cbn [Namespaces.build_loop].
  destruct (pass_loop_stuck q en (global_names st) (set_deferred [] [] st))
    as [Hkeep Hdef]; [done|done|by left|].
  destruct (pass_loop (global_names st) (set_deferred [] [] st))
    as [st1|e st1|e st1]; cbn [final_state] in Hkeep.
  - specialize (Hdef st1 eq_refl).
    destruct (missing st1) as [|q1 m] eqn:Hm; [by apply elem_of_nil in Hdef|].
    apply (IH (next_pass st1)); [done|]. cbn. by rewrite Hm.
  - by intros [= <-].
  - by intros [= <-].
Qed.

(** An entry whose processing always raises an exception that leaves the
    function stops the call in its first pass. *)
Lemma pass_loop_halts q en names (st : bstate W) :
  (∀ st : bstate W, xsd_globals st !! q = Some en →
     ∃ e st', process_key q st = Failed e st') →
  xsd_globals st !! q = Some en → q ∈ names →
  ∀ st', pass_loop names st ≠ Done st'.
Proof.
  intros Hfail. revert st. induction names as [|k rest IH]; intros st Hq Hin st'.
  - by apply elem_of_nil in Hin.
  - cbn [Namespaces.pass_loop]. destruct (decide (k = q)) as [->|Hne].
    + by destruct (Hfail (set_pending rest st) Hq) as (e & st1 & ->).
    + pose proof (process_key_frame factory_key tag0 kwargs built k
                    (set_pending rest st)) as (Hother & _).
      specialize (Hother q (not_eq_sym Hne)).
      destruct (process_key k (set_pending rest st)) as [st1|e st1|e st1];
        cbn [final_state] in *; [|done..].
      apply IH; [by rewrite Hother|].
      apply elem_of_cons in Hin as [?|?]; [congruence|done].
Qed.

Lemma build_halts `{Externals} q en fuel (g : gmap string entry) w log o :
  (∀ st : bstate W, xsd_globals st !! q = Some en →
     ∃ e st', process_key q st = Failed e st'
              ∧ xsd_globals st' !! q = Some en) →
  g !! q = Some en →
  build_xsd_map factory_key built fuel g tag0 kwargs w log = Some o →
  ∃ e st, o = Failed e st ∧ xsd_globals st !! q = Some en.
Proof.
  intros Hfail Hq. unfold build_xsd_map.
  set (st0 := enter (set_iter (dom g)) g w log). intros Hrun.
  assert (Hstuck : stuck factory_key tag0 kwargs built q en).
  { intros st Hst. destruct (Hfail st Hst) as (e & st' & -> & Hkeep).
    by split. }
  assert (Hin : q ∈ set_iter (dom g)).
  { rewrite set_iter_perm. apply elem_of_elements, elem_of_dom. eauto. }
  destruct (build_loop_stuck q en fuel st0 o Hstuck Hq Hin Hrun) as [_ Hkeep].
  destruct fuel as [|fuel]; [done|]. cbn [Namespaces.build_loop] in Hrun.
  pose proof (pass_loop_halts q en (global_names st0) (set_deferred [] [] st0))
    as Hhalt.
  pose proof (first_pass_not_exhausted factory_key tag0 kwargs built
                (global_names st0) st0) as Hfirst.
  destruct (pass_loop (global_names st0) (set_deferred [] [] st0))
    as [st1|e st1|e st1].
  - exfalso. eapply Hhalt; [|done|done|done].
    intros st Hst. destruct (Hfail st Hst) as (e & st' & -> & _). eauto.
  - exfalso. by eapply Hfirst.
  - injection Hrun as <-. eauto.
Qed.

Lemma process_key_single_decl q el sc (st : bstate W) :
  xsd_globals st !! q = Some (Single (Decl el sc)) → tag el = tag0 →
  process_key q st
  = match call_factory q el sc None (set_elem (Some el) st) with
    | (st2, Raise err) =>
        if is_deferral err then except_clause q err st2 else Failed err st2
    | (st2, Return (rq, xi)) => else_clause q (Some xi) (set_res_qname rq st2)
    end.
Proof.
  intros Hq Htag. unfold Namespaces.process_key. rewrite Hq.
  cbn [Namespaces.try_body]. rewrite decide_False by (by intros ?).
  by destruct (call_factory q el sc None (set_elem (Some el) st))
    as [st2 [[rq xi]|err]].
Qed.

(** X13: when the factory answers a raw declaration of the target tag
    under a name other than its key, the iteration raises the parse error
    "wrong result name" after that one invocation, the instance is not
    stored and the key is not deferred; and a call on a map holding such
    an entry ends, in its first pass, with an exception that leaves the
    function, the entry still a raw declaration. *)
Theorem wrong_result_name_is_terminal `{Externals} (q : string) (el : Element)
    (sc : Schema) (f : Factory W) :
  tag el = tag0 →
  factories kwargs factory_key = Some f →
  misnames kwargs f q el sc →
  (∀ st : bstate W,
     xsd_globals st !! q = Some (Single (Decl el sc)) →
     ∃ st',
       process_key q st
       = Failed (XMLSchemaParseError "wrong result name" None) st'
       ∧ xsd_globals st' = xsd_globals st
       ∧ missing st' = missing st
       ∧ length (calls st') = S (length (calls st)))
  ∧ (∀ fuel (g : gmap string entry) w log o,
       g !! q = Some (Single (Decl el sc)) →
       build_xsd_map factory_key built fuel g tag0 kwargs w log = Some o →
       ∃ e st, o = Failed e st
               ∧ xsd_globals st !! q = Some (Single (Decl el sc))).
Proof.
  intros Htag Hf Hmis.
  assert (Hkey : ∀ st : bstate W,
     xsd_globals st !! q = Some (Single (Decl el sc)) →
     ∃ st',
       process_key q st
       = Failed (XMLSchemaParseError "wrong result name" None) st'
       ∧ xsd_globals st' = xsd_globals st
       ∧ missing st' = missing st
       ∧ length (calls st') = S (length (calls st))).
  { intros st Hq. rewrite (process_key_single_decl q el sc) by done.
    unfold Namespaces.call_factory. rewrite Hf.
    destruct (Hmis (world (set_elem (Some el) st))
                (xsd_globals (set_elem (Some el) st)) None)
      as (w' & q' & x & -> & Hne).
    unfold Namespaces.else_clause. cbn [l_elem l_res_qname set_res_qname set_elem].
    rewrite decide_False by (by intros ?). rewrite decide_True by done.
    eexists. split; [done|]. cbn. rewrite length_app. cbn. split_and!; [done|done|lia]. }
  split; [exact Hkey|].
  intros fuel g w log o Hq Hrun.
  eapply (build_halts q); [|exact Hq|exact Hrun].
  intros st Hst. destruct (Hkey st Hst) as (st' & -> & Hg & _).
  eexists _, _. split; [done|]. by rewrite Hg.
Qed.

(** X14: on a raw declaration of the target tag, a missing factory makes
    the iteration raise [TypeError], and an exception of the factory that
    is neither an [XMLSchemaTypeError] nor an [XMLSchemaLookupError]
    leaves the iteration as it is, the map unchanged and the key not
    deferred; in both cases a call on a map holding such an entry ends,
    in its first pass, with an exception that leaves the function. *)
Theorem uncaught_exception_is_terminal `{Externals} (q : string) (el : Element)
    (sc : Schema) :
  tag el = tag0 →
  (factories kwargs factory_key = None →
   ∀ st : bstate W,
     xsd_globals st !! q = Some (Single (Decl el sc)) →
     process_key q st = Failed (PyError "TypeError") (set_elem (Some el) st))
  ∧ (∀ f err,
       factories kwargs factory_key = Some f →
       raises_on kwargs f err el sc →
       is_deferral err = false →
       ∀ st : bstate W,
         xsd_globals st !! q = Some (Single (Decl el sc)) →
         ∃ st',
           process_key q st = Failed err st'
           ∧ xsd_globals st' = xsd_globals st
           ∧ missing st' = missing st)
  ∧ (factories kwargs factory_key = None
     ∨ (∃ f err, factories kwargs factory_key = Some f
                 ∧ raises_on kwargs f err el sc ∧ is_deferral err = false) →
     ∀ fuel (g : gmap string entry) w log o,
       g !! q = Some (Single (Decl el sc)) →
       build_xsd_map factory_key built fuel g tag0 kwargs w log = Some o →
       ∃ e st, o = Failed e st
               ∧ xsd_globals st !! q = Some (Single (Decl el sc))).
Proof.
  intros Htag.
  assert (Hnone : factories kwargs factory_key = None →
    ∀ st : bstate W,
      xsd_globals st !! q = Some (Single (Decl el sc)) →
      process_key q st = Failed (PyError "TypeError") (set_elem (Some el) st)).
  { intros Hf st Hq. rewrite (process_key_single_decl q el sc) by done.
    unfold Namespaces.call_factory. by rewrite Hf. }
  assert (Hraise : ∀ f err,
    factories kwargs factory_key = Some f →
    raises_on kwargs f err el sc →
    is_deferral err = false →
    ∀ st : bstate W,
      xsd_globals st !! q = Some (Single (Decl el sc)) →
      ∃ st',
        process_key q st = Failed err st'
        ∧ xsd_globals st' = xsd_globals st
        ∧ missing st' = missing st).
  { intros f err Hf Hraise Hnd st Hq.
    rewrite (process_key_single_decl q el sc) by done.
    unfold Namespaces.call_factory. rewrite Hf.
    destruct (Hraise (world (set_elem (Some el) st))
                (xsd_globals (set_elem (Some el) st)) None) as (w' & ->).
    rewrite Hnd. by eexists. }
  split_and!; [exact Hnone|exact Hraise|].
  intros Hcase fuel g w log o Hq Hrun.
  eapply (build_halts q); [|exact Hq|exact Hrun].
  intros st Hst. destruct Hcase as [Hf|(f & err & Hf & Hr & Hnd)].
  - rewrite (Hnone Hf st Hst). by eexists _, _.
  - destruct (Hraise f err Hf Hr Hnd st Hst) as (st' & -> & Hg & _).
    eexists _, _. split; [done|]. by rewrite Hg.
Qed.

(** *** Which exceptions leave the function *)

Lemma process_key_failed q (st : bstate W) e st' :
  process_key q st = Failed e st' → is_deferral e = false.
Proof.
  unfold Namespaces.process_key.
  destruct (xsd_globals st !! q) as [obj|]; [|by intros [= <- _]].
  destruct (try_body q obj st) as [st1|xi st1|err st1]; [done| |].
  - unfold Namespaces.else_clause.
    destruct (l_elem st1) as [|[el|]]; try by intros [= <- _].
    destruct (decide _); [done|].
    destruct (l_res_qname st1); [by intros [= <- _]|].
    destruct (decide _); [by intros [= <- _]|done].
  - destruct (is_deferral err) eqn:Hd; [|by intros [= <- _]].
    unfold except_clause.
    destruct (l_elem st1) as [|[el|]]; try by intros [= <- _].
    cbn zeta. by destruct (decide _).
Qed.

Lemma pass_loop_failed names (st : bstate W) e st' :
  pass_loop names st = Failed e st' → is_deferral e = false.
Proof.
  revert st. induction names as [|k rest IH]; intros st; [done|].
  cbn [Namespaces.pass_loop].
  destruct (process_key k (set_pending rest st)) as [st1|e1 st1|e1 st1] eqn:Hk;
    [apply IH|done|].
  intros [= <- _]. by apply process_key_failed in Hk.
Qed.

Lemma build_loop_failed fuel (st : bstate W) e st' :
  build_loop fuel st = Some (Failed e st') → is_deferral e = false.
Proof.
  revert st. induction fuel as [|fuel IH]; intros st; [done|].
  cbn [Namespaces.build_loop].
  destruct (pass_loop (global_names st) (set_deferred [] [] st))
    as [st1|e1 st1|e1 st1] eqn:Hp.
  - destruct (missing st1); [done|]. apply IH.
  - done.
  - intros [= <- _]. by apply pass_loop_failed in Hp.
Qed.

(** X15: [build_xsd_map] never lets an [XMLSchemaTypeError] out: the
    no-progress check raises an [XMLSchemaLookupError] or an
    [XMLSchemaParseError] naming an element, and any other exception
    leaving the call is neither an [XMLSchemaTypeError] nor an
    [XMLSchemaLookupError]. *)
Theorem type_error_never_leaves `{Externals} (fuel : nat)
    (g : gmap string entry) (w : W) (log : list fcall) (o : outcome W) :
  build_xsd_map factory_key built fuel g tag0 kwargs w log = Some o →
  match o with
  | Done _ => True
  | Exhausted e _ =>
      (∃ msg, e = XMLSchemaLookupError msg)
      ∨ (∃ msg el, e = XMLSchemaParseError msg (Some el))
  | Failed e _ =>
      ∀ msg, e ≠ XMLSchemaTypeError msg ∧ e ≠ XMLSchemaLookupError msg
  end.
Proof.
  intros Hrun. destruct o as [st|e st|e st]; [done| |].
  - apply build_loop_exit in Hrun; [|by left].
    destruct Hrun as (_ & _ & _ & _ & Hlook & [[rest Herr]|(_ & msg & el & _ & ->)]).
    + left. rewrite Herr in Hlook. apply Forall_cons in Hlook as [He _].
      destruct e; try done. by eexists.
    + right. by eexists _, _.
  - apply build_loop_failed in Hrun. intros msg. by split; intros ->.
Qed.

(** X16: an entry that is neither an instance, a tuple nor a list is not
    rejected at once. The type error raised for it is caught by the
    handler of the same function: with [elem] bound by an earlier
    iteration the key is deferred like a forward reference, and with
    [elem] unbound the handler itself fails with [UnboundLocalError]. A
    call on a map holding such an entry never returns normally, and
    leaves the entry as it was. *)
Theorem unexpected_entry_is_deferred `{Externals} (q : string) (junk : nat) :
  (∀ (st : bstate W) el,
     xsd_globals st !! q = Some (Single (Other junk)) →
     l_elem st = Bound (Some el) →
     length (missing st) + 1 ≠ errors_counter st →
     process_key q st
     = Done (set_deferred (missing st ++ [q]) (errors st) st))
  ∧ (∀ st : bstate W,
       xsd_globals st !! q = Some (Single (Other junk)) →
       l_elem st = Unbound →
       process_key q st = Failed (PyError "UnboundLocalError") st)
  ∧ (∀ fuel (g : gmap string entry) w log o,
       g !! q = Some (Single (Other junk)) →
       build_xsd_map factory_key built fuel g tag0 kwargs w log = Some o →
       (∀ st, o ≠ Done st)
       ∧ xsd_globals (final_state o) !! q = Some (Single (Other junk))).
Proof.
  split_and!.
  - intros st el Hq Hel Hlen. unfold Namespaces.process_key. rewrite Hq.
    cbn [Namespaces.try_body is_deferral]. unfold except_clause. rewrite Hel.
    cbn zeta. rewrite decide_False; [done|]. rewrite length_app. cbn. lia.
  - intros st Hq Hel. unfold Namespaces.process_key. rewrite Hq.
    cbn [Namespaces.try_body is_deferral]. unfold except_clause. by rewrite Hel.
  - intros fuel g w log o Hq Hrun.
    eapply (build_loop_stuck q); [| |  |exact Hrun]; [|done|].
    + intros st Hst. unfold Namespaces.process_key. rewrite Hst.
      cbn [Namespaces.try_body is_deferral]. unfold except_clause.
      destruct (l_elem st) as [|[el|]]; [by split| |by split].
      cbn zeta. destruct (decide _); cbn [final_state]; (split; [done|]).
      * done.
      * intros st' [= <-]. cbn. apply elem_of_app. right. by left.
    + cbn. rewrite set_iter_perm. apply elem_of_elements, elem_of_dom. eauto.
Qed.

End BuilderFrame.

(** ** Lists that are built in part *)

Section ChainProgress.
Import Namespaces.
Context {W : Type}.
Variable factory_key : string.
Variable tag0 : string.
Variable kwargs : Kwargs W.
Variable built : Schema → bool.
Variable f : Factory W.
Hypothesis factory_present : factories kwargs factory_key = Some f.

Local Abbreviation call_factory := (call_factory (W := W) factory_key kwargs).
Local Abbreviation chain_loop := (chain_loop (W := W) factory_key tag0 kwargs).
Local Abbreviation try_body := (try_body (W := W) factory_key tag0 kwargs built).
Local Abbreviation process_key := (process_key (W := W) factory_key tag0 kwargs built).

(** The head a list has after the instances [xs] were built one after
    the other: [obj[0]] is the last of them. *)
Lemma chain_loop_prefix q l1 rest xi (st : bstate W) h tl :
  xsd_globals st !! q = Some (Chain (h :: tl)) →
  Forall (λ l, tag l.1 = tag0) l1 →
  succeeds_on kwargs f q l1 →
  ∃ xs st',
    length xs = length l1
    ∧ chain_loop q (as_items l1 ++ rest) xi st
      = chain_loop q rest (last_instance xi xs) st'
    ∧ calls st' = calls st ++ expected_calls q xi l1 xs
    ∧ xsd_globals st' !! q
      = Some (Chain (match last xs with Some x => Inst x | None => h end :: tl))
    ∧ same_pass st st'
    ∧ (l1 = [] → st' = st).
Proof.
  revert xi st h. induction l1 as [|[el sc] l1 IH]; intros xi st h Hq Htag Hok.
  - exists [], st. cbn. rewrite app_nil_r. by split_and!.
  - apply Forall_cons in Htag as [Hel Htag]. cbn in Hel.
    cbn [as_items fmap list_fmap Namespaces.chain_loop fst snd app].
    rewrite decide_False by (by intros ?).
    destruct (call_factory_success factory_key kwargs f factory_present
                q ((el, sc) :: l1) el sc xi
                (set_elem (Some el) st) Hok) as (w' & x & ->); [by left|].
    set (st2 := set_head q x (set_res_qname q _)).
    destruct (IH (Some x) st2 (Inst x)) as (xs & st' & Hlen & Hrun & Hcalls & Hent & Hsame & _).
    { subst st2. cbn. rewrite lookup_alter_eq, Hq. done. }
    { done. }
    { intros el' sc' Hin. apply Hok. by right. }
    exists (x :: xs), st'. split_and!.
    + cbn. by rewrite Hlen.
    + unfold as_items in Hrun. rewrite Hrun. by rewrite last_instance_cons.
    + rewrite Hcalls. cbn. by rewrite <- (assoc_L (++)).
    + rewrite Hent, last_cons. by destruct (last xs).
    + eapply same_pass_trans; [|exact Hsame]. by repeat split.
    + done.
Qed.

Lemma try_body_raw_list q e0 s0 l (st : bstate W) :
  try_body q (Chain (Decl e0 s0 :: l)) st = chain_loop q (Decl e0 s0 :: l) None st.
Proof. done. Qed.

(** X17: when the links of a list are built up to a link on which the
    factory raises a deferral, the key is deferred and the list stays in
    the map with the last instance built as its first item; the other
    items, those of the links already built included, are as they were.
    The invocations are those of the links built, each given the
    instance before it, and the failed one, given the last instance. *)
Theorem deferral_inside_list (q : string) (l0 : Element * Schema)
    (l1 : list (Element * Schema)) (el : Element) (sc : Schema)
    (rest : list item) (err : Exn) (st : bstate W) :
  xsd_globals st !! q
  = Some (Chain (as_items (l0 :: l1) ++ Decl el sc :: rest)) →
  Forall (λ l, tag l.1 = tag0) (l0 :: l1) →
  tag el = tag0 →
  succeeds_on kwargs f q (l0 :: l1) →
  raises_on kwargs f err el sc →
  is_deferral err = true →
  length (missing st) + 1 ≠ errors_counter st →
  ∃ xs x_last st',
    process_key q st = Done st'
    ∧ length xs = S (length l1)
    ∧ last xs = Some x_last
    ∧ calls st'
      = calls st ++ expected_calls q None (l0 :: l1) xs
          ++ [{| fc_key := q; fc_elem := el; fc_schema := sc;
                 fc_prev := Some x_last; fc_result := Raise err |}]
    ∧ xsd_globals st' !! q
      = Some (Chain (Inst x_last :: as_items l1 ++ Decl el sc :: rest))
    ∧ missing st' = missing st ++ [q].
Proof.
  destruct l0 as [e0 s0]. intros Hq Htags Htag Hok Hraise Hdef Hlen.
  destruct (chain_loop_prefix q ((e0, s0) :: l1) (Decl el sc :: rest) None st
              (Decl e0 s0) (as_items l1 ++ Decl el sc :: rest) Hq Htags Hok)
    as (xs & st1 & Hxs & Hrun & Hcalls & Hent & Hsame & _).
  destruct (last xs) as [x_last|] eqn:Hlast.
  2:{ apply last_None in Hlast. by subst xs. }
  exists xs, x_last.
  unfold Namespaces.process_key. rewrite Hq.
  change (as_items ((e0, s0) :: l1) ++ Decl el sc :: rest)
    with (Decl e0 s0 :: as_items l1 ++ Decl el sc :: rest) in Hrun |- *.
  rewrite try_body_raw_list, Hrun.
  cbn [Namespaces.chain_loop]. rewrite decide_False by (by intros ?).
  unfold Namespaces.call_factory. rewrite factory_present.
  destruct (Hraise (world (set_elem (Some el) st1))
              (xsd_globals (set_elem (Some el) st1))
              (last_instance None xs)) as (w' & ->).
  rewrite Hdef. unfold except_clause. cbn [l_elem set_elem].
  cbn zeta. destruct Hsame as (_ & Hec & Hmiss & _).
  rewrite decide_False.
  2:{ cbn [missing errors_counter set_elem]. rewrite length_app, Hmiss, Hec.
      cbn. lia. }
  eexists. split; [done|]. cbn. split_and!; try done.
  - rewrite Hcalls. unfold last_instance. rewrite Hlast.
    by rewrite <- (assoc_L (++)).
  - by rewrite Hmiss.
Qed.

(** X18: a list whose first item is an instance is resumed after it:
    every link after the first item is invoked, in order, the first of
    them given that instance and each other the instance built before it;
    when all succeed, the last instance replaces the list. *)
Theorem list_resumes_after_head (q : string) (x : XsdBase)
    (links : list (Element * Schema)) (st : bstate W) :
  xsd_globals st !! q = Some (Chain (Inst x :: as_items links)) →
  links ≠ [] →
  Forall (λ l, tag l.1 = tag0) links →
  succeeds_on kwargs f q links →
  ∃ xs x_last st',
    process_key q st = Done st'
    ∧ length xs = length links
    ∧ last xs = Some x_last
    ∧ calls st' = calls st ++ expected_calls q (Some x) links xs
    ∧ xsd_globals st' !! q = Some (Single (Inst x_last))
    ∧ missing st' = missing st.
Proof.
  intros Hq Hne Htags Hok.
  destruct (chain_loop_success factory_key tag0 kwargs f factory_present
              q links (Some x) st Htags Hok)
    as (xs & st1 & Hrun & Hxs & Hcalls & Hloc).
  destruct (Hloc Hne) as ((el & Hel & Htag) & Hres).
  destruct (last xs) as [x_last|] eqn:Hlast.
  2:{ apply last_None in Hlast. subst xs. by destruct links. }
  exists xs, x_last.
  unfold Namespaces.process_key. rewrite Hq.
  cbn [Namespaces.try_body]. rewrite Hrun.
  unfold Namespaces.else_clause. rewrite Hel, Hres.
  rewrite decide_False by (by intros ?). rewrite decide_False by (by intros ?).
  eexists. split; [done|]. cbn. unfold last_instance. rewrite Hlast.
  rewrite lookup_insert_eq. split_and!; try done.
  pose proof (chain_loop_same_pass factory_key tag0 kwargs q (as_items links)
                (Some x) st) as Hsame.
  rewrite Hrun in Hsame. by destruct Hsame as (_ & _ & Hm & _).
Qed.

(** X19: when the links of a list are built up to a link of another tag,
    the loop stops there without an error: the key is not deferred, and
    the list stays in the map with the last instance built as its first
    item. When only one link was built, that list is an entry the builder
    has nothing more to do for. *)
Theorem list_stops_at_other_tag (q : string) (l0 : Element * Schema)
    (l1 : list (Element * Schema)) (el : Element) (sc : Schema)
    (rest : list item) (st : bstate W) :
  xsd_globals st !! q
  = Some (Chain (as_items (l0 :: l1) ++ Decl el sc :: rest)) →
  Forall (λ l, tag l.1 = tag0) (l0 :: l1) →
  tag el ≠ tag0 →
  succeeds_on kwargs f q (l0 :: l1) →
  ∃ xs x_last st',
    process_key q st = Done st'
    ∧ length xs = S (length l1)
    ∧ last xs = Some x_last
    ∧ calls st' = calls st ++ expected_calls q None (l0 :: l1) xs
    ∧ xsd_globals st' !! q
      = Some (Chain (Inst x_last :: as_items l1 ++ Decl el sc :: rest))
    ∧ missing st' = missing st
    ∧ (l1 = [] →
       idle tag0 built (Chain (Inst x_last :: as_items l1 ++ Decl el sc :: rest))).
Proof.
  destruct l0 as [e0 s0]. intros Hq Htags Htag Hok.
  destruct (chain_loop_prefix q ((e0, s0) :: l1) (Decl el sc :: rest) None st
              (Decl e0 s0) (as_items l1 ++ Decl el sc :: rest) Hq Htags Hok)
    as (xs & st1 & Hxs & Hrun & Hcalls & Hent & Hsame & _).
  destruct (last xs) as [x_last|] eqn:Hlast.
  2:{ apply last_None in Hlast. by subst xs. }
  exists xs, x_last.
  unfold Namespaces.process_key. rewrite Hq.
  change (as_items ((e0, s0) :: l1) ++ Decl el sc :: rest)
    with (Decl e0 s0 :: as_items l1 ++ Decl el sc :: rest) in Hrun |- *.
  rewrite try_body_raw_list, Hrun.
  cbn [Namespaces.chain_loop]. rewrite decide_True by done.
  unfold Namespaces.else_clause. cbn [l_elem set_elem].
  rewrite decide_True by done.
  eexists. split; [done|]. cbn. destruct Hsame as (_ & _ & Hmiss & _).
  split_and!; try done. by intros ->.
Qed.

End ChainProgress.

(** ** More properties of the registry *)

Section RegisterFacts.
Import Namespaces.
Context `{Externals} {W : Type}.

Lemma lookup_namespace_new t l (ns : list (string * list Schema)) :
  lookup_namespace t ns = None →
  lookup_namespace t (ns ++ [(t, l)]) = Some l.
Proof.
  unfold lookup_namespace. induction ns as [|[k scs] ns IH]; cbn.
  - by rewrite bool_decide_eq_true_2.
  - case_bool_decide; [done|]. exact IH.
Qed.

Lemma lookup_namespace_append t sc l (ns : list (string * list Schema)) :
  lookup_namespace t ns = Some l →
  lookup_namespace t (append_schema t sc ns) = Some (l ++ [sc]).
Proof.
  unfold lookup_namespace. induction ns as [|[k scs] ns IH]; cbn; [done|].
  case_bool_decide as Hk.
  - cbn in Hk. subst k. intros [= <-]. rewrite decide_True by done. cbn.
    by rewrite bool_decide_eq_true_2.
  - cbn in Hk. rewrite decide_False by done. cbn.
    rewrite bool_decide_eq_false_2 by done. exact IH.
Qed.

Lemma set_indices_same (self : XsdGlobals W) :
  set_indices (namespaces self) (resources self) self = self.
Proof. by destruct self. Qed.

(** X20: registering a schema a second time changes nothing, whatever
    the first registration did. *)
Theorem register_idempotent (sc : Schema) (self : XsdGlobals W) :
  register sc (register sc self) = register sc self.
Proof.
  unfold register at 2 3.
  set (by_uri := match uri sc with Some u => _ | None => _ end).
  destruct by_uri as [res|] eqn:Huri.
  2:{ unfold register. fold by_uri. by rewrite Huri. }
  assert (Hagain :
            match uri sc with
            | Some u =>
                if decide (u = "") then Some res
                else
                  match res !! u with
                  | None => Some (<[u := sc]> res)
                  | Some other =>
                      if decide (sid other ≠ sid sc) then None else Some res
                  end
            | None => Some res
            end = Some res).
  { subst by_uri. destruct (uri sc) as [u|]; [|done].
    destruct (decide (u = "")); [done|].
    destruct (resources self !! u) as [other|] eqn:Hu.
    - destruct (decide (sid other ≠ sid sc)); [done|].
      injection Huri as <-. rewrite Hu. by rewrite decide_False.
    - injection Huri as <-. rewrite lookup_insert_eq.
      by rewrite decide_False by (by intros ?). }
  destruct (lookup_namespace (target_namespace sc) (namespaces self))
    as [l|] eqn:Hl.
  - destruct (bool_decide (Exists (λ o, sid o = sid sc) l)) eqn:Hin;
      [|destruct (bool_decide (Exists (λ o, uri sc = uri o) l)) eqn:Huri2].
    + unfold register. cbn [resources namespaces set_indices]. rewrite Hagain.
      rewrite Hl, Hin. done.
    + unfold register. cbn [resources namespaces set_indices]. rewrite Hagain.
      rewrite Hl, Hin, Huri2. done.
    + unfold register. cbn [resources namespaces set_indices]. rewrite Hagain.
      rewrite (lookup_namespace_append _ _ l) by done.
      rewrite bool_decide_eq_true_2; [done|].
      apply Exists_app. right. by constructor.
  - unfold register. cbn [resources namespaces set_indices]. rewrite Hagain.
    rewrite lookup_namespace_new by done.
    rewrite bool_decide_eq_true_2; [done|]. by constructor.
Qed.

Lemma lookup_namespace_None t (ns : list (string * list Schema)) :
  lookup_namespace t ns = None ↔ t ∉ ns.*1.
Proof.
  unfold lookup_namespace. induction ns as [|[k scs] ns IH]; cbn.
  - split; [intros _; apply not_elem_of_nil|done].
  - rewrite not_elem_of_cons. case_bool_decide as Hk; cbn in Hk.
    + split; [done|]. by intros [? _].
    + rewrite IH. split; [by split|by intros [_ ?]].
Qed.

Lemma lookup_namespace_Some t l (ns : list (string * list Schema)) :
  lookup_namespace t ns = Some l → (t, l) ∈ ns.
Proof.
  unfold lookup_namespace. induction ns as [|[k scs] ns IH]; cbn; [done|].
  case_bool_decide as Hk; cbn in Hk.
  - intros [= <-]. subst k. by left.
  - intros Hl. right. by apply IH.
Qed.

Lemma append_schema_keys t sc (ns : list (string * list Schema)) :
  (append_schema t sc ns).*1 = ns.*1.
Proof.
  induction ns as [|[k scs] ns IH]; [done|]. cbn.
  destruct (decide (k = t)); cbn; [done|]. by rewrite IH.
Qed.

(** How [register] leaves [namespaces]: as it was, with a new namespace
    holding the schema, or with the schema appended to the list of its
    namespace. *)
Lemma register_namespaces sc (self : XsdGlobals W) :
  namespaces (register sc self) = namespaces self
  ∨ (lookup_namespace (target_namespace sc) (namespaces self) = None
     ∧ namespaces (register sc self)
       = namespaces self ++ [(target_namespace sc, [sc])])
  ∨ (∃ l, lookup_namespace (target_namespace sc) (namespaces self) = Some l
          ∧ ¬ Exists (λ o, sid o = sid sc) l
          ∧ ¬ Exists (λ o, uri sc = uri o) l
          ∧ namespaces (register sc self)
            = append_schema (target_namespace sc) sc (namespaces self)).
Proof.
  unfold register.
  destruct (match uri sc with Some u => _ | None => _ end) as [res|]; [|by left].
  destruct (lookup_namespace _ _) as [l|] eqn:Hl; [|right; left; by split].
  case_bool_decide as Hsid; [by left|].
  case_bool_decide as Huri; [by left|].
  right. right. by exists l.
Qed.

Lemma indexed_append t sc l (ns : list (string * list Schema)) :
  indexed ns → target_namespace sc = t →
  lookup_namespace t ns = Some l →
  ¬ Exists (λ o, uri sc = uri o) l →
  indexed (append_schema t sc ns).
Proof.
  intros [Hkeys Hall] Ht Hl Huri. split; [by rewrite append_schema_keys|].
  clear Hkeys. revert Hl. unfold lookup_namespace.
  induction Hall as [|[k scs] ns (Hne & Htarget & Huris) Hall IH]; [done|].
  cbn. case_bool_decide as Hk; cbn in Hk.
  - intros [= <-]. subst k. rewrite decide_True by done.
    constructor; [|done]. cbn. split_and!.
    + by destruct scs.
    + apply Forall_app. split; [done|]. by constructor.
    + rewrite fmap_app. apply NoDup_app. split_and!; [done| |apply NoDup_singleton].
      intros u Hu Hin. apply list_elem_of_singleton in Hin. subst u.
      apply Huri. apply list_elem_of_fmap in Hu as (o & Ho & Hin).
      apply Exists_exists. by exists o.
  - intros Hl. rewrite decide_False by done. constructor; [done|]. by apply IH.
Qed.

Lemma register_indexed sc (self : XsdGlobals W) :
  indexed (namespaces self) → indexed (namespaces (register sc self)).
Proof.
  intros Hix.
  destruct (register_namespaces sc self)
    as [->|[[Hnew ->]|(l & Hl & _ & Huri & ->)]]; [done| |].
  - destruct Hix as [Hkeys Hall]. split.
    + rewrite fmap_app. apply NoDup_app. split_and!; [done| |apply NoDup_singleton].
      intros k Hk Hin. apply list_elem_of_singleton in Hin. cbn in Hin. subst k.
      by apply lookup_namespace_None in Hnew.
    + apply Forall_app. split; [done|]. constructor; [|done]. cbn.
      split_and!; [done|by constructor|apply NoDup_singleton].
  - by eapply indexed_append.
Qed.

Lemma iter_schemas_append t sc (ns : list (string * list Schema)) sc' :
  sc' ∈ flat_map snd (append_schema t sc ns) →
  sc' = sc ∨ sc' ∈ flat_map snd ns.
Proof.
  induction ns as [|[k scs] ns IH]; [by intros ?%elem_of_nil|]. cbn.
  destruct (decide (k = t)); cbn; rewrite !elem_of_app.
  - rewrite list_elem_of_singleton. tauto.
  - intros [?|?]; [tauto|]. destruct IH; tauto.
Qed.

Lemma sublist_append_schema t sc (ns : list (string * list Schema)) :
  flat_map snd ns `sublist_of` flat_map snd (append_schema t sc ns).
Proof.
  induction ns as [|[k scs] ns IH]; [done|]. cbn.
  destruct (decide (k = t)); cbn.
  - apply sublist_app; [|done]. by apply sublist_inserts_r.
  - by apply sublist_app.
Qed.

Lemma register_iter_schemas sc (self : XsdGlobals W) sc' :
  sc' ∈ iter_schemas (register sc self) → sc' = sc ∨ sc' ∈ iter_schemas self.
Proof.
  unfold iter_schemas.
  destruct (register_namespaces sc self)
    as [->|[[_ ->]|(l & _ & _ & _ & ->)]]; [by right| |].
  - rewrite flat_map_app, elem_of_app. cbn. rewrite list_elem_of_singleton. tauto.
  - apply iter_schemas_append.
Qed.

Lemma register_resources sc (self : XsdGlobals W) u sc' :
  resources (register sc self) !! u = Some sc' →
  resources self !! u = Some sc'
  ∨ (sc' = sc ∧ uri sc = Some u ∧ resources self !! u = None).
Proof.
  unfold register.
  destruct (uri sc) as [u0|] eqn:Hu0.
  2:{ repeat case_match; cbn; by left. }
  destruct (decide (u0 = "")).
  { repeat case_match; cbn; by left. }
  destruct (resources self !! u0) as [other|] eqn:Hother.
  { destruct (decide _); [by left|]. repeat case_match; cbn; by left. }
  assert (Hres : <[u0:=sc]> (resources self) !! u = Some sc' →
                 resources self !! u = Some sc'
                 ∨ sc' = sc ∧ Some u0 = Some u ∧ resources self !! u = None).
  { destruct (decide (u0 = u)) as [->|Hne].
    - rewrite lookup_insert_eq. intros [= <-]. by right.
    - rewrite lookup_insert_ne by done. by left. }
  repeat case_match; cbn; exact Hres.
Qed.

(** X21: in a registry obtained from a new one by registering schemas,
    every namespace is listed once, with a list that is not empty and
    holds schemas of that namespace, no two of them with the same resource
    URI (so at most one without a URI); every schema listed, and every
    schema of the resource index, is one of those registered, and the
    resource index maps a URI to a schema with that URI. *)
Theorem registered_schemas_indexed (v : Validator W) (flags : gset nat) (w : W)
    (schemas : list Schema) :
  let self := foldl (λ r sc, register sc r) (init v flags w) schemas in
  indexed (namespaces self)
  ∧ (∀ sc, sc ∈ iter_schemas self → sc ∈ schemas)
  ∧ (∀ u sc, resources self !! u = Some sc → uri sc = Some u ∧ sc ∈ schemas).
Proof.
  cbn zeta. induction schemas as [|sc schemas IH] using rev_ind.
  - cbn. split_and!.
    + split; [apply NoDup_nil_2|done].
    + done.
    + intros u sc. by rewrite lookup_empty.
  - rewrite foldl_app. cbn [foldl].
    set (self := foldl (λ r sc, register sc r) (init v flags w) schemas) in *.
    destruct IH as (Hix & Hnames & Hres). split_and!.
    + by apply register_indexed.
    + intros sc' [->|Hin]%register_iter_schemas; apply elem_of_app.
      * right. by left.
      * left. by apply Hnames.
    + intros u sc' [Hold|(-> & Hu & _)]%register_resources.
      * destruct (Hres u sc' Hold) as [? ?]. split; [done|].
        apply elem_of_app. by left.
      * split; [done|]. apply elem_of_app. right. by left.
Qed.

(** X22: [register] only adds: the schemas listed before are listed
    after, in the same order, with at most one more, which is the schema
    registered; the resource index keeps its entries; the six maps, the
    view cache and the [built] flags are untouched. *)
Theorem register_only_adds (sc : Schema) (self : XsdGlobals W) :
  iter_schemas self `sublist_of` iter_schemas (register sc self)
  ∧ length (iter_schemas (register sc self)) ≤ S (length (iter_schemas self))
  ∧ (∀ sc', sc' ∈ iter_schemas (register sc self) →
            sc' = sc ∨ sc' ∈ iter_schemas self)
  ∧ resources self ⊆ resources (register sc self)
  ∧ (∀ m, get_map m (register sc self) = get_map m self)
  ∧ _view_cache (register sc self) = _view_cache self
  ∧ built_schemas (register sc self) = built_schemas self.
Proof.
  split_and!.
  - unfold iter_schemas.
    destruct (register_namespaces sc self)
      as [->|[[_ ->]|(l & _ & _ & _ & ->)]]; [done| |].
    + rewrite flat_map_app. by apply sublist_inserts_r.
    + apply sublist_append_schema.
  - unfold iter_schemas.
    destruct (register_namespaces sc self)
      as [->|[[_ ->]|(l & _ & _ & _ & ->)]]; [lia| |].
    + rewrite flat_map_app, length_app. cbn. lia.
    + generalize (namespaces self). intros ns.
      induction ns as [|[k scs] ns IH]; [cbn; lia|]. cbn.
      destruct (decide (k = target_namespace sc)); cbn;
        rewrite ?length_app in *; cbn; lia.
  - apply register_iter_schemas.
  - unfold register.
    destruct (uri sc) as [u0|];
      [|repeat case_match; simplify_eq; cbn; reflexivity].
    destruct (decide (u0 = ""));
      [repeat case_match; simplify_eq; cbn; reflexivity|].
    destruct (resources self !! u0) as [other|] eqn:Hother.
    { repeat case_match; simplify_eq; cbn; reflexivity. }
    assert (resources self ⊆ <[u0:=sc]> (resources self))
      by (by apply insert_subseteq).
    repeat case_match; simplify_eq; done.
  - intros m. apply register_maps.
  - unfold register. repeat case_match; done.
  - unfold register. repeat case_match; done.
Qed.

End RegisterFacts.

Section BuildOutcome.
Import Namespaces.
Context `{Externals} {W : Type}.

(** X23: however [build] ends, the schemas registered, the resource
    index and the view cache are as they were; so a view cached before
    the build is the view [get_globals] returns after it, whatever the
    build did to the map. *)
Theorem build_keeps_indices_and_cache (fuel : nat) (self self' : XsdGlobals W)
    (raised : option Exn) :
  build fuel self = Some (self', raised) →
  namespaces self' = namespaces self
  ∧ resources self' = resources self
  ∧ _view_cache self' = _view_cache self
  ∧ (∀ map_name namespace fqn_keys view,
       _view_cache self !! (map_name, namespace, fqn_keys) = Some view →
       get_globals map_name namespace fqn_keys self' = (view, self')).
Proof.
  intros (_ & Hns & Hres & Hcache & _)%build_same_indices.
  split_and!; try done.
  intros m ns fqn view Hview. apply get_globals_hit. by rewrite Hcache.
Qed.

(** X24: a [build] that raises leaves every [built] flag as it was; a
    [build] that returns has set the flag of every registered schema, and
    of no other. *)
Theorem built_flags_set_on_success_only (fuel : nat)
    (self self' : XsdGlobals W) (raised : option Exn) :
  build fuel self = Some (self', raised) →
  match raised with
  | Some _ => built_schemas self' = built_schemas self
  | None =>
      built_schemas self'
      = built_schemas self ∪ list_to_set (sid <$> iter_schemas self)
      ∧ Forall (λ sc, is_built self' sc = true) (iter_schemas self')
  end.
Proof.
  intros Hrun. pose proof (build_same_indices _ _ _ _ Hrun) as (_ & Hns & _).
  apply build_inv in Hrun
    as [([e ->] & _ & Hb)|(-> & s1 & s2 & H1 & H2 & H3)]; [done|].
  apply global_steps_touch in H1 as [[(_ & Hns1 & _) _] Hb1].
  apply update_base_elements_touches in H2 as ([(_ & Hns2 & _) _] & Hb2 & _).
  apply mark_built_touches in H3 as (_ & _ & Hb3 & _).
  assert (Hiter : iter_schemas s2 = iter_schemas self).
  { unfold iter_schemas. by rewrite Hns2, Hns1. }
  assert (Hflags : built_schemas self'
                   = built_schemas self ∪ list_to_set (sid <$> iter_schemas self)).
  { by rewrite Hb3, Hb2, Hb1, Hiter. }
  split; [done|]. apply Forall_forall. intros sc Hsc.
  unfold is_built. apply bool_decide_eq_true. rewrite Hflags.
  apply elem_of_union. right. apply elem_of_list_to_set, list_elem_of_fmap.
  exists sc. split; [done|]. unfold iter_schemas in *. by rewrite <- Hns.
Qed.

(** *** The base elements *)

Lemma group_elements_lookup (xs : list XsdBase) (acc : gmap string entry) k en :
  foldl (λ acc e, <[name e := Single (Inst e)]> acc) acc xs !! k = Some en →
  acc !! k = Some en ∨ ∃ e, e ∈ xs ∧ name e = k ∧ en = Single (Inst e).
Proof.
  revert acc. induction xs as [|x xs IH]; intros acc; [by left|].
  cbn [foldl]. intros [Hacc|(e & He & Hk & Hen)]%IH.
  - destruct (decide (name x = k)) as [Hx|Hx].
    + subst k. rewrite lookup_insert_eq in Hacc. injection Hacc as <-.
      right. exists x. split; [by left|done].
    + rewrite lookup_insert_ne in Hacc by done. by left.
  - right. exists e. split; [by right|done].
Qed.

Lemma group_elements_keep (xs : list XsdBase) (acc : gmap string entry) k :
  is_Some (acc !! k) →
  is_Some (foldl (λ acc e, <[name e := Single (Inst e)]> acc) acc xs !! k).
Proof.
  revert acc. induction xs as [|x xs IH]; intros acc Hk; [done|].
  cbn [foldl]. apply IH. destruct (decide (name x = k)) as [<-|Hx].
  - rewrite lookup_insert_eq. eauto.
  - by rewrite lookup_insert_ne.
Qed.

Lemma group_elements_named (xs : list XsdBase) (acc : gmap string entry) e :
  e ∈ xs →
  is_Some (foldl (λ acc e, <[name e := Single (Inst e)]> acc) acc xs !! name e).
Proof.
  revert acc. induction xs as [|x xs IH]; intros acc Hin.
  - by apply elem_of_nil in Hin.
  - cbn [foldl]. apply elem_of_cons in Hin as [->|Hin]; [|by apply IH].
    apply group_elements_keep. rewrite lookup_insert_eq. eauto.
Qed.

Lemma add_groups_spec (gs : list entry) (base0 base : gmap string entry) :
  for_each add_group_elements gs base0 = (base, None) →
  (∀ k en, base !! k = Some en →
     base0 !! k = Some en
     ∨ ∃ x e, Single (Inst x) ∈ gs ∧ e ∈ iter_elements x ∧ name e = k
              ∧ en = Single (Inst e))
  ∧ (∀ k, is_Some (base0 !! k) → is_Some (base !! k))
  ∧ (∀ x e, Single (Inst x) ∈ gs → e ∈ iter_elements x →
            is_Some (base !! name e)).
Proof.
  revert base0. induction gs as [|g gs IH]; intros base0.
  - intros [= <-]. split_and!; [by left|done|].
    intros x e Hin. by apply elem_of_nil in Hin.
  - cbn [for_each]. unfold add_group_elements at 1.
    destruct g as [[x| |]|]; try done.
    intros (Hfrom & Hkeep & Hnamed)%IH. split_and!.
    + intros k en [Hk|(x' & e & Hin & He & Hn & Hen)]%Hfrom.
      * apply lookup_union_Some_raw in Hk as [Hk|[_ Hk]]; [|by left].
        apply group_elements_lookup in Hk as [Hk|(e & He & Hn & Hen)].
        { by rewrite lookup_empty in Hk. }
        right. exists x, e. split; [by left|done].
      * right. exists x', e. split; [by right|done].
    + intros k Hk. apply Hkeep, lookup_union_is_Some. by right.
    + intros x' e [Heq|Hin]%elem_of_cons He; [|by eapply Hnamed].
      injection Heq as <-. apply Hkeep, lookup_union_is_Some. left.
      by apply group_elements_named.
Qed.

(** X25: after an error-free [build], the base elements hold a value
    under the name of every global element, under every name they held
    before, and under the name of every element a model group contains;
    and every value they hold is the global element of that name, the
    value held before, or an element of a model group. *)
Theorem base_elements_after_build (fuel : nat) (self self' : XsdGlobals W) :
  build fuel self = Some (self', None) →
  (∀ k, is_Some (elements self' !! k) → is_Some (base_elements self' !! k))
  ∧ (∀ k, is_Some (base_elements self !! k) →
          is_Some (base_elements self' !! k))
  ∧ (∀ gk x e, groups self' !! gk = Some (Single (Inst x)) →
               e ∈ iter_elements x →
               is_Some (base_elements self' !! name e))
  ∧ (∀ k en, base_elements self' !! k = Some en →
       elements self' !! k = Some en
       ∨ base_elements self !! k = Some en
       ∨ ∃ gk x e, groups self' !! gk = Some (Single (Inst x))
                   ∧ e ∈ iter_elements x ∧ name e = k
                   ∧ en = Single (Inst e)).
Proof.
  intros (s1 & s2 & H1 & H2 & H3)%build_success_inv.
  apply global_steps_touch in H1 as [[_ Hbase] _].
  assert (Hb : base_elements s1 = base_elements self).
  { apply (Hbase base_elements_map). by intros ?. }
  rewrite <- Hb. clear Hbase Hb.
  apply mark_built_touches in H3 as ([_ Hmaps] & _).
  assert (He : elements self' = elements s2)
    by (apply (Hmaps elements_map); tauto).
  assert (Hg : groups self' = groups s2)
    by (apply (Hmaps groups_map); tauto).
  assert (Hb : base_elements self' = base_elements s2)
    by (apply (Hmaps base_elements_map); tauto).
  rewrite He, Hg, Hb. clear Hmaps He Hg Hb.
  revert H2. unfold update_base_elements.
  destruct (for_each _ _ _) as [base r] eqn:Hrun. intros [= <- ->].
  apply add_groups_spec in Hrun as (Hfrom & Hkeep & Hnamed).
  assert (Hgroup : ∀ x, Single (Inst x) ∈ (map_to_list (groups s1)).*2
                        ↔ ∃ gk, groups s1 !! gk = Some (Single (Inst x))).
  { intros x. rewrite list_elem_of_fmap. split.
    - intros ([gk en] & -> & Hin). exists gk. by apply elem_of_map_to_list.
    - intros [gk Hgk]. exists (gk, Single (Inst x)). split; [done|].
      by apply elem_of_map_to_list. }
  cbn [elements groups base_elements set_map]. repeat rewrite decide_False by done.
  rewrite decide_True by done.
  split_and!.
  - intros k Hk. apply Hkeep, lookup_union_is_Some. by left.
  - intros k Hk. apply Hkeep, lookup_union_is_Some. by right.
  - intros gk x e Hgk He. eapply Hnamed; [|done]. apply Hgroup. eauto.
  - intros k en [Hk|(x & e & Hin & He & Hn & Hen)]%Hfrom.
    + apply lookup_union_Some_raw in Hk as [Hk|[_ Hk]]; [by left|by right; left].
    + right. right. apply Hgroup in Hin as [gk Hgk]. by exists gk, x, e.
Qed.

(** *** Building what is built already *)

Lemma set_map_same m (self : XsdGlobals W) :
  set_map m (get_map m self) self = self.
Proof. by destruct self, m. Qed.

Lemma commit_same m (st : bstate W) (self : XsdGlobals W) :
  xsd_globals st = get_map m self → world st = outer_world self →
  calls st = factory_log self → commit m st self = self.
Proof.
  intros Hg Hw Hc. unfold commit. rewrite Hg, Hw, Hc, set_map_same.
  by destruct self.
Qed.

Lemma settled_idle T built en : settled built en = true → idle T built en.
Proof.
  destruct en as [[x| |]|]; try done. cbn.
  destruct (elem x) as [el|]; [|done].
  destruct (schema x) as [sc|]; [|done]. intros Hb. right. by exists sc.
Qed.

Lemma load_step_built T m (self : XsdGlobals W) :
  Forall (λ sc, is_built self sc = true) (iter_schemas self) →
  load_step T m self = Some (self, None).
Proof.
  intros Hall. unfold load_step.
  rewrite (load_all_built T (is_built self) (get_map m self)
             (iter_schemas self) Hall).
  by rewrite set_map_same.
Qed.

Lemma build_step_settled fuel key T m lg (self : XsdGlobals W) :
  map_Forall (λ _ en, settled (is_built self) en = true) (get_map m self) →
  build_step (S fuel) key T m lg self = Some (self, None).
Proof.
  intros Hall. unfold build_step.
  destruct (build_xsd_map_idle key T
              {| factories := OPTIONS (validator self);
                 parse_local_groups := lg |}
              (is_built self) fuel (get_map m self)
              (outer_world self) (factory_log self))
    as (st & -> & Hg & Hc & Hw).
  { intros q en Hq. apply settled_idle. by apply (Hall q en). }
  by rewrite commit_same.
Qed.

Lemma add_groups_succeed (gs : list entry) (base0 : gmap string entry) :
  Forall is_instance gs →
  ∃ base, for_each add_group_elements gs base0 = (base, None).
Proof.
  intros Hall. revert base0.
  induction Hall as [|g gs Hg _ IH]; intros base0; [by eexists|].
  cbn [for_each]. unfold add_group_elements at 1.
  by destruct g as [[x| |]|].
Qed.

(** X26: [build] on a registry whose schemas are all built, and whose
    maps hold only instances without element or of built schemas, returns
    without an error and without any factory invocation: the five maps of
    global declarations, the log, the world and the flags are as they
    were. *)
Theorem rebuild_of_built_registry (fuel : nat) (self : XsdGlobals W) :
  Forall (λ sc, is_built self sc = true) (iter_schemas self) →
  (∀ m, m ≠ base_elements_map →
        map_Forall (λ _ en, settled (is_built self) en = true) (get_map m self)) →
  ∃ self',
    build (S fuel) self = Some (self', None)
    ∧ (∀ m, m ≠ base_elements_map → get_map m self' = get_map m self)
    ∧ factory_log self' = factory_log self
    ∧ outer_world self' = outer_world self
    ∧ built_schemas self' = built_schemas self.
Proof.
  intros Hbuilt Hsettled.
  assert (Hl : ∀ T m, load_step T m self = Some (self, None))
    by (intros; by apply load_step_built).
  assert (Hb : ∀ key T m lg, m ≠ base_elements_map →
                 build_step (S fuel) key T m lg self = Some (self, None)).
  { intros key T m lg Hm. apply build_step_settled. by apply Hsettled. }
  assert (Hglobal : foldr and_then (λ s, Some (s, None))
                      (global_steps (S fuel)) self = Some (self, None)).
  { unfold global_steps. cbn [build_steps take foldr]. unfold and_then.
    repeat (first [rewrite Hl | rewrite Hb by done]; cbn beta iota). done. }
  unfold build. rewrite build_steps_split, steps_app, Hglobal.
  cbn [foldr]. unfold and_then.
  destruct (update_base_elements self) as [[s2 r]|] eqn:H2.
  2:{ unfold update_base_elements in H2. by destruct (for_each _ _ _). }
  assert (r = None) as ->.
  { revert H2. unfold update_base_elements.
    destruct (add_groups_succeed (map_to_list (groups self)).*2
                (elements self ∪ base_elements self)) as [base ->].
    - apply Forall_forall. intros en ([gk en'] & -> & Hin)%list_elem_of_fmap.
      apply elem_of_map_to_list in Hin. cbn.
      specialize (Hsettled groups_map ltac:(done) gk en' Hin). cbn in Hsettled.
      by destruct en' as [[x| |]|].
    - by intros [= _ <-]. }
  apply update_base_elements_touches in H2
    as ([(_ & Hns & _) Hmaps] & Hflags & Hw & Hlog).
  eexists. split; [done|]. cbn. split_and!; try done.
  unfold iter_schemas. rewrite Hflags, Hns. apply set_eq. intros i.
  rewrite elem_of_union. split; [|by left]. intros [?|Hi]; [done|].
  apply elem_of_list_to_set, list_elem_of_fmap in Hi as (sc & -> & Hsc).
  rewrite Forall_forall in Hbuilt.
  by apply (bool_decide_eq_true_1 _ (Hbuilt sc Hsc)).
Qed.

End BuildOutcome.

(** ** Registries that share their lists of schemas *)

Section SharedLists.
Import Namespaces.
Context `{Externals} {W : Type}.

Lemma lookup_namespace_read t (h : ListStore) (ns : list (string * nat)) :
  lookup_namespace t (read_lists h ns)
  = (λ a, default [] (h !! a)) <$> lookup_address t ns.
Proof.
  unfold lookup_namespace, lookup_address, read_lists.
  induction ns as [|[k a] ns IH]; [done|]. cbn.
  case_bool_decide; [done|]. exact IH.
Qed.

Lemma read_lists_alloc (h : ListStore) l (ns : list (string * nat)) :
  Forall (λ kv, kv.2 < length h) ns →
  read_lists (h ++ [l]) ns = read_lists h ns.
Proof.
  unfold read_lists. induction 1 as [|[k a] ns Ha _ IH]; [done|].
  rewrite !fmap_cons, IH. cbn [fst snd] in *. by rewrite lookup_app_l.
Qed.

Lemma read_lists_other (h : ListStore) a l (ns : list (string * nat)) :
  a ∉ ns.*2 → read_lists (<[a := l]> h) ns = read_lists h ns.
Proof.
  unfold read_lists. induction ns as [|[k b] ns IH]; [done|].
  rewrite !fmap_cons. cbn [fst snd]. intros [Hb Hns]%not_elem_of_cons.
  rewrite IH by done. by rewrite list_lookup_insert_ne.
Qed.

Lemma lookup_address_elem t a (ns : list (string * nat)) :
  lookup_address t ns = Some a → a ∈ ns.*2.
Proof.
  unfold lookup_address. induction ns as [|[k b] ns IH]; [done|]. cbn.
  case_bool_decide; [intros [= <-]; by left|]. intros Ha. right. by apply IH.
Qed.

Lemma read_lists_cons (h : ListStore) k a (ns : list (string * nat)) :
  read_lists h ((k, a) :: ns) = (k, default [] (h !! a)) :: read_lists h ns.
Proof. done. Qed.

Lemma lookup_address_cons t k a (ns : list (string * nat)) :
  lookup_address t ((k, a) :: ns)
  = if decide (k = t) then Some a else lookup_address t ns.
Proof.
  unfold lookup_address. cbn. case_bool_decide; by case_decide.
Qed.

Lemma read_lists_append t sc a (h : ListStore) (ns : list (string * nat)) :
  NoDup ns.*2 → Forall (λ kv, kv.2 < length h) ns →
  lookup_address t ns = Some a →
  read_lists (<[a := default [] (h !! a) ++ [sc]]> h) ns
  = append_schema t sc (read_lists h ns).
Proof.
  induction ns as [|[k b] ns IH]; [done|].
  rewrite fmap_cons, lookup_address_cons, !read_lists_cons.
  intros [Hb Hnd]%NoDup_cons [Hlt Hall]%Forall_cons. cbn [fst snd] in *.
  cbn [append_schema]. destruct (decide (k = t)) as [->|Hk].
  - intros [= <-]. rewrite read_lists_other by done.
    by rewrite list_lookup_insert_eq.
  - intros Ha. rewrite IH by done.
    rewrite list_lookup_insert_ne; [done|].
    intros ->. apply Hb. by apply (lookup_address_elem t).
Qed.

(** On one registry, [register_shared] does what [register] does. *)
Lemma register_shared_refines sc (h : ListStore) (ix : Index)
    (self : XsdGlobals W) :
  addressed h ix →
  with_index (register_shared sc h ix).1 (register_shared sc h ix).2 self
  = register sc (with_index h ix self)
  ∧ addressed (register_shared sc h ix).1 (register_shared sc h ix).2.
Proof.
  intros [Hnd Hall]. unfold register_shared, register.
  cbn [resources namespaces with_index set_indices].
  destruct (match uri sc with Some u => _ | None => _ end) as [res|]; [|done].
  rewrite lookup_namespace_read.
  destruct (lookup_address _ _) as [a|] eqn:Ha; cbn [fmap option_fmap option_map].
  - case_bool_decide; [done|]. case_bool_decide; [done|].
    cbn [fst snd ix_namespaces ix_resources]. split.
    + unfold with_index. cbn [ix_namespaces ix_resources].
      by rewrite (read_lists_append (target_namespace sc)).
    + split; [done|]. cbn. by rewrite length_insert.
  - cbn [fst snd ix_namespaces ix_resources]. split.
    + unfold with_index. cbn [ix_namespaces ix_resources].
      unfold read_lists at 1. rewrite fmap_app.
      fold (read_lists (h ++ [[sc]]) (ix_namespaces ix)).
      rewrite read_lists_alloc by done. cbn [fmap list_fmap fst snd].
      rewrite lookup_app_r by done. by rewrite Nat.sub_diag.
    + split; cbn.
      * rewrite fmap_app. apply NoDup_app. split_and!; [done| |apply NoDup_singleton].
        intros b Hb Hin. apply list_elem_of_singleton in Hin. cbn in Hin. subst b.
        apply list_elem_of_fmap in Hb as ([k b] & Heq & Hin).
        rewrite Forall_forall in Hall. specialize (Hall _ Hin). cbn in *. lia.
      * rewrite length_app. cbn. apply Forall_app. split.
        -- eapply Forall_impl; [exact Hall|]. intros [k b]. cbn. lia.
        -- constructor; [cbn; lia|done].
Qed.

Lemma copy_index_same (ix : Index) : copy_index ix = ix.
Proof. by destruct ix. Qed.

(** X27: a copy and its original share the lists of schemas. When a
    schema is registered in the copy, the copy is indexed as a registry
    is by [register]; the resource index of the original is unchanged;
    but if the original knows the namespace of the schema, its list for
    that namespace is the list of the copy, the new schema included, and
    only if it does not know the namespace is it left as it was. *)
Theorem copy_shares_schema_lists (sc : Schema) (h : ListStore) (ix : Index)
    (self : XsdGlobals W) :
  addressed h ix →
  let original := with_index h ix self in
  let registered := register_shared sc h (copy_index ix) in
  let new := with_index registered.1 registered.2 (copy self) in
  let original' := with_index registered.1 ix self in
  new = register sc (copy original)
  ∧ resources original' = resources original
  ∧ (is_Some (lookup_namespace (target_namespace sc) (namespaces original)) →
     namespaces original' = namespaces new)
  ∧ (lookup_namespace (target_namespace sc) (namespaces original) = None →
     namespaces original' = namespaces original).
Proof.
  intros Hok. cbn zeta. rewrite copy_index_same.
  split.
  { rewrite (proj1 (register_shared_refines sc h ix (copy self) Hok)).
    f_equal. }
  split; [done|].
  cbn [namespaces with_index set_indices]. rewrite lookup_namespace_read.
  destruct Hok as [Hnd Hall]. unfold register_shared.
  destruct (match uri sc with Some u => _ | None => _ end) as [res|].
  2:{ cbn [fst snd]. by split. }
  destruct (lookup_address _ _) as [a|] eqn:Ha; cbn [fmap option_fmap option_map].
  - split; [|done]. intros _. by repeat case_bool_decide.
  - split; [by intros [? ?]|]. intros _. cbn [fst snd].
    by apply read_lists_alloc.
Qed.

End SharedLists.

(** ** Clearing the registry *)

Section ClearFacts.
Import Namespaces.
Context `{Externals} {W : Type}.

(** The scan reads the [built] flag of the schemas it is given only. *)
Lemma scan_built_ext T (built1 built2 : Schema → bool) schemas st :
  Forall (λ sc, built1 sc = built2 sc) schemas →
  for_each (scan_schema T built1) schemas st
  = for_each (scan_schema T built2) schemas st.
Proof.
  intros Hall. revert st. induction Hall as [|sc schemas Hsc _ IH]; intros st; [done|].
  cbn [for_each]. unfold scan_schema at 1 3. rewrite Hsc.
  destruct (built2 sc); [apply IH|].
  destruct (for_each _ (iterfind_xsd_redefine (root sc)) st) as [st1 [e|]]; [done|].
  destruct (for_each _ (filter_function T (root sc)) st1) as [st2 [e|]]; [done|].
  apply IH.
Qed.

(** X28: [clear] resets the [built] flag of every registered schema,
    also when it forgets the schemas, and of no other schema; the schemas
    are kept unless their removal is asked for; the loaders skip none of
    the schemas still registered; and clearing twice is clearing once. *)
Theorem clear_resets_registered_schemas (remove_schemas : bool)
    (self : XsdGlobals W) :
  let cleared := clear remove_schemas self in
  Forall (λ sc, is_built cleared sc = false) (iter_schemas self)
  ∧ (∀ sc, sid sc ∉ sid <$> iter_schemas self →
           is_built cleared sc = is_built self sc)
  ∧ iter_schemas cleared = (if remove_schemas then [] else iter_schemas self)
  ∧ (∀ T g, load_xsd_globals T (is_built cleared) g (iter_schemas cleared)
            = load_xsd_globals T (λ _, false) g (iter_schemas cleared))
  ∧ clear remove_schemas cleared = cleared.
Proof.
  cbn zeta.
  assert (Hreset : ∀ sc, sc ∈ iter_schemas self →
                         is_built (clear remove_schemas self) sc = false).
  { intros sc Hsc. unfold is_built. apply bool_decide_eq_false. cbn.
    rewrite elem_of_difference, elem_of_list_to_set. intros [_ Hn]. apply Hn.
    apply list_elem_of_fmap. by exists sc. }
  assert (Hiter : iter_schemas (clear remove_schemas self)
                  = if remove_schemas then [] else iter_schemas self).
  { unfold iter_schemas. cbn. by destruct remove_schemas. }
  split_and!.
  - by apply Forall_forall.
  - intros sc Hsc. unfold is_built. apply bool_decide_ext. cbn.
    rewrite elem_of_difference, elem_of_list_to_set. tauto.
  - done.
  - intros T g. unfold load_xsd_globals. rewrite (scan_built_ext T _ (λ _, false)); [done|].
    rewrite Hiter. apply Forall_forall. intros sc Hsc. apply Hreset.
    by destruct remove_schemas; [apply elem_of_nil in Hsc|].
  - unfold clear at 1. rewrite Hiter. unfold clear. cbn.
    f_equal; try by destruct remove_schemas.
    apply set_eq. intros i. rewrite !elem_of_difference, !elem_of_list_to_set.
    destruct remove_schemas; cbn.
    + rewrite elem_of_nil. tauto.
    + fold (iter_schemas self). tauto.
Qed.

End ClearFacts.

(** ** The properties on the sample documents *)

(** A decidable proposition about closed terms, settled by evaluation. *)
Ltac by_evaluation :=
  match goal with
  | |- ?P =>
      let d := constr:(_ : Decision P) in
      apply (@bool_decide_unpack P d); vm_compute; exact I
  end.

(** Inserting at [-1] into an element with the children [a] and [b]:
    [b] stays last, the new child stands before it. *)
Lemma insert_negative_index_witness :
  DataObjects.__getitem__ (-1)
    (DataObjects.insert (-1) (DataObjects.leaf "c") Sample.two_children)
  = DataObjects.__getitem__ (-1) Sample.two_children
  ∧ DataObjects.__getitem__ (-1 - 1)
      (DataObjects.insert (-1) (DataObjects.leaf "c") Sample.two_children)
    = inr (DataObjects.leaf "c").
Proof. apply insert_negative_index. cbn. lia. Defined.

(** Loading the attribute groups of a schema that declares [A] and of a
    schema that redefines it. *)
Lemma load_only_appends_witness :
  let r := Namespaces.load_xsd_globals (H := Sample.externals)
             Sample.attribute_group_tag (λ _, false) ∅
             [Sample.original_a; Sample.redefining_a] in
  dom (∅ : gmap string Namespaces.entry) ⊆ dom r.1
  ∧ ∀ q, ∃ new,
      items_of (r.1 !! q) = items_of ((∅ : gmap string Namespaces.entry) !! q) ++ new
      ∧ Forall (link_ok Sample.attribute_group_tag) new.
Proof.
  intros r.
  apply (load_only_appends (H := Sample.externals) Sample.attribute_group_tag
           (λ _, false) ∅ r.1 [Sample.original_a; Sample.redefining_a] r.2).
  apply surjective_pairing.
Defined.

(** Loading the schema that declares [A] twice. *)
Lemma reload_appends_again_witness :
  let schemas := [Sample.original_a] in
  let g1 := (Namespaces.load_xsd_globals (H := Sample.externals)
               Sample.attribute_group_tag (λ _, false) ∅ schemas).1 in
  ∃ g2,
    Namespaces.load_xsd_globals (H := Sample.externals)
      Sample.attribute_group_tag (λ _, false) g1 schemas = (g2, None)
    ∧ ∀ q,
        let new := as_items
                     (originals_for (H := Sample.externals)
                        Sample.attribute_group_tag (λ _, false) q schemas
                      ++ redefinitions_for (H := Sample.externals)
                           Sample.attribute_group_tag (λ _, false) q schemas) in
        items_of (g1 !! q) = items_of ((∅ : gmap string Namespaces.entry) !! q) ++ new
        ∧ items_of (g2 !! q)
          = items_of ((∅ : gmap string Namespaces.entry) !! q) ++ new ++ new.
Proof.
  intros schemas g1.
  apply (reload_appends_again (H := Sample.externals)
           Sample.attribute_group_tag (λ _, false) ∅ g1 schemas).
  vm_compute. reflexivity.
Defined.

(** The attribute groups [A] and [B], [A] referring to [B]: the three
    invocations are made on attribute groups, for [A] or [B]. *)
Lemma factory_invoked_on_target_tag_only_witness :
  ∃ o cs,
    Namespaces.build_xsd_map (H := Sample.externals) "attribute_group_factory"
      (λ _, false) 4 Sample.two_groups_map Sample.attribute_group_tag
      (Sample.kwargs_with (Sample.ref_factory Sample.forward_refs)) 0 []
    = Some o
    ∧ dom (Namespaces.xsd_globals (final_state o)) = dom Sample.two_groups_map
    ∧ Namespaces.calls (final_state o) = [] ++ cs
    ∧ length cs = 3
    ∧ Forall (λ c, Namespaces.tag (Namespaces.fc_elem c) = Sample.attribute_group_tag
                   ∧ Namespaces.fc_key c ∈ dom Sample.two_groups_map) cs.
Proof.
  destruct (Namespaces.build_xsd_map (H := Sample.externals)
              "attribute_group_factory" (λ _, false) 4 Sample.two_groups_map
              Sample.attribute_group_tag
              (Sample.kwargs_with (Sample.ref_factory Sample.forward_refs)) 0 [])
    as [o|] eqn:Hrun; [|vm_compute in Hrun; discriminate].
  destruct (factory_invoked_on_target_tag_only (H := Sample.externals)
              _ _ _ _ _ _ _ _ _ Hrun) as (Hdom & cs & Hcs & Hall).
  exists o, cs. split_and!; [reflexivity|exact Hdom|exact Hcs| |exact Hall].
  vm_compute in Hrun. injection Hrun as <-. cbn in Hcs. subst cs. reflexivity.
Defined.

(** A factory that answers the declaration of [A] under the name [B]. *)
Lemma wrong_result_name_is_terminal_witness :
  let kw := Sample.kwargs_with (Sample.scripted_factory (λ _, None) (λ _, "B")) in
  let g : gmap string Namespaces.entry :=
    {["A" := Namespaces.Single (Namespaces.Decl Sample.group_a Sample.two_groups)]} in
  ∃ e st,
    Namespaces.build_xsd_map (H := Sample.externals) "attribute_group_factory"
      (λ _, false) 3 g Sample.attribute_group_tag kw 0 []
    = Some (Namespaces.Failed e st)
    ∧ Namespaces.xsd_globals st !! "A"
      = Some (Namespaces.Single (Namespaces.Decl Sample.group_a Sample.two_groups)).
Proof.
  intros kw g.
  destruct (wrong_result_name_is_terminal (H := Sample.externals)
              "attribute_group_factory" Sample.attribute_group_tag kw (λ _, false)
              "A" Sample.group_a Sample.two_groups
              (Sample.scripted_factory (λ _, None) (λ _, "B")))
    as [_ Hbuild]; [reflexivity|reflexivity| |].
  { intros w g0 prev. eexists _, _, _. split; [reflexivity|discriminate]. }
  destruct (Namespaces.build_xsd_map (H := Sample.externals)
              "attribute_group_factory" (λ _, false) 3 g
              Sample.attribute_group_tag kw 0 [])
    as [o|] eqn:Hrun; [|vm_compute in Hrun; discriminate].
  destruct (Hbuild 3 g 0 [] o) as (e & st & -> & Hst); [reflexivity|exact Hrun|].
  by exists e, st.
Defined.

(** A factory that raises a parse error on the declaration of [A]. *)
Lemma uncaught_exception_is_terminal_witness :
  let err := Namespaces.XMLSchemaParseError "bad declaration" None in
  let kw := Sample.kwargs_with (Sample.scripted_factory (λ _, Some err) id) in
  let g : gmap string Namespaces.entry :=
    {["A" := Namespaces.Single (Namespaces.Decl Sample.group_a Sample.two_groups)]} in
  ∃ e st,
    Namespaces.build_xsd_map (H := Sample.externals) "attribute_group_factory"
      (λ _, false) 3 g Sample.attribute_group_tag kw 0 []
    = Some (Namespaces.Failed e st)
    ∧ Namespaces.xsd_globals st !! "A"
      = Some (Namespaces.Single (Namespaces.Decl Sample.group_a Sample.two_groups)).
Proof.
  intros err kw g.
  destruct (uncaught_exception_is_terminal (H := Sample.externals)
              "attribute_group_factory" Sample.attribute_group_tag kw (λ _, false)
              "A" Sample.group_a Sample.two_groups)
    as (_ & _ & Hbuild); [reflexivity|].
  destruct (Namespaces.build_xsd_map (H := Sample.externals)
              "attribute_group_factory" (λ _, false) 3 g
              Sample.attribute_group_tag kw 0 [])
    as [o|] eqn:Hrun; [|vm_compute in Hrun; discriminate].
  destruct (Hbuild ltac:(right; exists (Sample.scripted_factory (λ _, Some err) id), err;
                         split_and!; [reflexivity| |reflexivity];
                         intros w g0 prev; by eexists)
              3 g 0 [] o) as (e & st & -> & Hst); [reflexivity|exact Hrun|].
  by exists e, st.
Defined.

(** Two attribute groups referring to each other: the call ends by the
    no-progress check, with a parse error naming an element. *)
Lemma type_error_never_leaves_witness :
  ∃ e st,
    Namespaces.build_xsd_map (H := Sample.externals) "attribute_group_factory"
      (λ _, false) 4 Sample.two_groups_map Sample.attribute_group_tag
      (Sample.kwargs_with (Sample.ref_factory Sample.mutual_refs)) 0 []
    = Some (Namespaces.Exhausted e st)
    ∧ ((∃ msg, e = Namespaces.XMLSchemaLookupError msg)
       ∨ (∃ msg el, e = Namespaces.XMLSchemaParseError msg (Some el))).
Proof.
  destruct (Namespaces.build_xsd_map (H := Sample.externals)
              "attribute_group_factory" (λ _, false) 4 Sample.two_groups_map
              Sample.attribute_group_tag
              (Sample.kwargs_with (Sample.ref_factory Sample.mutual_refs)) 0 [])
    as [o|] eqn:Hrun; [|vm_compute in Hrun; discriminate].
  pose proof (type_error_never_leaves (H := Sample.externals)
                _ _ _ _ _ _ _ _ o Hrun) as Hleave.
  vm_compute in Hrun. injection Hrun as <-.
  eexists _, _. split; [reflexivity|exact Hleave].
Defined.

(** A list of two attribute groups under the key [A], the factory
    deferring on the second: the list keeps the instance built for the
    first. *)
Lemma deferral_inside_list_witness :
  let err := Namespaces.XMLSchemaTypeError "not yet resolvable" in
  let f := Sample.scripted_factory
             (λ n, if decide (n = "B") then Some err else None) id in
  let kw := Sample.kwargs_with f in
  let g : gmap string Namespaces.entry :=
    {["A" := Namespaces.Chain
               [Namespaces.Decl Sample.group_a Sample.two_groups;
                Namespaces.Decl Sample.group_b Sample.two_groups]]} in
  ∃ x st',
    Namespaces.process_key "attribute_group_factory" Sample.attribute_group_tag
      kw (λ _, false) "A" (Namespaces.enter ["A"] g 0 [])
    = Namespaces.Done st'
    ∧ Namespaces.xsd_globals st' !! "A"
      = Some (Namespaces.Chain
                [Namespaces.Inst x;
                 Namespaces.Decl Sample.group_b Sample.two_groups])
    ∧ Namespaces.missing st' = ["A"].
Proof.
  intros err f kw g.
  destruct (deferral_inside_list "attribute_group_factory"
              Sample.attribute_group_tag kw (λ _, false) f eq_refl
              "A" (Sample.group_a, Sample.two_groups) []
              Sample.group_b Sample.two_groups [] err
              (Namespaces.enter ["A"] g 0 []))
    as (xs & x & st' & Hrun & _ & _ & _ & Hentry & Hmiss);
    [reflexivity| |reflexivity| | |reflexivity|cbn; lia|].
  - by repeat constructor.
  - intros el sc Hin w g0 prev. apply list_elem_of_singleton in Hin.
    injection Hin as -> ->. by eexists _, _.
  - intros w g0 prev. by eexists.
  - by exists x, st'.
Defined.

(** A list whose first item is an instance of [A], followed by a raw
    declaration: the declaration is invoked with that instance. *)
Lemma list_resumes_after_head_witness :
  let f := Sample.scripted_factory (λ _, None) id in
  let kw := Sample.kwargs_with f in
  let x := Sample.instance_of "A" Sample.group_a Sample.two_groups 7 in
  let g : gmap string Namespaces.entry :=
    {["A" := Namespaces.Chain
               [Namespaces.Inst x;
                Namespaces.Decl Sample.redefined_a Sample.redefining_a]]} in
  ∃ xs x_last st',
    Namespaces.process_key "attribute_group_factory" Sample.attribute_group_tag
      kw (λ _, false) "A" (Namespaces.enter ["A"] g 0 [])
    = Namespaces.Done st'
    ∧ Namespaces.calls st'
      = [] ++ expected_calls "A" (Some x)
                [(Sample.redefined_a, Sample.redefining_a)] xs
    ∧ Namespaces.xsd_globals st' !! "A"
      = Some (Namespaces.Single (Namespaces.Inst x_last)).
Proof.
  intros f kw x g.
  destruct (list_resumes_after_head "attribute_group_factory"
              Sample.attribute_group_tag kw (λ _, false) f eq_refl
              "A" x [(Sample.redefined_a, Sample.redefining_a)]
              (Namespaces.enter ["A"] g 0 []))
    as (xs & x_last & st' & Hrun & _ & _ & Hcalls & Hentry & _);
    [reflexivity|done| | |].
  - by repeat constructor.
  - intros el sc Hin w g0 prev. apply list_elem_of_singleton in Hin.
    injection Hin as -> ->. by eexists _, _.
  - by exists xs, x_last, st'.
Defined.

(** A list holding an attribute group and then a complex type, both
    under the key [T]: the builder of attribute groups builds the first
    and stops. *)
Lemma list_stops_at_other_tag_witness :
  let f := Sample.scripted_factory (λ _, None) (λ _, "T") in
  let kw := Sample.kwargs_with f in
  let g : gmap string Namespaces.entry :=
    {["T" := Namespaces.Chain
               [Namespaces.Decl Sample.group_a Sample.two_groups;
                Namespaces.Decl Sample.complex_t Sample.complex_schema]]} in
  ∃ x st',
    Namespaces.process_key "attribute_group_factory" Sample.attribute_group_tag
      kw (λ _, false) "T" (Namespaces.enter ["T"] g 0 [])
    = Namespaces.Done st'
    ∧ Namespaces.xsd_globals st' !! "T"
      = Some (Namespaces.Chain
                [Namespaces.Inst x;
                 Namespaces.Decl Sample.complex_t Sample.complex_schema])
    ∧ Namespaces.missing st' = []
    ∧ idle Sample.attribute_group_tag (λ _, false)
        (Namespaces.Chain
           [Namespaces.Inst x;
            Namespaces.Decl Sample.complex_t Sample.complex_schema]).
Proof.
  intros f kw g.
  destruct (list_stops_at_other_tag "attribute_group_factory"
              Sample.attribute_group_tag kw (λ _, false) f eq_refl
              "T" (Sample.group_a, Sample.two_groups) []
              Sample.complex_t Sample.complex_schema []
              (Namespaces.enter ["T"] g 0 []))
    as (xs & x & st' & Hrun & _ & _ & _ & Hentry & Hmiss & Hidle);
    [reflexivity| |discriminate| |].
  - by repeat constructor.
  - intros el sc Hin w g0 prev. apply list_elem_of_singleton in Hin.
    injection Hin as -> ->. by eexists _, _.
  - exists x, st'. split_and!; first [done | by apply Hidle].
Defined.

(** A view of the types without namespace, read before the build: it is
    empty, and it is the view returned after the build has added [T]. *)
Lemma build_keeps_indices_and_cache_witness :
  let new := foldl (λ r sc, Namespaces.register sc r)
               (Namespaces.init Sample.validator ∅ 0)
               [Sample.types_schema; Sample.redefining_t] in
  let first := Namespaces.get_globals (H := Sample.externals)
                 Namespaces.types_map "" true new in
  ∃ built,
    Namespaces.build (H := Sample.externals) 4 first.2 = Some (built, None)
    ∧ Namespaces.get_globals (H := Sample.externals) Namespaces.types_map ""
        true built = (first.1, built)
    ∧ Namespaces.view_items first.1 = ∅
    ∧ is_Some (Namespaces.types built !! "T").
Proof.
  intros new first.
  destruct (Namespaces.build (H := Sample.externals) 4 first.2)
    as [[built [e|]]|] eqn:Hrun;
    [vm_compute in Hrun; discriminate| |vm_compute in Hrun; discriminate].
  destruct (build_keeps_indices_and_cache (H := Sample.externals) 4 first.2
              built None Hrun) as (_ & _ & _ & Hview).
  exists built. split; [done|]. split.
  { apply Hview. apply (get_globals_caches (H := Sample.externals)). }
  vm_compute in Hrun. injection Hrun as <-.
  split; [reflexivity|]. eexists. vm_compute. reflexivity.
Defined.

(** A build that fails leaves the flags as they were. *)
Lemma built_flags_set_on_success_only_witness :
  let new := foldl (λ r sc, Namespaces.register sc r)
               (Namespaces.init Sample.late_validator ∅ 0)
               [Sample.simple_schema; Sample.complex_schema] in
  ∃ failed e,
    Namespaces.build (H := Sample.externals) 4 new = Some (failed, Some e)
    ∧ Namespaces.built_schemas failed = Namespaces.built_schemas new.
Proof.
  intros new.
  destruct (Namespaces.build (H := Sample.externals) 4 new)
    as [[failed [e|]]|] eqn:Hrun;
    [|vm_compute in Hrun; discriminate..].
  exists failed, e. split; [done|].
  apply (built_flags_set_on_success_only (H := Sample.externals) 4 new failed
           (Some e) Hrun).
Defined.

(** The global element [E] is a base element after the build. *)
Lemma base_elements_after_build_witness :
  let new := foldl (λ r sc, Namespaces.register sc r)
               (Namespaces.init Sample.validator ∅ 0)
               [Sample.types_schema; Sample.redefining_t] in
  ∃ built,
    Namespaces.build (H := Sample.externals) 4 new = Some (built, None)
    ∧ is_Some (Namespaces.base_elements built !! "E").
Proof.
  intros new.
  destruct (Namespaces.build (H := Sample.externals) 4 new)
    as [[built [e|]]|] eqn:Hrun;
    [vm_compute in Hrun; discriminate| |vm_compute in Hrun; discriminate].
  destruct (base_elements_after_build (H := Sample.externals) 4 new built Hrun)
    as (Helem & _).
  exists built. split; [done|]. apply Helem.
  vm_compute in Hrun. injection Hrun as <-. eexists. vm_compute. reflexivity.
Defined.

(** Building a second time: nothing is invoked, the maps stay. *)
Lemma rebuild_of_built_registry_witness :
  let new := foldl (λ r sc, Namespaces.register sc r)
               (Namespaces.init Sample.validator ∅ 0)
               [Sample.types_schema; Sample.redefining_t] in
  ∃ built again,
    Namespaces.build (H := Sample.externals) 4 new = Some (built, None)
    ∧ Namespaces.build (H := Sample.externals) 4 built = Some (again, None)
    ∧ Namespaces.factory_log again = Namespaces.factory_log built
    ∧ Namespaces.types again = Namespaces.types built.
Proof.
  intros new.
  destruct (Namespaces.build (H := Sample.externals) 4 new)
    as [[built [e|]]|] eqn:Hrun;
    [vm_compute in Hrun; discriminate| |vm_compute in Hrun; discriminate].
  vm_compute in Hrun. injection Hrun as <-.
  match goal with
  | |- ∃ built again, Some (?b, None) = _ ∧ _ =>
      destruct (rebuild_of_built_registry (H := Sample.externals) 3 b)
        as (again & Hagain & Hmaps & Hlog & _)
  end.
  - by_evaluation.
  - intros m Hm. destruct m; try done; by_evaluation.
  - eexists _, again. split; [reflexivity|]. split; [exact Hagain|].
    split; [exact Hlog|]. by apply (Hmaps Namespaces.types_map).
Defined.

(** A registry holding one schema without namespace is copied, and a
    second schema without namespace is registered in the copy: the list
    of the original holds it too, its resource index does not. *)
Lemma copy_shares_schema_lists_witness :
  let h : Namespaces.ListStore := [[Sample.types_schema]] in
  let ix := Namespaces.mkIndex [("", 0)] ∅ in
  let self := Namespaces.init Sample.validator ∅ 0 in
  let registered := Namespaces.register_shared Sample.simple_schema h
                      (Namespaces.copy_index ix) in
  let new := with_index registered.1 registered.2 (Namespaces.copy self) in
  let original' := with_index registered.1 ix self in
  Namespaces.namespaces original'
  = [("", [Sample.types_schema; Sample.simple_schema])]
  ∧ Namespaces.resources original' = ∅
  ∧ Namespaces.resources new = {["simple.xsd" := Sample.simple_schema]}.
Proof.
  intros h ix self registered new original'.
  destruct (copy_shares_schema_lists Sample.simple_schema h ix self)
    as (Hnew & Hres & Hshared & _).
  { split; [apply NoDup_singleton|]. apply Forall_singleton. cbn. lia. }
  split_and!.
  - fold registered original' new in Hshared.
    rewrite Hshared; [reflexivity|]. eexists. reflexivity.
  - exact Hres.
  - reflexivity.
Defined.
